(** * Awudima FQP: SPARQL algebra model and physical operators

    A shallow embedding of
    - [awudima/pysparql/model.py]        (module [Model]),
    - [awudima/sql/rml2sql/term_map.py]  (module [TermMap2SQL]),
    - [awudima/operators/qforms/Xproject.py] (module [Xproject]),
    - [awudima/operators/blocking/NestedLoopOptional.py]
      (module [NestedLoopOptional]),
    with the properties of the specification stated and settled on it.

    Conventions.  Python integers are [Z]; Python strings are [string];
    a [dict] with string keys and string values is a [gmap string string]
    ([d.update(e)] is [e ∪ d], [d.get(k, x)] is [default x (d !! k)]);
    a Python exception is a value of [exn] carried by [result]. *)

From Stdlib Require Import ZArith QArith Ascii String.
From stdpp Require Import gmap strings list fin_maps.

Set Warnings "-register-all".

Open Scope Z_scope.

(** ** Results of Python computations *)

Inductive exn : Set :=
| AttributeError      (* method or attribute missing on the receiver *)
| TypeError           (* e.g. iterating an object that is not a list *)
| ZeroDivisionError
| KeyError
| IndexError
| UnboundLocalError
| QueueBlocked.       (* [Queue.get(True)] on a queue that never delivers *)

Inductive result (A : Type) : Type :=
| Ok (a : A)
| Raise (e : exn).
Arguments Ok {A} a.
Arguments Raise {A} e.

Definition bind {A B} (m : result A) (k : A -> result B) : result B :=
  match m with
  | Ok a => k a
  | Raise e => Raise e
  end.

Notation "'let!' x ':=' m 'in' k" := (bind m (fun x => k))
  (at level 10, x pattern, m at level 100, k at level 200,
   format "'[v' 'let!'  x  :=  m  'in' '/' k ']'").

(** [p = 0; for e in xs: p = p + f(e)], the loop every counting method of
    the model is written with. *)
Section Loops.
Context {A B : Type} (g : A -> result Z) (f : A -> result B).

Fixpoint sum_loop (p : Z) (xs : list A) : result Z :=
  match xs with
  | [] => Ok p
  | e :: xs' => let! n := g e in sum_loop (p + n) xs'
  end.

(** [[f(t) for t in xs]] *)
Fixpoint comprehension (xs : list A) : result (list B) :=
  match xs with
  | [] => Ok []
  | t :: xs' => let! y := f t in let! ys := comprehension xs' in Ok (y :: ys)
  end.
End Loops.

(** Python's [s[1:]], [s[1:-1]] and [s.lstrip(chars)]. *)
Definition tail1 (s : string) : string :=
  match s with
  | EmptyString => EmptyString
  | String _ s' => s'
  end.

Fixpoint drop_last (s : string) : string :=
  match s with
  | EmptyString => EmptyString
  | String c EmptyString => EmptyString
  | String c s' => String c (drop_last s')
  end.

Definition slice_1_m1 (s : string) : string := drop_last (tail1 s).

Fixpoint lstrip (chars : list ascii) (s : string) : string :=
  match s with
  | EmptyString => EmptyString
  | String c s' => if bool_decide (c ∈ chars) then lstrip chars s' else s
  end.

Definition dquote : ascii := "034"%char.
Definition squote : ascii := "039"%char.

(** A double-quoted literal, written in SPARQL with its quotes. *)
Definition quoted (s : string) : string :=
  String dquote (s +:+ String dquote EmptyString).

Abbreviation dict := (gmap string string).

(** * pysparql/model.py *)

Module Model.

(** ** Terms and expressions *)

(** [Argument.desc] is [False], [True] (ORDER BY DESC) or a flags string. *)
Inductive pydesc : Set :=
| DescFalse
| DescTrue
| DescFlags (s : string).

Definition is_False (d : pydesc) : bool :=
  match d with DescFalse => true | _ => false end.

Record Argument : Set := mkArgument {
  name : string;
  constant : bool;
  desc : pydesc;
  datatype : option string;
  lang : option string;
  isUri : bool;
  dtype : option string
}.

(** [Argument(name, constant)] with the defaults of [__init__]. *)
Definition Argument_new (n : string) (c : bool) : Argument :=
  mkArgument n c DescFalse None None false None.

Definition unaryFunctor : list string :=
  [ "!"; "BOUND"; "bound"; "ISIRI"; "isiri"; "ISURI"; "isuri";
    "ISBLANK"; "isblank"; "ISLITERAL"; "isliteral"; "STR"; "str";
    "UCASE"; "ucase"; "LANG"; "lang"; "DATATYPE"; "datatype";
    "xsd:double"; "xsd:integer"; "xsd:decimal"; "xsd:float"; "xsd:string";
    "xsd:boolean"; "xsd:dateTime"; "xsd:nonPositiveInteger";
    "xsd:negativeInteger"; "xsd:long"; "xsd:int"; "xsd:short"; "xsd:byte";
    "xsd:nonNegativeInteger"; "xsd:unsignedInt"; "xsd:unsignedShort";
    "xsd:unsignedByte"; "xsd:positiveInteger";
    "<http://www.w3.org/2001/XMLSchema#integer>";
    "<http://www.w3.org/2001/XMLSchema#decimal>";
    "<http://www.w3.org/2001/XMLSchema#double>";
    "<http://www.w3.org/2001/XMLSchema#float>";
    "<http://www.w3.org/2001/XMLSchema#string>";
    "<http://www.w3.org/2001/XMLSchema#boolean>";
    "<http://www.w3.org/2001/XMLSchema#dateTime>";
    "<http://www.w3.org/2001/XMLSchema#nonPositiveInteger>";
    "<http://www.w3.org/2001/XMLSchema#negativeInteger>";
    "<http://www.w3.org/2001/XMLSchema#long>";
    "<http://www.w3.org/2001/XMLSchema#int>";
    "<http://www.w3.org/2001/XMLSchema#short>";
    "<http://www.w3.org/2001/XMLSchema#byte>";
    "<http://www.w3.org/2001/XMLSchema#nonNegativeInteger>";
    "<http://www.w3.org/2001/XMLSchema#unsignedInt>";
    "<http://www.w3.org/2001/XMLSchema#unsignedShort>";
    "<http://www.w3.org/2001/XMLSchema#unsignedByte>";
    "<http://www.w3.org/2001/XMLSchema#positiveInteger>" ].

Definition is_unary (op : string) : bool := bool_decide (op ∈ unaryFunctor).

(** An operand of an [Expression]: an [Argument] or an [Expression]; the
    right operand may be [None]. *)
Inductive Expr : Set :=
| EArgument (a : Argument)
| EExpression (op : string) (left : Expr) (right : option Expr).

(** [x.desc]: only [Argument] has the attribute. *)
Definition desc_of (e : option Expr) : result pydesc :=
  match e with
  | Some (EArgument a) => Ok (desc a)
  | _ => Raise AttributeError
  end.

(** The quotient [a / b] of two Python integers.  The counts divided here
    are bounded by the size of the tree, and on such operands the float
    quotient is equal, or ordered, exactly as the rational one is. *)
Definition truediv (a b : Z) : result Q :=
  if (b =? 0)%Z then Raise ZeroDivisionError else Ok (inject_Z a / inject_Z b)%Q.

Definition Argument_places (a : Argument) : Z := 1.

Definition Argument_constantNumber (a : Argument) : Z :=
  let n := 0 in if constant a then n + 1 else n.

Definition Argument_constantPercentage (a : Argument) : result Q :=
  truediv (Argument_constantNumber a) (Argument_places a).

Fixpoint Expr_places (e : Expr) : result Z :=
  match e with
  | EArgument a => Ok (Argument_places a)
  | EExpression op l r =>
      let! left_only :=
        (if is_unary op then Ok true
         else if String.eqb op "REGEX"
              then let! d := desc_of r in Ok (is_False d)
              else Ok false) in
      if (left_only : bool) then Expr_places l
      else let! a := Expr_places l in
           let! b := match r with
                     | Some r' => Expr_places r'
                     | None => Raise AttributeError
                     end in
           Ok (a + b)
  end.

Fixpoint Expr_constantNumber (e : Expr) : result Z :=
  match e with
  | EArgument a => Ok (Argument_constantNumber a)
  | EExpression op l r =>
      let! left_only :=
        (if is_unary op then Ok true
         else if String.eqb op "REGEX"
              then let! d := desc_of (Some l) in Ok (is_False d)
              else Ok false) in
      if (left_only : bool) then Expr_constantNumber l
      else let! a := Expr_constantNumber l in
           let! b := match r with
                     | Some r' => Expr_constantNumber r'
                     | None => Raise AttributeError
                     end in
           Ok (a + b)
  end.

Definition Expression_constantPercentage (e : Expr) : result Q :=
  let! c := Expr_constantNumber e in
  let! p := Expr_places e in
  truediv c p.

(** [Expression.instantiate]: both operands are sent [instantiate], which
    [Argument] and [None] do not have. *)
Fixpoint Expr_instantiate (d : dict) (e : Expr) : result Expr :=
  match e with
  | EArgument _ => Raise AttributeError
  | EExpression op l r =>
      let! l' := Expr_instantiate d l in
      let! r' := match r with
                 | Some r0 => Expr_instantiate d r0
                 | None => Raise AttributeError
                 end in
      Ok (EExpression op l' (Some r'))
  end.

Record Filter : Set := mkFilter { expr : Expr }.

Definition Filter_instantiate (d : dict) (f : Filter) : result Filter :=
  let! e := Expr_instantiate d (expr f) in Ok (mkFilter e).

(** ** Triple patterns *)

Record Triple : Set := mkTriple {
  subject : Argument;
  predicate : Argument;
  theobject : Argument;
  isGeneral : bool
}.

(** [Triple(s, p, o)]: [isGeneral] starts as [False]. *)
Definition Triple_new (s p o : Argument) : Triple := mkTriple s p o false.

Definition Triple_const_subjects (t : Triple) : Z :=
  let n := 0 in if constant (subject t) then n + 1 else n.

Definition Triple_const_objects (t : Triple) : Z :=
  let n := 0 in if constant (theobject t) then n + 1 else n.

Definition Triple_const_predicates (t : Triple) : Z :=
  let n := 0 in if constant (predicate t) then n + 1 else n.

Definition Triple_places (t : Triple) : Z := 3.

Definition Triple_constantNumber (t : Triple) : Z :=
  let n := 0 in
  let n := if constant (subject t) then n + 1 else n in
  let n := if constant (predicate t) then n + 1 else n in
  if constant (theobject t) then n + 1 else n.

Definition Triple_constantPercentage (t : Triple) : result Q :=
  truediv (Triple_constantNumber t) (Triple_places t).

Definition qmark : ascii := "063"%char.
Definition dollar : ascii := "036"%char.

Definition Triple_instantiate (d : dict) (t : Triple) : Triple :=
  let sn := lstrip [qmark; dollar] (name (subject t)) in
  let pn := lstrip [qmark; dollar] (name (predicate t)) in
  let on := lstrip [qmark; dollar] (name (theobject t)) in
  let s := match negb (constant (subject t)), d !! sn with
           | true, Some v => Argument_new v true
           | _, _ => subject t
           end in
  let p := match negb (constant (predicate t)), d !! pn with
           | true, Some v => Argument_new v true
           | _, _ => predicate t
           end in
  let o := match negb (constant (theobject t)), d !! on with
           | true, Some v => Argument_new v true
           | _, _ => theobject t
           end in
  Triple_new s p o.

Definition Qgtb (a b : Q) : bool := negb (Qle_bool a b).

Definition Triple_lt (self other : Triple) : result bool :=
  if constant (subject other) && negb (constant (subject self)) then Ok false
  else if constant (subject self) && negb (constant (subject other))
  then Ok true
  else if constant (predicate other) && constant (predicate self)
          && constant (theobject other) && negb (constant (theobject self))
  then Ok false
  else if constant (predicate other) && constant (predicate self)
          && constant (theobject self) && negb (constant (theobject other))
  then Ok true
  else let! a := Triple_constantPercentage self in
       let! b := Triple_constantPercentage other in
       Ok (Qgtb a b).

(** ** Blocks, OPTIONAL and SERVICE *)

(** The [triples] field of a block or a service is a list of nodes or a
    single node ([isinstance(self.triples, list)]). *)
Inductive Kids (A : Type) : Type :=
| KList (l : list A)
| KOne (a : A).
Arguments KList {A} l.
Arguments KOne {A} a.

(** The fields of [Service] next to [triples].  ([stars], [star_filters]
    and [translated_query] are read by no method embedded here.) *)
Record ServiceInfo : Set := mkServiceInfo {
  endpoint : string;
  datasource : string;
  rdfmts : list string;
  service_filters : list Filter;
  limit : Z;
  filter_nested : list string
}.

Inductive Node : Type :=
| NTriple (t : Triple)
| NFilter (f : Filter)
| NJoinBlock (triples : Kids Node) (filters : list Filter) (filters_str : string)
| NUnionBlock (triples : Kids Node) (filters : list Filter)
| NOptional (bgg : Node)
| NService (info : ServiceInfo) (triples : Kids Node).

(** [JoinBlock(triples, filters=None, filters_str='')] *)
Definition JoinBlock_new (ts : Kids Node) (fs : option (list Filter)) : Node :=
  NJoinBlock ts (default [] fs) "".

(** [places()], by the class of the receiver. *)
Fixpoint places (n : Node) : result Z :=
  match n with
  | NTriple t => Ok (Triple_places t)
  | NFilter f => Expr_places (expr f)
  | NJoinBlock (KList l) _ _ => sum_loop places 0 l
  | NJoinBlock (KOne a) _ _ => places a
  | NUnionBlock (KList l) _ => sum_loop places 0 l
  | NUnionBlock (KOne _) _ => Raise TypeError   (* [for e in self.triples] *)
  | NOptional bgg => places bgg
  | NService _ (KList l) => sum_loop places 0 l
  | NService _ (KOne a) => places a
  end.

Fixpoint constantNumber (n : Node) : result Z :=
  match n with
  | NTriple t => Ok (Triple_constantNumber t)
  | NFilter _ => Ok 1
  | NJoinBlock (KList l) _ _ => sum_loop constantNumber 0 l
  | NJoinBlock (KOne a) _ _ => constantNumber a
  | NUnionBlock (KList l) _ => sum_loop constantNumber 0 l
  | NUnionBlock (KOne _) _ => Raise TypeError
  | NOptional bgg => constantNumber bgg
  | NService _ (KList l) => sum_loop constantNumber 0 l
  | NService _ (KOne a) => constantNumber a
  end.

Fixpoint const_subjects (n : Node) : result Z :=
  match n with
  | NTriple t => Ok (Triple_const_subjects t)
  | NFilter _ => Raise AttributeError
  | NJoinBlock (KList l) _ _ => sum_loop const_subjects 0 l
  | NJoinBlock (KOne a) _ _ => const_subjects a
  | NUnionBlock (KList l) _ => sum_loop const_subjects 0 l
  | NUnionBlock (KOne _) _ => Raise TypeError
  | NOptional bgg => const_subjects bgg
  | NService _ (KList l) => sum_loop const_subjects 0 l
  | NService _ (KOne a) => const_subjects a
  end.

Fixpoint const_predicates (n : Node) : result Z :=
  match n with
  | NTriple t => Ok (Triple_const_predicates t)
  | NFilter _ => Raise AttributeError
  | NJoinBlock (KList l) _ _ => sum_loop const_predicates 0 l
  | NJoinBlock (KOne a) _ _ => const_predicates a
  | NUnionBlock (KList l) _ => sum_loop const_predicates 0 l
  | NUnionBlock (KOne _) _ => Raise TypeError
  | NOptional bgg => const_predicates bgg
  | NService _ (KList l) => sum_loop const_predicates 0 l
  | NService _ (KOne a) => const_predicates a
  end.

(** [Optional.const_objects] calls [self.bgg.const_obbjects()], a method
    no class defines. *)
Fixpoint const_objects (n : Node) : result Z :=
  match n with
  | NTriple t => Ok (Triple_const_objects t)
  | NFilter _ => Raise AttributeError
  | NJoinBlock (KList l) _ _ => sum_loop const_objects 0 l
  | NJoinBlock (KOne a) _ _ => const_objects a
  | NUnionBlock (KList l) _ => sum_loop const_objects 0 l
  | NUnionBlock (KOne _) _ => Raise TypeError
  | NOptional _ => Raise AttributeError
  | NService _ (KList l) => sum_loop const_objects 0 l
  | NService _ (KOne a) => const_objects a
  end.

(** [constantPercentage()], by the class of the receiver: [Service] alone
    tests [places() == 0] before it divides; [Filter] answers [0.5]. *)
Definition constantPercentage (n : Node) : result Q :=
  match n with
  | NFilter _ => Ok (1 # 2)%Q
  | NService _ _ =>
      let! p := places n in
      if (p =? 0)%Z then Ok 0%Q
      else let! c := constantNumber n in
           let! p' := places n in
           truediv c p'
  | _ =>
      let! c := constantNumber n in
      let! p := places n in
      truediv c p
  end.

(** [instantiate(d)], by the class of the receiver.  [Service.instantiate]
    stores the new triples in [self] and returns [self]; the embedding
    returns the updated service. *)
Fixpoint instantiate (d : dict) (n : Node) : result Node :=
  match n with
  | NTriple t => Ok (NTriple (Triple_instantiate d t))
  | NFilter f => let! f' := Filter_instantiate d f in Ok (NFilter f')
  | NJoinBlock (KList l) fs _ =>
      let! ts := comprehension (instantiate d) l in
      Ok (JoinBlock_new (KList ts) (Some fs))
  | NJoinBlock (KOne a) _ _ => instantiate d a
  | NUnionBlock (KList l) _ =>
      let! ts := comprehension (instantiate d) l in
      Ok (JoinBlock_new (KList ts) None)
  | NUnionBlock (KOne a) _ => instantiate d a
  | NOptional bgg => let! b := instantiate d bgg in Ok (NOptional b)
  | NService i (KList l) =>
      let! ts := comprehension (instantiate d) l in
      Ok (NService i (KList ts))
  | NService i (KOne a) =>
      let! t := instantiate d a in Ok (NService i (KOne t))
  end.

(** [Service.__lt__(self, other)] *)
Definition Service_lt (self other : Node) : result bool :=
  let! oS := const_subjects other in
  let! oP := const_predicates other in
  let! sS := const_subjects self in
  let! sP := const_predicates self in
  if oS + oP >? sS + sP then Ok false
  else if oS + oP <? sS + sP then Ok true
  else if oS >? sS then Ok false
  else if oS <? sS then Ok true
  else
    let! oO := const_objects other in
    let! sO := const_objects self in
    if oO + oP >? sO + sP then Ok false
    else if oO + oP <? sO + sP then Ok true
    else if oO >? sO then Ok false
    else if oO <? sO then Ok true
    else
      let! decided :=
        (if oS =? sS then
           if oP >? sP then Ok (Some false)
           else if oP <? sP then Ok (Some true)
           else if oO >? sO then Ok (Some false)
           else if oO <? sO then Ok (Some true)
           else Ok None
         else Ok None) in
      match decided with
      | Some b => Ok b
      | None =>
          let! op := constantPercentage other in
          let! sp := constantPercentage self in
          if Qeq_bool op sp then
            let! oN := constantNumber other in
            let! sN := constantNumber self in
            if oN >? sN then Ok false else Ok true
          else
            let! sp' := constantPercentage self in
            let! op' := constantPercentage other in
            Ok (Qgtb sp' op')
      end.

(** ** Query *)

Record Query : Type := mkQuery {
  prefs : list string;
  args : list Argument;
  body : Node;
  distinct : bool;
  order_by : list Argument;
  query_limit : Z;
  offset : Z;
  query_type : Z;
  query_filter_nested : string
}.

Definition Query_places (q : Query) : result Z := places (body q).
Definition Query_constantNumber (q : Query) : result Z := constantNumber (body q).
Definition Query_constantPercentage (q : Query) : result Q :=
  let! c := Query_constantNumber q in
  let! p := Query_places q in
  truediv c p.

End Model.

(** * sql/rml2sql/term_map.py *)

Module TermMap2SQL.
Import Model.

Inductive TripleMapType : Set := TEMPLATE | REFERENCE | CONSTANT.
Inductive TermType : Set := IRI | Literal | BNode.

#[global] Instance TermType_eq_dec : EqDecision TermType.
Proof. solve_decision. Defined.

(** Modelled from the spec: [pyrml.TermMap] is not part of the sources at
    hand.  A term map carries its value, its kind, its term type, the
    columns it references, and the [(prefix, column?)] segments that
    [split_template()] answers for a template. *)
Record TermMap : Set := mkTermMap {
  value : string;
  resource_type : TripleMapType;
  term_type : TermType;
  columns : list string;
  split_template : list (list string)
}.

(** Modelled from the spec: the classes of [sql.lang.model] are not part
    of the sources at hand; each is the record of the arguments its
    constructor is called with. *)
Record SQLColumn : Set := mkSQLColumn {
  col_name : string;
  col_table_alias : option string;
  col_schema : option string
}.

Inductive SQLTerm : Set :=
| Column (c : SQLColumn)
| SQLFunction (fname : string) (fargs : list string) (fcolumns : list SQLColumn).

Inductive SQLOperand : Set :=
| OTerm (t : SQLTerm)
| OStr (s : string)
| OFalse.

Inductive SQLCondition : Set :=
| Condition (lhs : SQLOperand) (op : string) (rhs : string)
| Condition1 (lhs : SQLOperand).        (* [SQLCondition(False)] *)

Inductive SQLAndCondition : Set :=
| AndCondition (conds : list SQLCondition).

Record SQLSelectExpression : Set := mkSelect {
  sel_term : SQLTerm;
  sel_alias : string
}.

Definition sq (s : string) : string := "'" +:+ s +:+ "'".
Definition bq (s : string) : string := "`" +:+ s +:+ "`".

(** [get_expr(expressions)] *)
Fixpoint get_expr (expressions : list (list string)) : list string :=
  match expressions with
  | [] => []
  | template :: rest =>
      match template with
      | t0 :: t1 :: _ =>
          if (0 <? Z.of_nat (String.length t0))%Z
          then sq t0 :: bq t1 :: get_expr rest
          else bq t1 :: get_expr rest
      | [t0] => sq t0 :: get_expr rest
      | [] => get_expr rest
      end
  end.

(** [SQLFunction('CONCAT', expr, columns=cols)] if [len(expr) > 1], else
    [SQLColumn(expr[0], table_alias, schema)]. *)
Definition concat_or_column (tm : TermMap) (expr : list string)
    (table_alias schema : option string) : result SQLTerm :=
  match expr with
  | _ :: _ :: _ =>
      let cols := map (fun column => mkSQLColumn (bq column) table_alias schema)
                      (columns tm) in
      Ok (SQLFunction "CONCAT" expr cols)
  | [e0] => Ok (Column (mkSQLColumn e0 table_alias schema))
  | [] => Raise IndexError
  end.

(** [get_sql_term(term_map, table_alias, schema)] *)
Definition get_sql_term (tm : TermMap) (table_alias schema : option string)
  : result (option SQLTerm * dict) :=
  let result_json_template : dict := ∅ in
  match resource_type tm with
  | TEMPLATE =>
      let temp_split := split_template tm in
      let! (term, result_json_template) :=
        (match temp_split with
         | [] => Ok (None, result_json_template)
         | first :: others =>
             let! (temp_split, result_json_template) :=
               (if bool_decide (term_type tm = BNode) then
                  match first with
                  | [] => Raise IndexError
                  | f0 :: frest =>
                      Ok ((("_:" +:+ f0) :: frest) :: others,
                          <["type" := "bnode"]> result_json_template)
                  end
                else Ok (temp_split, result_json_template)) in
             let expr := get_expr temp_split in
             let! term := concat_or_column tm expr table_alias schema in
             Ok (Some term, result_json_template)
         end) in
      let result_json_template :=
        match result_json_template !! "type" with
        | None => <["type" := "uri"]> result_json_template
        | Some _ => result_json_template
        end in
      Ok (term, <["value" := ""]> result_json_template)
  | REFERENCE =>
      match term_type tm with
      | BNode =>
          let expr := get_expr [["_:"; value tm]] in
          let! term := concat_or_column tm expr table_alias schema in
          Ok (Some term,
              <["value" := ""]> (<["type" := "bnode"]> result_json_template))
      | IRI =>
          Ok (Some (Column (mkSQLColumn (value tm) table_alias schema)),
              <["value" := ""]> (<["type" := "uri"]> result_json_template))
      | Literal =>
          Ok (Some (Column (mkSQLColumn (value tm) table_alias schema)),
              <["value" := ""]> (<["type" := "literal"]> result_json_template))
      end
  | CONSTANT =>
      let result_json_template := <["value" := value tm]> result_json_template in
      Ok (None,
          match term_type tm with
          | BNode => <["type" := "bnode"]> result_json_template
          | Literal => <["type" := "literal"]> result_json_template
          | IRI => <["type" := "uri"]> result_json_template
          end)
  end.

(** The object [TermMap2SQL(term_map, rdf_term, comparision_opr, ...)]. *)
Record t : Set := mkT {
  term_map : TermMap;
  rdf_term : Argument;
  comparision_opr : string;
  table_alias : option string;
  schema : option string;
  term : option SQLTerm;
  sparql_result_template : dict;
  filter_conditions : option SQLAndCondition;
  projection : option SQLSelectExpression
}.

(** Whether [rdf_term_value[0]] is a double quote, [<] or a single quote. *)
Definition opens_quoted (s : string) : result bool :=
  match s with
  | EmptyString => Raise IndexError
  | String c _ => Ok (bool_decide (c ∈ [dquote; "<"%char; squote]))
  end.

(** [get_filter_condition(self)] *)
Definition get_filter_condition (self : t) : result (option SQLAndCondition) :=
  if negb (constant (rdf_term self)) then Ok None
  else
    let rdf_term_value := name (rdf_term self) in
    let! rdf_term_value :=
      (if bool_decide (term_type (term_map self) ≠ BNode) then
         let! q := opens_quoted rdf_term_value in
         if (q : bool) then Ok (sq (slice_1_m1 rdf_term_value))
         else Ok (sq rdf_term_value)
       else Ok rdf_term_value) in
    match term self with
    | Some tm =>
        Ok (Some (AndCondition
                    [Condition (OTerm tm) (comparision_opr self) rdf_term_value]))
    | None =>
        match sparql_result_template self !! "value" with
        | None => Raise KeyError
        | Some v =>
            if String.eqb (comparision_opr self) "=" then
              if String.eqb v rdf_term_value then Ok None
              else Ok (Some (AndCondition [Condition1 OFalse]))
            else
              Ok (Some (AndCondition
                          [Condition (OStr (sq v)) (comparision_opr self)
                                     rdf_term_value]))
        end
    end.

(** [get_bound_columns(self)] *)
Definition get_bound_columns (self : t) : option SQLAndCondition :=
  if constant (rdf_term self) then None
  else Some (AndCondition
               (map (fun column =>
                       Condition
                         (OTerm (Column (mkSQLColumn column (table_alias self)
                                                     (schema self))))
                         " IS NOT " "NULL")
                    (columns (term_map self)))).

(** [get_projections(self)] *)
Definition get_projections (self : t) : option SQLSelectExpression :=
  if constant (rdf_term self) then None
  else match term self with
       | Some tm => Some (mkSelect tm (tail1 (name (rdf_term self))))
       | None => None
       end.

(** [__init__] followed by [_process_term_map]. *)
Definition init (tm : TermMap) (rdf : Argument) (opr : string)
    (alias sch : option string) : result t :=
  let! (term0, template) := get_sql_term tm alias sch in
  let self := mkT tm rdf opr alias sch term0 template None None in
  if constant rdf then
    let! fc := get_filter_condition self in
    Ok (mkT tm rdf opr alias sch term0 ∅ fc None)
  else
    let fc := get_bound_columns self in
    let self := mkT tm rdf opr alias sch term0 template fc None in
    Ok (mkT tm rdf opr alias sch term0 template fc (get_projections self)).

End TermMap2SQL.

(** * Tuple streams *)

(** What travels on a queue: a mapping, or the sentinel ["EOF"]. *)
Inductive item (A : Type) : Type :=
| Tuple (a : A)
| EOF.
Arguments Tuple {A} a.
Arguments EOF {A}.

Abbreviation msg := (item dict).

(** * operators/qforms/Xproject.py *)

Module Xproject.
Import Model.

Record t : Set := mkT {
  vars : list Argument;
  limit : Z
}.

(** The [for var in self.vars] loop, filling [res]. *)
Fixpoint project_loop (vs : list Argument) (tuple res : dict) : dict :=
  match vs with
  | [] => res
  | var :: vs' =>
      let var := tail1 (name var) in
      let aux := default "" (tuple !! var) in
      project_loop vs' tuple (<[var := aux]> res)
  end.

(** The [while not (tuple == "EOF")] loop.  [left] is what the input queue
    still holds, [out] what has been put on the output queue; the answer
    is the output queue and the rest of the input queue. *)
Fixpoint while_loop (self : t) (tuple : msg) (left : list msg) (i : Z)
    (out : list msg) {struct left} : result (list msg * list msg) :=
  match tuple with
  | EOF => Ok (out ++ [EOF], left)
  | Tuple tp =>
      let res : dict := ∅ in
      if (Z.of_nat (length (vars self)) =? 0)%Z then
        let out := out ++ [Tuple tp] in
        match left with
        | [] => Raise QueueBlocked
        | next :: left' => while_loop self next left' i out
        end
      else
        let res := project_loop (vars self) tp res in
        let out := out ++ [Tuple res] in
        let i := i + 1 in
        if (0 <? limit self) && (limit self <=? i) then Ok (out ++ [EOF], left)
        else
          match left with
          | [] => Raise QueueBlocked
          | next :: left' => while_loop self next left' i out
          end
  end.

(** [execute(self, left, dummy, out)] on an empty output queue. *)
Definition execute (self : t) (left : list msg) : result (list msg * list msg) :=
  match left with
  | [] => Raise QueueBlocked
  | tuple :: left' => while_loop self tuple left' 0 []
  end.

End Xproject.

(** * operators/blocking/NestedLoopOptional.py *)

Module NestedLoopOptional.

(** ** Objects and references

    The operator keeps references to dictionaries in its tables and in its
    result list, and updates one of them after it has been stored, so the
    dictionaries live in a heap and are named by their location. *)
Definition loc := nat.

Definition alloc (d : dict) (h : list dict) : loc * list dict :=
  (length h, h ++ [d]).

Definition deref (h : list dict) (l : loc) : dict := h !!! l.

(** [h[l].update(d)] *)
Definition update (l : loc) (d : dict) (h : list dict) : list dict :=
  alter (fun old => d ∪ old) l h.

(** Modelled from the spec: [OperatorStructures] ([Table], [Partition],
    [Record]) is not part of the sources at hand.  A record is
    [(tuple, ats, dts)]; a partition is an append-only list of records, an
    object that is true whatever it holds; a table has a fixed number of
    partitions, and [insertRecord(i, r)] appends [r] to partition [i]. *)
Record Record_ : Set := mkRecord {
  tuple : loc;
  ats : Z;
  dts : Z
}.

Record Partition : Set := mkPartition {
  records : list Record_
}.

Definition Partition_truth (p : Partition) : bool := true.

Record Table : Set := mkTable {
  size : Z;
  partitions : list Partition
}.

Definition Table_new (n : nat) : Table :=
  mkTable (Z.of_nat n) (replicate n (mkPartition [])).

(** The position [l[i]] reads, for a Python index [i]. *)
Definition py_index (len : nat) (i : Z) : option nat :=
  if (0 <=? i) && (i <? Z.of_nat len) then Some (Z.to_nat i)
  else if (i <? 0) && (- Z.of_nat len <=? i) then Some (Z.to_nat (Z.of_nat len + i))
  else None.

Definition get_partition (tb : Table) (i : Z) : result Partition :=
  match py_index (length (partitions tb)) i with
  | None => Raise IndexError
  | Some n => match partitions tb !! n with
              | Some p => Ok p
              | None => Raise IndexError
              end
  end.

Definition insertRecord (tb : Table) (i : Z) (r : Record_) : result Table :=
  match py_index (length (partitions tb)) i with
  | None => Raise IndexError
  | Some n =>
      Ok (mkTable (size tb)
            (alter (fun p => mkPartition (records p ++ [r])) n (partitions tb)))
  end.

(** ** The surroundings of the operator *)

(** The remote source handle: its [atts], and what the [n]-th call
    [execute(vars, instances, q)] puts on the fresh queue [q]. *)
Record RemoteSource : Type := mkRemote {
  atts : list string;
  remote_execute : nat -> list string -> list string -> list msg
}.

(** [hash] on strings, and the readings of [time()], call after call. *)
Record Env : Type := mkEnv {
  hash : string -> Z;
  clock : nat -> Z
}.

(** ** The operator

    [vars] enumerates [vars_left & vars_right] in the order Python
    iterates that set.  [ticks] counts the calls of [time()] and [calls]
    logs the calls of [right.execute]: both belong to the surroundings. *)
Record t : Type := mkT {
  heap : list dict;
  left_table : Table;
  right_table : Table;
  results : list loc;
  vars : list string;
  left : list (item loc);
  ticks : nat;
  calls : list (list string * list string)
}.

(** [NestedLoopOptional(vars_left, vars_right)], with tables of [n]
    partitions. *)
Definition init (n : nat) (join_vars : list string) : t :=
  mkT [] (Table_new n) (Table_new n) [] join_vars [] 0 [].

Definition set_heap (h : list dict) (s : t) : t :=
  mkT h (left_table s) (right_table s) (results s) (vars s) (left s)
      (ticks s) (calls s).
Definition set_left_table (tb : Table) (s : t) : t :=
  mkT (heap s) tb (right_table s) (results s) (vars s) (left s)
      (ticks s) (calls s).
Definition set_right_table (tb : Table) (s : t) : t :=
  mkT (heap s) (left_table s) tb (results s) (vars s) (left s)
      (ticks s) (calls s).
Definition set_results (rs : list loc) (s : t) : t :=
  mkT (heap s) (left_table s) (right_table s) rs (vars s) (left s)
      (ticks s) (calls s).
Definition set_left (l : list (item loc)) (s : t) : t :=
  mkT (heap s) (left_table s) (right_table s) (results s) (vars s) l
      (ticks s) (calls s).
Definition set_calls (c : list (list string * list string)) (s : t) : t :=
  mkT (heap s) (left_table s) (right_table s) (results s) (vars s) (left s)
      (ticks s) c.

(** [time()] *)
Definition time (E : Env) (s : t) : Z * t :=
  (clock E (ticks s),
   mkT (heap s) (left_table s) (right_table s) (results s) (vars s) (left s)
       (S (ticks s)) (calls s)).

(** A new dictionary object holding [d]. *)
Definition new_dict (d : dict) (s : t) : loc * t :=
  let (l, h) := alloc d (heap s) in (l, set_heap h s).

(** [isDuplicated(record1, record2)]: [not record1.ats >= record2.ats] *)
Definition isDuplicated (record1 record2 : Record_) : bool :=
  negb (ats record1 >=? ats record2).

(** [d[v]] *)
Definition getitem (d : dict) (v : string) : result string :=
  match d !! v with
  | Some x => Ok x
  | None => Raise KeyError
  end.

(** [for v in var: join = True; if record.tuple[v] != r.tuple[v]: join =
    False; break].  [join] is [None] while the local variable is unbound. *)
Fixpoint join_loop (var : list string) (rt rr : dict) (join : option bool)
  : result (option bool) :=
  match var with
  | [] => Ok join
  | v :: var' =>
      let! a := getitem rt v in
      let! b := getitem rr v in
      if negb (String.eqb a b) then Ok (Some false)
      else join_loop var' rt rr (Some true)
  end.

(** [for r in partition.records: ...], answering [anyjoin]. *)
Fixpoint scan (record : Record_) (var : list string) (rs : list Record_)
    (join : option bool) (anyjoin : bool) (s : t) : result (bool * t) :=
  match rs with
  | [] => Ok (anyjoin, s)
  | r :: rs' =>
      if isDuplicated record r then Ok (anyjoin, s)
      else
        let! join := join_loop var (deref (heap s) (tuple record))
                               (deref (heap s) (tuple r)) join in
        match join with
        | None => Raise UnboundLocalError
        | Some true =>
            let (res, s) := new_dict (deref (heap s) (tuple record)) s in
            let s := set_heap (update res (deref (heap s) (tuple r)) (heap s)) s in
            let s := set_results (results s ++ [res]) s in
            scan record var rs' (Some true) true s
        | Some false => scan record var rs' (Some false) anyjoin s
        end
  end.

(** [instances = []; for v in var: instances = instances + [record.tuple[v]]] *)
Fixpoint instances_loop (var : list string) (rt : dict) (instances : list string)
  : result (list string) :=
  match var with
  | [] => Ok instances
  | v :: var' =>
      let! x := getitem rt v in instances_loop var' rt (instances ++ [x])
  end.

(** [for v in var: res2.update({v: record.tuple[v]})] *)
Fixpoint bind_loop (var : list string) (rt : dict) (res2 : loc) (s : t)
  : result t :=
  match var with
  | [] => Ok s
  | v :: var' =>
      let! x := getitem rt v in
      bind_loop var' rt res2 (set_heap (update res2 {[ v := x ]} (heap s)) s)
  end.

(** [for k in self.right.atts: res.update({k: ''})] *)
Fixpoint pad_loop (ks : list string) (res : loc) (s : t) : t :=
  match ks with
  | [] => s
  | k :: ks' => pad_loop ks' res (set_heap (update res {[ k := "" ]} (heap s)) s)
  end.

(** The join branch: [while not (rtuple == "EOF"): ...], reading [qright]. *)
Fixpoint join_branch (E : Env) (record : Record_) (i : Z) (var : list string)
    (rtuple : dict) (qright : list msg) (s : t) {struct qright} : result t :=
  let (res2, s) := new_dict rtuple s in
  let! s := bind_loop var (deref (heap s) (tuple record)) res2 s in
  let (now, s) := time E s in
  let reg := mkRecord res2 now 0 in
  let! tb := insertRecord (right_table s) i reg in
  let s := set_right_table tb s in
  let (res, s) := new_dict rtuple s in
  let s := set_heap (update res (deref (heap s) (tuple record)) (heap s)) s in
  let s := set_results (results s ++ [res]) s in
  match qright with
  | [] => Raise QueueBlocked
  | EOF :: _ => Ok s
  | Tuple rtuple' :: qright' => join_branch E record i var rtuple' qright' s
  end.

(** The optional branch. *)
Definition optional_branch (E : Env) (right : RemoteSource) (record : Record_)
    (i : Z) (s : t) : result t :=
  let (res, s) := new_dict ∅ s in
  let s := pad_loop (atts right) res s in
  let (now, s) := time E s in
  let reg := mkRecord res now 0 in
  let! tb := insertRecord (right_table s) i reg in
  let s := set_right_table tb s in
  let s := set_heap (update res (deref (heap s) (tuple record)) (heap s)) s in
  Ok (set_results (results s ++ [res]) s).

(** [probe(self, record, i, partition, var, right)] *)
Definition probe (E : Env) (record : Record_) (i : Z) (partition : Partition)
    (var : list string) (right : RemoteSource) (s : t) : result t :=
  if Partition_truth partition then
    let anyjoin := false in
    let! (anyjoin, s) := scan record var (records partition) None anyjoin s in
    if (Z.of_nat (length (records partition)) =? 0)%Z || negb anyjoin then
      let! instances := instances_loop var (deref (heap s) (tuple record)) [] in
      let qright := remote_execute right (length (calls s)) (vars s) instances in
      let s := set_calls (calls s ++ [(vars s, instances)]) s in
      match qright with
      | [] => Raise QueueBlocked
      | Tuple rtuple :: qright' => join_branch E record i var rtuple qright' s
      | EOF :: _ => optional_branch E right record i s
      end
    else Ok s
  else Ok s.

(** [att1 = ''; for var in self.vars: att1 = att1 + tuple[var]] *)
Fixpoint key_loop (var : list string) (tp : dict) (att1 : string) : result string :=
  match var with
  | [] => Ok att1
  | v :: var' => let! x := getitem tp v in key_loop var' tp (att1 +:+ x)
  end.

(** [hash(att1) % size] *)
Definition partition_index (E : Env) (att1 : string) (sz : Z) : result Z :=
  if (sz =? 0)%Z then Raise ZeroDivisionError else Ok (hash E att1 mod sz).

(** [insertAndProbe(self, tuple)] *)
Definition insertAndProbe (E : Env) (right : RemoteSource) (tp : loc) (s : t)
  : result t :=
  let att1 := "" in
  let! att1 := key_loop (vars s) (deref (heap s) tp) att1 in
  let! i := partition_index E att1 (size (left_table s)) in
  let (now, s) := time E s in
  let record := mkRecord tp now 0 in
  let! tb := insertRecord (left_table s) i record in
  let s := set_left_table tb s in
  let! partition := get_partition (right_table s) i in
  probe E record i partition (vars s) right s.

(** [while not (tuple == "EOF"): tuple = qleft.get(True);
    self.left.append(tuple)]: every mapping read is an object of its own.
    Answers the rest of the queue. *)
Fixpoint read_left (qleft : list msg) (s : t) : result (list msg * t) :=
  match qleft with
  | [] => Raise QueueBlocked
  | EOF :: q' => Ok (q', set_left (left s ++ [EOF]) s)
  | Tuple d :: q' =>
      let (l, s) := new_dict d s in
      read_left q' (set_left (left s ++ [Tuple l]) s)
  end.

(** [while len(self.left) > 1: tuple = self.left.pop(0);
    self.insertAndProbe(tuple)].  The first argument is [self.left]. *)
Fixpoint probe_all (E : Env) (right : RemoteSource) (l : list (item loc)) (s : t)
  : result t :=
  match l with
  | [] => Ok (set_left [] s)
  | [last] => Ok (set_left [last] s)
  | Tuple tp :: l' =>
      let! s := insertAndProbe E right tp (set_left l' s) in
      probe_all E right l' s
  | EOF :: _ => Raise TypeError      (* ["EOF"[var]]; the sentinel is last *)
  end.

(** [while self.results: self.qresults.put(self.results.pop(0))] *)
Definition flush (s : t) (out : list msg) : list msg * t :=
  (out ++ map (fun l => Tuple (deref (heap s) l)) (results s), set_results [] s).

(** [execute(self, qleft, qright, out)], with [out] empty; [qright] is the
    handle of the remote source.  Answers the output queue and the
    operator. *)
Definition execute (E : Env) (self : t) (qleft : list msg) (qright : RemoteSource)
  : result (list msg * t) :=
  let s := set_left [] self in
  let! (_, s) := read_left qleft s in
  let! s := probe_all E qright (left s) s in
  let (out, s) := flush s [] in
  Ok (out ++ [EOF], s).

End NestedLoopOptional.

(** * pysparql/model.py: variables, and the nesting of a list *)

Module Analyses.
Import Model.

(** [l = []; for t in xs: l = l + f(t)] *)
Section ConcatLoop.
Context {A B : Type} (f : A -> result (list B)).

Fixpoint concat_loop (l : list B) (xs : list A) : result (list B) :=
  match xs with
  | [] => Ok l
  | t :: xs' => let! vs := f t in concat_loop (l ++ vs) xs'
  end.
End ConcatLoop.

Definition binaryFunctor : list string :=
  [ "REGEX"; "SAMETERM"; "LANGMATCHES"; "CONTAINS"; "langMatches"; "regex";
    "sameTerm" ].

Definition is_binary (op : string) : bool := bool_decide (op ∈ binaryFunctor).

(** [Argument.getVars] *)
Definition Argument_getVars (a : Argument) : list string :=
  if constant a then [] else [name a].

(** [Expression.getVars]; an operand is an [Argument] or an [Expression]. *)
Fixpoint Expr_getVars (e : Expr) : list string :=
  match e with
  | EArgument a => Argument_getVars a
  | EExpression op l r =>
      match r with
      | None => Expr_getVars l
      | Some r' =>
          if is_unary op || is_binary op then Expr_getVars l
          else Expr_getVars l ++ Expr_getVars r'
      end
  end.

(** [Triple.getPredVars] *)
Definition Triple_getPredVars (t : Triple) : list string :=
  let l := [] in
  if negb (constant (predicate t)) then l ++ [name (predicate t)] else l.

(** [Triple.getVars]: subject, object, then the predicate variables. *)
Definition Triple_getVars (t : Triple) : list string :=
  let l := [] in
  let l := if negb (constant (subject t)) then l ++ [name (subject t)] else l in
  let l := if negb (constant (theobject t)) then l ++ [name (theobject t)] else l in
  l ++ Triple_getPredVars t.

(** [getVars()], by the class of the receiver; [UnionBlock.getVars]
    iterates [self.triples] whatever it is. *)
Fixpoint getVars (n : Node) : result (list string) :=
  match n with
  | NTriple t => Ok (Triple_getVars t)
  | NFilter f => Ok (Expr_getVars (expr f))
  | NJoinBlock (KList l) _ _ => concat_loop getVars [] l
  | NJoinBlock (KOne a) _ _ => getVars a
  | NUnionBlock (KList l) _ => concat_loop getVars [] l
  | NUnionBlock (KOne _) _ => Raise TypeError
  | NOptional bgg => getVars bgg
  | NService _ (KList l) => concat_loop getVars [] l
  | NService _ (KOne a) => getVars a
  end.

(** [getPredVars()], by the class of the receiver; [Filter] has none. *)
Fixpoint getPredVars (n : Node) : result (list string) :=
  match n with
  | NTriple t => Ok (Triple_getPredVars t)
  | NFilter _ => Ok []
  | NJoinBlock (KList l) _ _ => concat_loop getPredVars [] l
  | NJoinBlock (KOne a) _ _ => getPredVars a
  | NUnionBlock (KList l) _ => concat_loop getPredVars [] l
  | NUnionBlock (KOne _) _ => Raise TypeError
  | NOptional bgg => getPredVars bgg
  | NService _ (KList l) => concat_loop getPredVars [] l
  | NService _ (KOne a) => getPredVars a
  end.

(** [a = True; for t in xs: a = a and f(t)] *)
Section AndLoop.
Context {A : Type} (f : A -> bool).

Fixpoint and_loop (a : bool) (xs : list A) : bool :=
  match xs with
  | [] => a
  | t :: xs' => and_loop (a && f t) xs'
  end.
End AndLoop.

(** [Triple.allTriplesLowSelectivity] *)
Definition Triple_allTriplesLowSelectivity (t : Triple) : bool :=
  negb (constant (predicate t))
  || (negb (constant (subject t)) && negb (constant (theobject t))).

(** [allTriplesLowSelectivity()], by the class of the receiver; [Service]
    adds [or (self.filters != [])]. *)
Fixpoint allTriplesLowSelectivity (n : Node) : bool :=
  match n with
  | NTriple t => Triple_allTriplesLowSelectivity t
  | NFilter _ => true
  | NJoinBlock (KList l) _ _ => and_loop allTriplesLowSelectivity true l
  | NJoinBlock (KOne a) _ _ => allTriplesLowSelectivity a
  | NUnionBlock (KList l) _ => and_loop allTriplesLowSelectivity true l
  | NUnionBlock (KOne a) _ => allTriplesLowSelectivity a
  | NOptional bgg => allTriplesLowSelectivity bgg
  | NService i ks =>
      let a := match ks with
               | KList l => and_loop allTriplesLowSelectivity true l
               | KOne a => allTriplesLowSelectivity a
               end in
      a || match service_filters i with [] => false | _ => true end
  end.

(** [allTriplesGeneral()], by the class of the receiver. *)
Fixpoint allTriplesGeneral (n : Node) : bool :=
  match n with
  | NTriple t => isGeneral t
  | NFilter _ => false
  | NJoinBlock (KList l) _ _ => and_loop allTriplesGeneral true l
  | NJoinBlock (KOne a) _ _ => allTriplesGeneral a
  | NUnionBlock (KList l) _ => and_loop allTriplesGeneral true l
  | NUnionBlock (KOne a) _ => allTriplesGeneral a
  | NOptional bgg => allTriplesGeneral bgg
  | NService _ (KList l) => and_loop allTriplesGeneral true l
  | NService _ (KOne a) => allTriplesGeneral a
  end.

(** ** [SPARQL.nest]

    The result is an element of the list or a pair [(x, y)] of results. *)
Inductive nested (A : Type) : Type :=
| Leaf (a : A)
| Pair (x y : nested A).
Arguments Leaf {A} a.
Arguments Pair {A} x y.

(** The inner loop, on the list read from its end: [x = l0.pop();
    y = l0.pop(); l1.append((x, y))] while two elements are left, then the
    odd one, if any, is appended. *)
Fixpoint pair_up {A} (r : list (nested A)) : list (nested A) :=
  match r with
  | x :: y :: r' => Pair x y :: pair_up r'
  | [x] => [x]
  | [] => []
  end.

(** The outer loop [while len(l0) > 1], run for at most [fuel] rounds. *)
Fixpoint rounds {A} (fuel : nat) (l0 : list (nested A)) : list (nested A) :=
  match fuel with
  | O => l0
  | S fuel' =>
      if (1 <? Z.of_nat (length l0))%Z then rounds fuel' (pair_up (rev l0))
      else l0
  end.

(** [nest(l)]; a list of length [n] needs fewer than [n] rounds. *)
Definition nest {A} (l : list A) : option (nested A) :=
  match rounds (length l) (map Leaf l) with
  | [x] => Some x
  | _ => None
  end.

End Analyses.

(** * NestedLoopOptional: construction and instantiation *)

Module NestedLoopOptionalVars.

(** [self.vars_left & self.vars_right], as a set. *)
Definition join_vars (vars_left vars_right : gset string) : gset string :=
  vars_left ∩ vars_right.

(** [instantiate(self, d)]: the variable sets of the new operator. *)
Definition instantiate (vars_left vars_right : gset string) (d : dict)
  : gset string * gset string :=
  let newvars_left := vars_left ∖ dom d in
  let newvars_right := vars_right ∖ dom d in
  (newvars_left, newvars_right).

End NestedLoopOptionalVars.

(** * Properties of the algebra model *)

Module ModelProps.
Import Model.

Lemma bind_Ok {A B} (m : result A) (k : A -> result B) (b : B) :
  bind m k = Ok b -> exists a, m = Ok a /\ k a = Ok b.
Proof. destruct m as [a|e]; simpl; [eauto | discriminate]. Qed.

Definition cst (n : string) : Argument := Argument_new n true.
Definition var (n : string) : Argument := Argument_new n false.

Definition some_service : ServiceInfo :=
  mkServiceInfo "http://example.org/sparql" "ds" [] [] (-1) [].

(** [S1]: one triple [<s> <p> ?o]; constants 1, 1, 0 in S, P, O. *)
Definition service_S1 : Node :=
  NService some_service
    (KList [NTriple (Triple_new (cst "<s>") (cst "<p>") (var "?o"))]).

(** [S2]: triples [?s <p> <o>] and [?s <q> ?o]; constants 0, 2, 1. *)
Definition service_S2 : Node :=
  NService some_service
    (KList [NTriple (Triple_new (var "?s") (cst "<p>") (cst "<o>"));
            NTriple (Triple_new (var "?s") (cst "<q>") (var "?o"))]).

Example service_S1_counts :
  const_subjects service_S1 = Ok 1 /\ const_predicates service_S1 = Ok 1 /\
  const_objects service_S1 = Ok 0.
Proof. repeat split. Qed.

Example service_S2_counts :
  const_subjects service_S2 = Ok 0 /\ const_predicates service_S2 = Ok 2 /\
  const_objects service_S2 = Ok 1.
Proof. repeat split. Qed.

(** ** The order on services *)

(** Whenever [s < s] has a value at all, the value is [True]: on a full
    tie the last test of [__lt__] answers [True] unless [other] has more
    constants. *)
Lemma Service_lt_self (s : Node) (b : bool) :
  Service_lt s s = Ok b -> b = true.
Proof.
  unfold Service_lt. intros H.
  destruct (const_subjects s) as [cs|]; [|discriminate].
  destruct (const_predicates s) as [cp|]; [|discriminate].
  simpl in H.
  rewrite !Z.gtb_ltb, !Z.ltb_irrefl in H.
  destruct (const_objects s) as [co|]; [|discriminate].
  simpl in H.
  rewrite !Z.gtb_ltb, !Z.ltb_irrefl, Z.eqb_refl in H. simpl in H.
  destruct (constantPercentage s) as [q|]; [|discriminate].
  simpl in H.
  assert (Hq : Qeq_bool q q = true) by (apply Qeq_bool_iff; reflexivity).
  rewrite Hq in H.
  destruct (constantNumber s) as [n|]; [|discriminate].
  simpl in H. rewrite Z.gtb_ltb, Z.ltb_irrefl in H. congruence.
Qed.

(** The key cascade of [__lt__], on the counts of the two services:
    [self] is smaller when it has more constants in S+P, then in S, then
    in O+P, then in O, then the higher percentage of constants; on a full
    tie it is smaller as well, unless [other] has more constants. *)
Definition before (sS sP sO sN : Z) (sp : Q) (oS oP oO oN : Z) (op : Q) : Prop :=
  oS + oP < sS + sP \/
  (oS + oP = sS + sP /\
   (oS < sS \/
    (oS = sS /\
     (oO + oP < sO + sP \/
      (oO + oP = sO + sP /\
       (oO < sO \/
        (oO = sO /\ ((op < sp)%Q \/ ((op == sp)%Q /\ oN <= sN))))))))).

Lemma Service_lt_before (self other : Node)
    (sS sP sO sN oS oP oO oN : Z) (sp op : Q) :
  const_subjects self = Ok sS -> const_predicates self = Ok sP ->
  const_objects self = Ok sO -> constantNumber self = Ok sN ->
  constantPercentage self = Ok sp ->
  const_subjects other = Ok oS -> const_predicates other = Ok oP ->
  const_objects other = Ok oO -> constantNumber other = Ok oN ->
  constantPercentage other = Ok op ->
  exists b, Service_lt self other = Ok b /\
            (b = true <-> before sS sP sO sN sp oS oP oO oN op).
Proof.
  intros HsS HsP HsO HsN Hsp HoS HoP HoO HoN Hop.
  unfold Service_lt, before. rewrite HsS, HsP, HoS, HoP. simpl.
  destruct (Z.gtb_spec (oS + oP) (sS + sP)); [eexists; split; [done|]; split; [done | lia]|].
  destruct (Z.ltb_spec (oS + oP) (sS + sP)); [eexists; split; [done|]; split; [lia | done]|].
  destruct (Z.gtb_spec oS sS); [eexists; split; [done|]; split; [done | lia]|].
  destruct (Z.ltb_spec oS sS); [eexists; split; [done|]; split; [lia | done]|].
  rewrite HsO, HoO. simpl.
  destruct (Z.gtb_spec (oO + oP) (sO + sP)); [eexists; split; [done|]; split; [done | lia]|].
  destruct (Z.ltb_spec (oO + oP) (sO + sP)); [eexists; split; [done|]; split; [lia | done]|].
  destruct (Z.gtb_spec oO sO); [eexists; split; [done|]; split; [done | lia]|].
  destruct (Z.ltb_spec oO sO); [eexists; split; [done|]; split; [lia | done]|].
  assert (E1 : (oS =? sS) = true) by (apply Z.eqb_eq; lia).
  assert (E2 : (oP >? sP) = false) by (rewrite Z.gtb_ltb; apply Z.ltb_ge; lia).
  assert (E3 : (oP <? sP) = false) by (apply Z.ltb_ge; lia).
  assert (E4 : (oO >? sO) = false) by (rewrite Z.gtb_ltb; apply Z.ltb_ge; lia).
  assert (E5 : (oO <? sO) = false) by (apply Z.ltb_ge; lia).
  rewrite ?E1, ?E2, ?E3, ?E4, ?E5. simpl. rewrite Hop, Hsp. simpl.
  destruct (Qeq_bool op sp) eqn:Eq.
  - apply Qeq_bool_iff in Eq. rewrite HoN, HsN. simpl.
    destruct (Z.gtb_spec oN sN); eexists; (split; [done|]).
    + split; [done|]. intros [?|[_ [?|[_ [?|[_ [?|[_ [Hlt|[_ ?]]]]]]]]]]; try lia.
      rewrite Eq in Hlt. by apply Qlt_irrefl in Hlt.
    + split; [|done]. intros _. right. split; [lia|]. right. split; [lia|].
      right. split; [lia|]. right. split; [lia|]. right. split; [done | lia].
  - rewrite ?Hsp, ?Hop. simpl. eexists. split; [done|].
    assert (Hne : ~ (op == sp)%Q) by (intros H9%Qeq_bool_iff; congruence).
    unfold Qgtb. rewrite negb_true_iff. split.
    + intros Hle. right. split; [lia|]. right. split; [lia|].
      right. split; [lia|]. right. split; [lia|]. left.
      apply Qnot_le_lt. intros Hle'%Qle_bool_iff. congruence.
    + intros [?|[_ [?|[_ [?|[_ [?|[_ [Hlt|[Heq _]]]]]]]]]]; try lia; [|done].
      apply not_true_is_false. intros Hle%Qle_bool_iff.
      by apply (Qlt_not_le _ _ Hlt).
Qed.

Lemma before_trans aS aP aO aN ap bS bP bO bN bp cS cP cO cN cp :
  before aS aP aO aN ap bS bP bO bN bp ->
  before bS bP bO bN bp cS cP cO cN cp ->
  before aS aP aO aN ap cS cP cO cN cp.
Proof.
  unfold before. intros Hab Hbc.
  destruct Hab as [?|[? [?|[? [?|[? [?|[? Hab]]]]]]]];
  destruct Hbc as [?|[? [?|[? [?|[? [?|[? Hbc]]]]]]]];
    try (left; lia);
    try (right; split; [lia|]; left; lia);
    try (right; split; [lia|]; right; split; [lia|]; left; lia);
    try (right; split; [lia|]; right; split; [lia|]; right; split; [lia|];
         left; lia).
  right. split; [lia|]. right. split; [lia|]. right. split; [lia|].
  right. split; [lia|].
  destruct Hab as [Hab|[Hab ?]], Hbc as [Hbc|[Hbc ?]].
  - left. by apply (Qlt_trans _ bp).
  - left. by rewrite Hbc.
  - left. by rewrite <- Hab.
  - right. split; [by rewrite Hbc | lia].
Qed.

(** The counting methods all return on [n]. *)
Definition counted (n : Node) : Prop :=
  exists (S P O N : Z) (p : Q),
    const_subjects n = Ok S /\ const_predicates n = Ok P /\
    const_objects n = Ok O /\ constantNumber n = Ok N /\
    constantPercentage n = Ok p.

(** [__lt__] is transitive on the services it can count. *)
Lemma Service_lt_trans (a b c : Node) :
  counted a -> counted b -> counted c ->
  Service_lt a b = Ok true -> Service_lt b c = Ok true ->
  Service_lt a c = Ok true.
Proof.
  intros (aS & aP & aO & aN & ap & A1 & A2 & A3 & A4 & A5)
         (bS & bP & bO & bN & bp & B1 & B2 & B3 & B4 & B5)
         (cS & cP & cO & cN & cp & C1 & C2 & C3 & C4 & C5) Hab Hbc.
  destruct (Service_lt_before a b _ _ _ _ _ _ _ _ _ _ A1 A2 A3 A4 A5 B1 B2 B3 B4 B5)
    as (x & Hx & Hxb).
  destruct (Service_lt_before b c _ _ _ _ _ _ _ _ _ _ B1 B2 B3 B4 B5 C1 C2 C3 C4 C5)
    as (y & Hy & Hyb).
  destruct (Service_lt_before a c _ _ _ _ _ _ _ _ _ _ A1 A2 A3 A4 A5 C1 C2 C3 C4 C5)
    as (z & Hz & Hzb).
  rewrite Hz. f_equal. apply Hzb.
  eapply before_trans; [apply Hxb | apply Hyb]; congruence.
Qed.

(** ... and reflexive. *)
Lemma Service_lt_refl (s : Node) : counted s -> Service_lt s s = Ok true.
Proof.
  intros (S & P & O & N & p & H1 & H2 & H3 & H4 & H5).
  destruct (Service_lt_before s s _ _ _ _ _ _ _ _ _ _ H1 H2 H3 H4 H5 H1 H2 H3 H4 H5)
    as (x & Hx & Hxb).
  rewrite Hx. f_equal. apply Hxb. unfold before.
  right. split; [lia|]. right. split; [lia|]. right. split; [lia|].
  right. split; [lia|]. right. split; [reflexivity | lia].
Qed.

(** C4. [Service.__lt__] is stated to be irreflexive; on the service
    [service_S1] (a single triple pattern [<s> <p> ?o]) the comparison
    [S1 < S1] evaluates to [True]. *)
Theorem Service_lt_reflexive_on_S1 :
  Service_lt service_S1 service_S1 = Ok true.
Proof. reflexivity. Qed.

(** C5, as stated: [S1 < S2] is not [False] and [S2 < S1] is not [True]. *)
Lemma Service_lt_S1_S2_as_stated_fails :
  ~ (Service_lt service_S1 service_S2 = Ok false /\
     Service_lt service_S2 service_S1 = Ok true).
Proof. intros [H _]. vm_compute in H. discriminate. Qed.

(** C5, amended. For services [s1] with constants 1, 1, 0 in subject,
    predicate and object position and [s2] with 0, 2, 1, the comparison
    [s1 < s2] evaluates to [True] and [s2 < s1] to [False]: at equal S+P
    the service with more constant subjects is the smaller one. *)
Theorem Service_lt_S1_S2 (s1 s2 : Node) :
  const_subjects s1 = Ok 1 -> const_predicates s1 = Ok 1 ->
  const_objects s1 = Ok 0 ->
  const_subjects s2 = Ok 0 -> const_predicates s2 = Ok 2 ->
  const_objects s2 = Ok 1 ->
  Service_lt s1 s2 = Ok true /\ Service_lt s2 s1 = Ok false.
Proof.
  intros S1s S1p S1o S2s S2p S2o. unfold Service_lt.
  rewrite S1s, S1p, S2s, S2p. split; reflexivity.
Qed.

Lemma Service_lt_S1_S2_witness :
  Service_lt service_S1 service_S2 = Ok true /\
  Service_lt service_S2 service_S1 = Ok false.
Proof.
  apply (Service_lt_S1_S2 service_S1 service_S2); reflexivity.
Defined.

(** ** Constant percentage *)

(** Where [places()] is positive the answer is the quotient. *)
Lemma constantPercentage_quotient (n : Node) (c p : Z) :
  (forall f, n <> NFilter f) ->
  constantNumber n = Ok c -> places n = Ok p -> 0 < p ->
  constantPercentage n = Ok (inject_Z c / inject_Z p)%Q.
Proof.
  intros Hf Hc Hp Hpos.
  assert (Hz : (p =? 0) = false) by (apply Z.eqb_neq; lia).
  destruct n; try (exfalso; eapply Hf; reflexivity);
    unfold constantPercentage; rewrite ?Hp, ?Hc; simpl;
    rewrite ?Hz; simpl; rewrite ?Hp; simpl; unfold truediv; rewrite Hz;
    reflexivity.
Qed.

(** [Service] answers 0 when it has no places. *)
Lemma Service_constantPercentage_no_places i ts :
  places (NService i ts) = Ok 0 -> constantPercentage (NService i ts) = Ok 0%Q.
Proof. intros H. unfold constantPercentage. rewrite H. reflexivity. Qed.

(** The blocks, [Optional] and [Query] divide without that test. *)
Lemma constantPercentage_no_places (n : Node) (c : Z) :
  match n with NJoinBlock _ _ _ | NUnionBlock _ _ | NOptional _ => True
          | _ => False end ->
  constantNumber n = Ok c -> places n = Ok 0 ->
  constantPercentage n = Raise ZeroDivisionError.
Proof.
  intros Hk Hc Hp.
  destruct n; try contradiction; unfold constantPercentage;
    rewrite Hc, Hp; reflexivity.
Qed.

(** C6. [constantPercentage()] is stated to answer 0 when [places()] is 0;
    on a [UnionBlock] and on a [JoinBlock] with an empty list of children,
    and on an [Optional] or a [Query] around such a block, the call raises
    [ZeroDivisionError], while [Service] answers 0. *)
Theorem constantPercentage_empty_block_raises :
  constantPercentage (NUnionBlock (KList []) []) = Raise ZeroDivisionError /\
  constantPercentage (NJoinBlock (KList []) [] "") = Raise ZeroDivisionError /\
  constantPercentage (NOptional (NUnionBlock (KList []) []))
    = Raise ZeroDivisionError /\
  Query_constantPercentage
    (mkQuery [] [] (NUnionBlock (KList []) []) false [] (-1) (-1) 0 "")
    = Raise ZeroDivisionError /\
  constantPercentage (NService some_service (KList [])) = Ok 0%Q.
Proof. repeat split. Qed.

(** ** Instantiation *)

(** [UnionBlock.instantiate] on a list of children builds
    [JoinBlock(ts)]: a join block, with no filters. *)
Lemma UnionBlock_instantiate_kind (d : dict) (l : list Node) (fs : list Filter)
    (n : Node) :
  instantiate d (NUnionBlock (KList l) fs) = Ok n ->
  exists ts, comprehension (instantiate d) l = Ok ts /\
             n = NJoinBlock (KList ts) [] "".
Proof.
  simpl. intros H. apply bind_Ok in H as (ts & Hts & Hn).
  exists ts. split; [exact Hts | ]. unfold JoinBlock_new in Hn. simpl in Hn.
  congruence.
Qed.

(** [JoinBlock.instantiate] keeps the kind and the filters. *)
Lemma JoinBlock_instantiate_kind (d : dict) (l : list Node) (fs : list Filter)
    (fstr : string) (n : Node) :
  instantiate d (NJoinBlock (KList l) fs fstr) = Ok n ->
  exists ts, comprehension (instantiate d) l = Ok ts /\
             n = NJoinBlock (KList ts) fs "".
Proof.
  simpl. intros H. apply bind_Ok in H as (ts & Hts & Hn).
  exists ts. split; [exact Hts | ]. unfold JoinBlock_new in Hn. simpl in Hn.
  congruence.
Qed.

Definition a_filter : Filter :=
  mkFilter (EExpression ">" (EArgument (var "?o")) (Some (EArgument (cst "5")))).

Definition union_of_two : Node :=
  NUnionBlock
    (KList [NJoinBlock (KList [NTriple (Triple_new (var "?s") (cst "<p>") (var "?o"))]) [] "";
            NJoinBlock (KList [NTriple (Triple_new (var "?s") (cst "<q>") (var "?o"))]) [] ""])
    [a_filter].

(** C8. [UnionBlock.instantiate] is stated to answer a union of the
    instantiated children that keeps the filters of the block; on the
    union [{?s <p> ?o} UNION {?s <q> ?o}] with one filter and the binding
    [s := <a>] it answers a [JoinBlock] of the two instantiated children,
    with an empty list of filters. *)
Theorem UnionBlock_instantiate_gives_JoinBlock :
  instantiate {[ "s" := "<a>" ]} union_of_two =
  Ok (NJoinBlock
        (KList [NJoinBlock (KList [NTriple (Triple_new (cst "<a>") (cst "<p>") (var "?o"))]) [] "";
                NJoinBlock (KList [NTriple (Triple_new (cst "<a>") (cst "<q>") (var "?o"))]) [] ""])
        [] "").
Proof. vm_compute. reflexivity. Qed.

End ModelProps.

(** * Properties of the term-map translation *)

Module TermMap2SQLProps.
Import Model TermMap2SQL.

Definition addis : TermMap := mkTermMap "Addis Ababa" CONSTANT Literal [] [].

(** The filter [TermMap2SQL(term_map, rdf_term, opr)] ends up with. *)
Definition filter_of (tm : TermMap) (rdf : Argument) (opr : string)
  : result (option SQLAndCondition) :=
  let! self := init tm rdf opr None None in Ok (filter_conditions self).

Lemma eqb_sq_false (v x : string) :
  (forall v', v <> String squote v') -> String.eqb v (sq x) = false.
Proof.
  intros Hv. apply String.eqb_neq. intros ->. eapply Hv. reflexivity.
Qed.

(** A constant term map of a type other than [BNode], whose value does not
    open with a single quote, is never found equal to a constant: the
    value is compared, unquoted, with the re-quoted name of the term. *)
Lemma constant_equality_never_holds (v : string) (tt : TermType) (n : string) :
  tt <> BNode -> n <> EmptyString ->
  (forall v', v <> String squote v') ->
  filter_of (mkTermMap v CONSTANT tt [] []) (Argument_new n true) "="
  = Ok (Some (AndCondition [Condition1 OFalse])).
Proof.
  intros Htt Hn Hv. unfold filter_of, init, get_sql_term. simpl.
  unfold get_filter_condition. simpl.
  case_bool_decide; [|done].
  destruct n as [|c n']; [congruence|]. simpl.
  assert (Hlook : forall x : string,
    (match tt with
     | IRI => <["type" := "uri"]> (<["value" := v]> (∅ : dict))
     | Literal => <["type" := "literal"]> (<["value" := v]> ∅)
     | BNode => <["type" := "bnode"]> (<["value" := v]> ∅)
     end : dict) !! "value" = Some v).
  { intros _. destruct tt; rewrite lookup_insert_ne by done;
      apply lookup_insert_eq. }
  destruct (bool_decide _); simpl; rewrite Hlook by exact "";
    rewrite eqb_sq_false by exact Hv; reflexivity.
Qed.

(** C9. An equality of two constants is stated to be decided at
    translation time, true for equal constants; for the constant term map
    "Addis Ababa" (a literal) and the constant term "Addis Ababa", written
    with or without its double quotes, the filter is the false condition
    [SQLCondition(False)], the same as for the constant "Other". *)
Theorem constant_vs_constant_equal_is_false :
  filter_of addis (Argument_new (quoted "Addis Ababa") true) "="
    = Ok (Some (AndCondition [Condition1 OFalse])) /\
  filter_of addis (Argument_new "Addis Ababa" true) "="
    = Ok (Some (AndCondition [Condition1 OFalse])) /\
  filter_of addis (Argument_new (quoted "Other") true) "="
    = Ok (Some (AndCondition [Condition1 OFalse])).
Proof. repeat split; vm_compute; reflexivity. Qed.

End TermMap2SQLProps.

(** * Properties of the projection operator *)

Module XprojectProps.
Import Model Xproject.

(** The mapping put on the output queue for the input mapping [tp]. *)
Definition project (vs : list Argument) (tp : dict) : dict :=
  project_loop vs tp ∅.

(** The names of the projection variables, first character dropped. *)
Definition stripped (vs : list Argument) : list string :=
  map (fun a => tail1 (name a)) vs.

Lemma tail1_qmark (x : string) : tail1 (String qmark x) = x.
Proof. reflexivity. Qed.

Lemma project_loop_lookup (vs : list Argument) (tp res : dict) (k : string) :
  project_loop vs tp res !! k =
  if bool_decide (k ∈ stripped vs) then Some (default "" (tp !! k)) else res !! k.
Proof.
  revert res. induction vs as [|a vs IH]; intros res; simpl.
  - reflexivity.
  - rewrite IH. fold (stripped vs). destruct (decide (k ∈ stripped vs)) as [Hin|Hin].
    + rewrite !bool_decide_eq_true_2; [done | by right | done].
    + rewrite (bool_decide_eq_false_2 _ Hin).
      destruct (decide (k = tail1 (name a))) as [->|Hne].
      * rewrite bool_decide_eq_true_2 by left. apply lookup_insert_eq.
      * rewrite bool_decide_eq_false_2.
        -- by rewrite lookup_insert_ne.
        -- intros [?|?]%elem_of_cons; done.
Qed.

Lemma project_lookup (vs : list Argument) (tp : dict) (k : string) :
  k ∈ stripped vs -> project vs tp !! k = Some (default "" (tp !! k)).
Proof.
  intros H. unfold project. rewrite project_loop_lookup.
  by rewrite bool_decide_eq_true_2.
Qed.

Lemma project_dom (vs : list Argument) (tp : dict) :
  dom (project vs tp) = list_to_set (stripped vs).
Proof.
  apply set_eq. intros k. rewrite elem_of_dom, elem_of_list_to_set.
  unfold project. rewrite project_loop_lookup.
  destruct (decide (k ∈ stripped vs)) as [Hin|Hin].
  - rewrite bool_decide_eq_true_2 by done. split; [done | eauto].
  - rewrite bool_decide_eq_false_2 by done. rewrite lookup_empty.
    split; [intros [? ?]; done | done].
Qed.

(** One more [get] and the loop again. *)
Definition run (self : t) (left : list msg) (i : Z) (out : list msg)
  : result (list msg * list msg) :=
  match left with
  | [] => Raise QueueBlocked
  | next :: left' => while_loop self next left' i out
  end.

Lemma while_loop_tuple (self : t) (tp : dict) (left : list msg) (i : Z)
    (out : list msg) :
  vars self <> [] ->
  while_loop self (Tuple tp) left i out =
  let out' := out ++ [Tuple (project (vars self) tp)] in
  if (0 <? limit self) && (limit self <=? i + 1) then Ok (out' ++ [EOF], left)
  else run self left (i + 1) out'.
Proof.
  intros Hv.
  assert (Hz : (Z.of_nat (length (vars self)) =? 0) = false).
  { apply Z.eqb_neq. destruct (vars self); [done | simpl; lia]. }
  destruct left; simpl; rewrite Hz; reflexivity.
Qed.

(** How many mappings are still to be emitted after [i] of them, and what
    is left unread. *)
Definition emitted (self : t) (i : Z) (ts : list dict) : list dict :=
  if 0 <? limit self then take (Z.to_nat (limit self - i)) ts else ts.

Definition unread (self : t) (i : Z) (ts : list dict) (rest : list msg)
  : list msg :=
  if (0 <? limit self) && (limit self - i <=? Z.of_nat (length ts))
  then drop (Z.to_nat (limit self - i)) (map Tuple ts) ++ EOF :: rest
  else rest.

Lemma run_spec (self : t) (ts : list dict) (rest : list msg) :
  vars self <> [] ->
  forall (i : Z) (out : list msg),
  (limit self <= 0 \/ i < limit self) ->
  run self (map Tuple ts ++ EOF :: rest) i out =
  Ok (out ++ map (fun tp => Tuple (project (vars self) tp)) (emitted self i ts)
          ++ [EOF],
      unread self i ts rest).
Proof.
  intros Hv. induction ts as [|tp ts IH]; intros i out Hi.
  - assert (Hc : (0 <? limit self)
                 && (limit self - i <=? Z.of_nat (length (@nil dict))) = false).
    { destruct (0 <? limit self) eqn:E; [|done]. apply Z.ltb_lt in E.
      simpl. apply Z.leb_gt. lia. }
    unfold emitted, unread. rewrite Hc. simpl.
    replace (if 0 <? limit self then take (Z.to_nat (limit self - i)) [] else [])
      with (@nil dict) by (destruct (0 <? limit self); by rewrite ?take_nil).
    by destruct rest.
  - change (run self (map Tuple (tp :: ts) ++ EOF :: rest) i out)
      with (while_loop self (Tuple tp) (map Tuple ts ++ EOF :: rest) i out).
    rewrite while_loop_tuple by exact Hv. cbv zeta.
    unfold emitted, unread.
    destruct (0 <? limit self) eqn:Epos; simpl andb.
    + apply Z.ltb_lt in Epos.
      assert (Hlt : i < limit self) by lia.
      destruct (limit self <=? i + 1) eqn:Elast.
      * apply Z.leb_le in Elast.
        replace (limit self - i) with 1 by lia.
        assert (Hle : (1 <=? Z.of_nat (length (tp :: ts))) = true)
          by (apply Z.leb_le; simpl; lia).
        simpl length in *. rewrite Hle. simpl. by rewrite <- app_assoc.
      * apply Z.leb_gt in Elast.
        rewrite IH by lia. unfold emitted, unread.
        assert (E1 : (0 <? limit self) = true) by (apply Z.ltb_lt; lia).
        rewrite E1. simpl andb.
        replace (Z.to_nat (limit self - i))
          with (S (Z.to_nat (limit self - (i + 1)))) by lia.
        simpl length.
        assert (Hb : (limit self - i <=? Z.of_nat (S (length ts)))
                     = (limit self - (i + 1) <=? Z.of_nat (length ts))).
        { destruct (limit self - (i + 1) <=? Z.of_nat (length ts)) eqn:E2;
            [apply Z.leb_le; apply Z.leb_le in E2
            |apply Z.leb_gt; apply Z.leb_gt in E2]; lia. }
        rewrite Hb. simpl. by rewrite <- app_assoc.
    + apply Z.ltb_ge in Epos.
      rewrite IH by lia. unfold emitted, unread.
      assert (E1 : (0 <? limit self) = false) by (apply Z.ltb_ge; lia).
      rewrite E1. simpl. by rewrite <- app_assoc.
Qed.

Lemma execute_spec (self : t) (ts : list dict) (rest : list msg) :
  vars self <> [] ->
  execute self (map Tuple ts ++ EOF :: rest) =
  Ok (map (fun tp => Tuple (project (vars self) tp)) (emitted self 0 ts) ++ [EOF],
      unread self 0 ts rest).
Proof.
  intros Hv.
  change (execute self (map Tuple ts ++ EOF :: rest))
    with (run self (map Tuple ts ++ EOF :: rest) 0 []).
  rewrite run_spec by (exact Hv || lia). reflexivity.
Qed.

(** Scenario: input [{a:1, b:2}, {a:3, b:4}, {a:5, b:6}], projection
    [?a], limit 2. *)
Definition scenario_op : t := mkT [Argument_new "?a" false] 2.
Definition scenario_tuples : list dict :=
  [ {[ "a" := "1"; "b" := "2" ]};
    {[ "a" := "3"; "b" := "4" ]};
    {[ "a" := "5"; "b" := "6" ]} ].

(** C7. With a non-empty projection list, every input mapping read before
    EOF yields the mapping whose keys are the projection names without
    their first character (the leading [?]) and whose values are those of
    the input, the empty string for a missing key; with [0 < limit] the
    operator emits [limit] mappings at most, leaves the rest of the input
    unread and emits EOF; without a positive limit, or with fewer input
    mappings than the limit, it projects them all and emits EOF.  On the
    scenario the output is [{a:1}, {a:3}], EOF, and the third mapping is
    left unread. *)
Theorem Xproject_execute_projects_and_limits
    (self : t) (ts : list dict) (rest : list msg) :
  vars self <> [] ->
  let out_of (l : list dict) : list msg :=
    map (fun tp => Tuple (project (vars self) tp)) l ++ [EOF] in
  (0 < limit self <= Z.of_nat (length ts) ->
     execute self (map Tuple ts ++ EOF :: rest) =
     Ok (out_of (take (Z.to_nat (limit self)) ts),
         drop (Z.to_nat (limit self)) (map Tuple ts) ++ EOF :: rest)) /\
  (limit self <= 0 \/ Z.of_nat (length ts) < limit self ->
     execute self (map Tuple ts ++ EOF :: rest) = Ok (out_of ts, rest)) /\
  (forall tp : dict,
     dom (project (vars self) tp) = list_to_set (stripped (vars self)) /\
     (forall k, k ∈ stripped (vars self) ->
        project (vars self) tp !! k = Some (default "" (tp !! k))) /\
     (forall a x, a ∈ vars self -> name a = String qmark x ->
        project (vars self) tp !! x = Some (default "" (tp !! x)))) /\
  execute scenario_op (map Tuple scenario_tuples ++ [EOF]) =
    Ok ([Tuple {[ "a" := "1" ]}; Tuple {[ "a" := "3" ]}; EOF],
        [Tuple {[ "a" := "5"; "b" := "6" ]}; EOF]).
Proof.
  intros Hv out_of. split; [|split; [|split; [intros tp; split; [|split]|]]].
  - intros [Hpos Hle]. rewrite execute_spec by exact Hv.
    unfold emitted, unread, out_of. rewrite Z.sub_0_r.
    assert (E1 : (0 <? limit self) = true) by (apply Z.ltb_lt; lia).
    assert (E2 : (limit self <=? Z.of_nat (length ts)) = true)
      by (apply Z.leb_le; lia).
    by rewrite E1, E2.
  - intros Hl. rewrite execute_spec by exact Hv.
    unfold emitted, unread, out_of. rewrite Z.sub_0_r.
    destruct (0 <? limit self) eqn:E1.
    + apply Z.ltb_lt in E1.
      assert (E2 : (limit self <=? Z.of_nat (length ts)) = false)
        by (apply Z.leb_gt; lia).
      rewrite E2. simpl. rewrite take_ge by lia. reflexivity.
    + reflexivity.
  - apply project_dom.
  - apply project_lookup.
  - intros a x Ha Hn. apply project_lookup. unfold stripped.
    apply list_elem_of_fmap. exists a. rewrite Hn. split; [done | exact Ha].
  - vm_compute. reflexivity.
Qed.

Lemma Xproject_scenario_witness :
  vars scenario_op <> [] /\
  execute scenario_op (map Tuple scenario_tuples ++ [EOF]) =
    Ok (map (fun tp => Tuple (project (vars scenario_op) tp))
            (take 2 scenario_tuples) ++ [EOF],
        drop 2 (map Tuple scenario_tuples) ++ [EOF]).
Proof.
  split; [discriminate |].
  refine (proj1 (Xproject_execute_projects_and_limits
                   scenario_op scenario_tuples [] _) _);
    [discriminate | simpl; lia].
Defined.

End XprojectProps.

(** * Properties of the nested-loop optional *)

Module NestedLoopOptionalProps.
Import NestedLoopOptional.

(** ** Dictionaries and the heap *)

(** The dictionary a record refers to. *)
Definition view (s : t) (r : Record_) : dict := deref (heap s) (tuple r).

(** [d] has a value for every join variable. *)
Definition binds (var : list string) (d : dict) : Prop :=
  Forall (fun v => is_Some (d !! v)) var.

(** [l[v] == r[v]] for every join variable [v]. *)
Definition matches (var : list string) (l r : dict) : bool :=
  forallb (fun v => bool_decide (l !! v = r !! v)) var.

Lemma matches_spec var l r :
  matches var l r = true <-> forall v, v ∈ var -> l !! v = r !! v.
Proof.
  unfold matches. rewrite forallb_forall. split.
  - intros H v Hv. apply list_elem_of_In in Hv.
    specialize (H v Hv). by apply bool_decide_eq_true in H.
  - intros H v Hv. apply bool_decide_eq_true, H. by apply list_elem_of_In.
Qed.

Lemma deref_app_l (h ext : list dict) (l : loc) :
  (l < length h)%nat -> deref (h ++ ext) l = deref h l.
Proof. intros H. unfold deref. by rewrite lookup_total_app_l. Qed.

Lemma deref_fresh (h ext : list dict) (d : dict) :
  deref (h ++ d :: ext) (length h) = d.
Proof. unfold deref. by rewrite list_lookup_total_middle. Qed.

Lemma update_fresh (h : list dict) (x d : dict) :
  update (length h) d (h ++ [x]) = h ++ [d ∪ x].
Proof.
  unfold update.
  replace (length h) with (length h + 0)%nat by lia.
  by rewrite alter_app_r.
Qed.

Lemma getitem_binds var d v :
  binds var d -> v ∈ var -> getitem d v = Ok (d !!! v).
Proof.
  intros Hb Hv. unfold binds in Hb. rewrite Forall_forall in Hb.
  destruct (Hb v Hv) as [x Hx]. unfold getitem.
  rewrite Hx. by rewrite (lookup_total_correct _ _ _ Hx).
Qed.

Lemma binds_cons v var d : binds (v :: var) d -> is_Some (d !! v) /\ binds var d.
Proof. intros H. by apply Forall_cons in H. Qed.

(** ** The loops over the join variables *)

Lemma join_loop_spec var lt rr join :
  binds var lt -> binds var rr ->
  join_loop var lt rr join =
  Ok (if matches var lt rr
      then match var with [] => join | _ => Some true end
      else Some false).
Proof.
  revert join. induction var as [|v var IH]; intros join Hl Hr; [done|].
  apply binds_cons in Hl as [[a Ha] Hl]. apply binds_cons in Hr as [[b Hb] Hr].
  simpl. unfold getitem. rewrite Ha, Hb. simpl.
  destruct (String.eqb_spec a b) as [->|Hne]; simpl.
  - rewrite bool_decide_eq_true_2 by done. rewrite IH by done. simpl.
    by destruct (matches var lt rr), var.
  - rewrite bool_decide_eq_false_2 by congruence. done.
Qed.

Lemma join_loop_nonempty var lt rr join :
  var <> [] -> binds var lt -> binds var rr ->
  join_loop var lt rr join = Ok (Some (matches var lt rr)).
Proof.
  intros Hv Hl Hr. rewrite join_loop_spec by done.
  by destruct var, (matches _ lt rr).
Qed.

(** The values of the join variables, in order. *)
Definition instances_of (var : list string) (d : dict) : list string :=
  map (fun v => d !!! v) var.

Lemma instances_loop_spec var d acc :
  binds var d -> instances_loop var d acc = Ok (acc ++ instances_of var d).
Proof.
  revert acc. induction var as [|v var IH]; intros acc Hb; simpl.
  - by rewrite app_nil_r.
  - apply binds_cons in Hb as [[a Ha] Hb]. unfold getitem. rewrite Ha. simpl.
    rewrite IH by done. rewrite (lookup_total_correct _ _ _ Ha).
    by rewrite <- app_assoc.
Qed.

(** The key string of a mapping: its join values, concatenated. *)
Definition key_of (var : list string) (d : dict) : string :=
  foldl (fun acc v => acc +:+ d !!! v) "" var.

Lemma key_loop_spec var d acc :
  binds var d ->
  key_loop var d acc = Ok (foldl (fun acc v => acc +:+ d !!! v) acc var).
Proof.
  revert acc. induction var as [|v var IH]; intros acc Hb; simpl; [done|].
  apply binds_cons in Hb as [[a Ha] Hb]. unfold getitem. rewrite Ha. simpl.
  rewrite IH by done. by rewrite (lookup_total_correct _ _ _ Ha).
Qed.

Lemma matches_instances var l r :
  matches var l r = true -> instances_of var l = instances_of var r.
Proof.
  rewrite matches_spec. intros H. unfold instances_of.
  apply map_ext_in. intros v Hv%list_elem_of_In.
  unfold lookup_total, map_lookup_total. by rewrite (H v Hv).
Qed.

Lemma key_of_instances var d :
  key_of var d = foldl (fun acc x => acc +:+ x) "" (instances_of var d).
Proof.
  unfold key_of, instances_of. generalize "". induction var as [|v var IH];
    intros acc; simpl; [done | by rewrite IH].
Qed.

Lemma matches_key var l r :
  matches var l r = true -> key_of var l = key_of var r.
Proof.
  intros H. rewrite !key_of_instances. by rewrite (matches_instances _ _ _ H).
Qed.

Lemma matches_refl var l : matches var l l = true.
Proof. by apply matches_spec. Qed.

Lemma matches_sym var l r : matches var l r = matches var r l.
Proof.
  apply Bool.eq_true_iff_eq. rewrite !matches_spec.
  split; intros H v Hv; symmetry; auto.
Qed.

Lemma matches_trans var l r m :
  matches var l r = true -> matches var r m = true -> matches var l m = true.
Proof.
  rewrite !matches_spec. intros H1 H2 v Hv. by rewrite H1, H2.
Qed.

Lemma matches_binds var l r :
  matches var l r = true -> binds var l -> binds var r.
Proof.
  rewrite matches_spec. unfold binds. rewrite !Forall_forall.
  intros H Hl v Hv. rewrite <- (H v Hv). auto.
Qed.

(** ** Tables *)

#[local] Instance Partition_inhabited : Inhabited Partition :=
  populate (mkPartition []).

(** The records of partition [n]. *)
Definition part (tb : Table) (n : nat) : list Record_ :=
  match partitions tb !! n with
  | Some p => records p
  | None => []
  end.

(** The table after [news] have been inserted, in order, in partition [n]. *)
Definition append_at (n : nat) (news : list Record_) (tb : Table) : Table :=
  mkTable (size tb)
          (alter (fun p => mkPartition (records p ++ news)) n (partitions tb)).

Definition table_ok (n : nat) (tb : Table) : Prop :=
  size tb = Z.of_nat n /\ length (partitions tb) = n.

Lemma append_at_nil n tb : append_at n [] tb = tb.
Proof.
  destruct tb as [sz ps]. unfold append_at. simpl. f_equal.
  apply list_alter_id. intros [rs]. simpl. by rewrite app_nil_r.
Qed.

Lemma append_at_app n a b tb :
  append_at n b (append_at n a tb) = append_at n (a ++ b) tb.
Proof.
  unfold append_at. simpl. f_equal. rewrite list_alter_alter_eq.
  apply list_alter_ext; [|done]. intros [rs] _. simpl. by rewrite app_assoc.
Qed.

Lemma table_ok_append_at k n news tb :
  table_ok k tb -> table_ok k (append_at n news tb).
Proof. intros [H1 H2]. split; simpl; [done | by rewrite length_alter]. Qed.

Lemma part_append_at_eq n news tb :
  (n < length (partitions tb))%nat ->
  part (append_at n news tb) n = part tb n ++ news.
Proof.
  intros Hn. unfold part, append_at. simpl.
  destruct (lookup_lt_is_Some_2 _ _ Hn) as [p Hp].
  by rewrite list_lookup_alter_eq, Hp.
Qed.

Lemma part_append_at_ne n m news tb :
  n <> m -> part (append_at n news tb) m = part tb m.
Proof.
  intros Hn. unfold part, append_at. simpl.
  by rewrite list_lookup_alter_ne.
Qed.

Lemma py_index_in_range len i :
  0 <= i < Z.of_nat len -> py_index len i = Some (Z.to_nat i).
Proof.
  intros [H1 H2]. unfold py_index.
  assert (E1 : (0 <=? i) = true) by (apply Z.leb_le; lia).
  assert (E2 : (i <? Z.of_nat len) = true) by (apply Z.ltb_lt; lia).
  by rewrite E1, E2.
Qed.

Lemma insertRecord_ok k tb i r :
  table_ok k tb -> 0 <= i < Z.of_nat k ->
  insertRecord tb i r = Ok (append_at (Z.to_nat i) [r] tb).
Proof.
  intros [_ Hl] Hi. unfold insertRecord.
  rewrite py_index_in_range by (rewrite Hl; lia). done.
Qed.

Lemma get_partition_ok k tb i :
  table_ok k tb -> 0 <= i < Z.of_nat k ->
  exists p, get_partition tb i = Ok p /\ records p = part tb (Z.to_nat i).
Proof.
  intros [_ Hl] Hi. unfold get_partition, part.
  rewrite py_index_in_range by (rewrite Hl; lia).
  destruct (lookup_lt_is_Some_2 (partitions tb) (Z.to_nat i)) as [p Hp];
    [lia|]. rewrite Hp. eauto.
Qed.

(** ** Steps of the operator

    What a piece of [probe] does to the operator: the heap grows, the
    records [recs] are appended to partition [n] of the right table, the
    references [locs] to the result list. *)
Record Step (E : Env) (n : nat) (s s' : t) (recs : list Record_)
    (locs : list loc) : Prop := mkStep {
  step_heap : exists ext, heap s' = heap s ++ ext;
  step_left_table :
    size (left_table s') = size (left_table s) /\
    length (partitions (left_table s')) = length (partitions (left_table s));
  step_right_table : right_table s' = append_at n recs (right_table s);
  step_results : results s' = results s ++ locs;
  step_vars : vars s' = vars s;
  step_ticks : (ticks s <= ticks s')%nat;
  step_recs :
    Forall (fun r => (tuple r < length (heap s'))%nat /\
                     exists m, (ticks s <= m < ticks s')%nat /\
                               ats r = clock E m) recs;
  step_locs : Forall (fun l => (l < length (heap s'))%nat) locs
}.

Lemma Step_refl E n s : Step E n s s [] [].
Proof.
  split; try done.
  - exists []. by rewrite app_nil_r.
  - by rewrite append_at_nil.
  - by rewrite app_nil_r.
Qed.

Lemma Step_heap_length E n s s' recs locs :
  Step E n s s' recs locs -> (length (heap s) <= length (heap s'))%nat.
Proof. intros [[ext ->] _ _ _ _ _ _ _]. rewrite length_app. lia. Qed.

Lemma Step_deref E n s s' recs locs l :
  Step E n s s' recs locs -> (l < length (heap s))%nat ->
  deref (heap s') l = deref (heap s) l.
Proof. intros [[ext ->] _ _ _ _ _ _ _] Hl. by apply deref_app_l. Qed.

Lemma Step_trans E n s s' s'' r1 l1 r2 l2 :
  Step E n s s' r1 l1 -> Step E n s' s'' r2 l2 ->
  Step E n s s'' (r1 ++ r2) (l1 ++ l2).
Proof.
  intros H1 H2. pose proof (Step_heap_length _ _ _ _ _ _ H2) as Hlen.
  destruct H1 as [[e1 Hh1] [Hs1 Hp1] Hr1 Hres1 Hv1 Ht1 Hrec1 Hloc1].
  destruct H2 as [[e2 Hh2] [Hs2 Hp2] Hr2 Hres2 Hv2 Ht2 Hrec2 Hloc2].
  split.
  - exists (e1 ++ e2). by rewrite Hh2, Hh1, app_assoc.
  - split; congruence.
  - by rewrite Hr2, Hr1, append_at_app.
  - by rewrite Hres2, Hres1, app_assoc.
  - congruence.
  - lia.
  - apply Forall_app. split.
    + eapply Forall_impl; [exact Hrec1|]. simpl.
      intros r [Hb (m & Hm & Ha)]. split; [lia|]. exists m. split; [lia|done].
    + eapply Forall_impl; [exact Hrec2|]. simpl.
      intros r [Hb (m & Hm & Ha)]. split; [lia|]. exists m. split; [lia|done].
  - apply Forall_app. split; [|done].
    eapply Forall_impl; [exact Hloc1|]. simpl. intros; lia.
Qed.

(** ** Emitting results *)

(** The operator after the new dictionaries [ds] have been appended to the
    result list. *)
Definition emit (ds : list dict) (s : t) : t :=
  set_results (results s ++ seq (length (heap s)) (length ds))
              (set_heap (heap s ++ ds) s).

Lemma emit_nil s : emit [] s = s.
Proof. destruct s. unfold emit, set_results, set_heap. simpl.
  by rewrite !app_nil_r. Qed.

Lemma emit_cons d ds s : emit ds (emit [d] s) = emit (d :: ds) s.
Proof.
  unfold emit, set_results, set_heap. simpl.
  rewrite length_app. simpl. rewrite <- !app_assoc. simpl.
  by replace (length (heap s) + 1)%nat with (S (length (heap s))) by lia.
Qed.

Lemma deref_seq (h ds : list dict) :
  map (deref (h ++ ds)) (seq (length h) (length ds)) = ds.
Proof.
  revert h. induction ds as [|d ds IH]; intros h; [done|]. simpl.
  rewrite deref_fresh. f_equal.
  replace (h ++ d :: ds) with ((h ++ [d]) ++ ds) by by rewrite <- app_assoc.
  replace (S (length h)) with (length (h ++ [d]))
    by (rewrite length_app; simpl; lia).
  apply IH.
Qed.

Lemma emit_Step E n ds s :
  Step E n s (emit ds s) [] (seq (length (heap s)) (length ds)).
Proof.
  split; simpl; try done.
  - by exists ds.
  - by rewrite append_at_nil.
  - apply Forall_forall. intros l Hl%elem_of_seq. rewrite length_app. lia.
Qed.

(** ** The scan of a partition *)

(** The records the scan reaches: those before the first duplicate. *)
Fixpoint live (record : Record_) (rs : list Record_) : list Record_ :=
  match rs with
  | [] => []
  | r :: rs' => if isDuplicated record r then [] else r :: live record rs'
  end.

(** The records the scan reaches and joins with [record]. *)
Definition matching (var : list string) (h : list dict) (record : Record_)
    (rs : list Record_) : list Record_ :=
  filter (fun r => matches var (deref h (tuple record)) (deref h (tuple r)) = true)
         (live record rs).

Definition nonempty {A} (l : list A) : bool :=
  match l with [] => false | _ => true end.

Definition in_heap (h : list dict) (var : list string) (r : Record_) : Prop :=
  (tuple r < length h)%nat /\ binds var (deref h (tuple r)).

Lemma scan_spec_gen (var : list string) (record : Record_) (h0 : list dict)
    (rs : list Record_) :
  var <> [] -> in_heap h0 var record -> Forall (in_heap h0 var) rs ->
  forall (join : option bool) (anyjoin : bool) (s : t) (ext : list dict),
  heap s = h0 ++ ext ->
  scan record var rs join anyjoin s =
  Ok (anyjoin || nonempty (matching var h0 record rs),
      emit (map (fun r => deref h0 (tuple r) ∪ deref h0 (tuple record))
                (matching var h0 record rs)) s).
Proof.
  intros Hvar [Hrec Hbrec] Hrs.
  induction Hrs as [|r rs [Hr Hbr] Hrs IH]; intros join anyjoin s ext Hheap.
  - simpl. unfold matching. simpl. by rewrite emit_nil, orb_false_r.
  - simpl. unfold matching. simpl.
    destruct (isDuplicated record r) eqn:Edup.
    { simpl. by rewrite emit_nil, orb_false_r. }
    rewrite Hheap, !deref_app_l by done.
    rewrite join_loop_nonempty by done. simpl.
    destruct (matches var (deref h0 (tuple record)) (deref h0 (tuple r))) eqn:Em.
    + rewrite filter_cons_True by done. simpl.
      rewrite deref_app_l by (rewrite length_app; lia).
      rewrite deref_app_l by done. rewrite update_fresh.
      erewrite IH; cycle 1.
      { simpl. rewrite <- app_assoc. reflexivity. }
      rewrite orb_true_r. simpl. f_equal. f_equal.
      fold (matching var h0 record rs).
      rewrite <- emit_cons. f_equal.
      unfold emit, set_results, set_heap. simpl. by rewrite Hheap.
    + rewrite filter_cons_False by (by rewrite Em). by erewrite IH.
Qed.

Lemma scan_spec (var : list string) (record : Record_) (rs : list Record_)
    (join : option bool) (anyjoin : bool) (s : t) :
  var <> [] -> in_heap (heap s) var record ->
  Forall (in_heap (heap s) var) rs ->
  scan record var rs join anyjoin s =
  Ok (anyjoin || nonempty (matching var (heap s) record rs),
      emit (map (fun r => view s r ∪ view s record)
                (matching var (heap s) record rs)) s).
Proof.
  intros Hvar Hrec Hrs.
  apply (scan_spec_gen var record (heap s) rs Hvar Hrec Hrs join anyjoin s []).
  by rewrite app_nil_r.
Qed.


(** ** The join branch *)

(** [res2]: the remote mapping with the join values of the left one. *)
Definition bound (var : list string) (lt rt : dict) : dict :=
  foldl (fun d v => <[v := lt !!! v]> d) rt var.

Lemma bind_loop_spec (var : list string) (lt : dict) (h : list dict) :
  binds var lt ->
  forall (d0 : dict) (s : t), heap s = h ++ [d0] ->
  bind_loop var lt (length h) s
  = Ok (set_heap (h ++ [foldl (fun d v => <[v := lt !!! v]> d) d0 var]) s).
Proof.
  induction var as [|v var IH]; intros Hb d0 s Hs; simpl.
  - rewrite <- Hs. by destruct s.
  - apply binds_cons in Hb as [[x Hx] Hb]. unfold getitem. rewrite Hx. simpl.
    rewrite Hs, update_fresh, <- insert_union_singleton_l.
    erewrite IH; [|done|reflexivity].
    by rewrite (lookup_total_correct _ _ _ Hx).
Qed.

Lemma lookup_bound_in var lt rt v :
  v ∈ var -> bound var lt rt !! v = Some (lt !!! v).
Proof.
  unfold bound. revert rt. induction var as [|w var IH] using rev_ind;
    intros rt Hv; [by apply not_elem_of_nil in Hv|].
  rewrite foldl_app. simpl. destruct (decide (v = w)) as [->|Hne].
  - apply lookup_insert_eq.
  - rewrite lookup_insert_ne by done. apply IH.
    apply elem_of_app in Hv as [Hv|Hv%list_elem_of_singleton]; done.
Qed.

Lemma lookup_bound_out var lt rt v :
  v ∉ var -> bound var lt rt !! v = rt !! v.
Proof.
  unfold bound. revert rt. induction var as [|w var IH]; intros rt Hv; [done|].
  simpl. rewrite IH by (intros ?; apply Hv; by right).
  apply lookup_insert_ne. intros ->. apply Hv. by left.
Qed.

Lemma bound_matches var lt rt :
  binds var lt -> matches var lt (bound var lt rt) = true.
Proof.
  intros Hb. apply matches_spec. intros v Hv.
  rewrite lookup_bound_in by done.
  unfold binds in Hb. rewrite Forall_forall in Hb.
  destruct (Hb v Hv) as [x Hx]. by rewrite (lookup_total_correct _ _ _ Hx).
Qed.

(** The left mapping wins over the remote one on every key, so binding
    the join variables first changes nothing in the emitted mapping. *)
Lemma union_bound var lt rt :
  binds var lt -> lt ∪ bound var lt rt = lt ∪ rt.
Proof.
  intros Hb. apply map_eq. intros k. rewrite !lookup_union.
  destruct (decide (k ∈ var)) as [Hin|Hout].
  - rewrite lookup_bound_in by done.
    unfold binds in Hb. rewrite Forall_forall in Hb.
    destruct (Hb k Hin) as [x Hx]. rewrite Hx. simpl.
    by destruct (rt !! k).
  - by rewrite lookup_bound_out.
Qed.

(** One round of the join branch. *)
Definition join_iter (E : Env) (n : nat) (var : list string) (lt : dict)
    (s : t) (rt : dict) : t :=
  mkT (heap s ++ [bound var lt rt; lt ∪ rt])
      (left_table s)
      (append_at n [mkRecord (length (heap s)) (clock E (ticks s)) 0]
                 (right_table s))
      (results s ++ [S (length (heap s))])
      (vars s) (left s) (S (ticks s)) (calls s).

Lemma join_branch_spec (E : Env) (k : nat) (record : Record_) (i : Z)
    (var : list string) (lt : dict) (rts : list dict) (more : list msg) :
  0 <= i < Z.of_nat k -> binds var lt ->
  forall (rt : dict) (s : t),
  table_ok k (right_table s) ->
  (tuple record < length (heap s))%nat ->
  deref (heap s) (tuple record) = lt ->
  join_branch E record i var rt (map Tuple rts ++ EOF :: more) s
  = Ok (foldl (join_iter E (Z.to_nat i) var lt) s (rt :: rts)).
Proof.
  intros Hi Hb.
  assert (Hone : forall rt s q,
    table_ok k (right_table s) ->
    (tuple record < length (heap s))%nat ->
    deref (heap s) (tuple record) = lt ->
    join_branch E record i var rt q s =
    match q with
    | [] => Raise QueueBlocked
    | EOF :: _ => Ok (join_iter E (Z.to_nat i) var lt s rt)
    | Tuple rt' :: q' =>
        join_branch E record i var rt' q' (join_iter E (Z.to_nat i) var lt s rt)
    end).
  { intros rt s q Htb Hrec Hlt.
    destruct q as [|[rt'|] q]; simpl;
      unfold new_dict, alloc; simpl;
      rewrite deref_app_l, Hlt by done;
      (erewrite bind_loop_spec; [|done|simpl; reflexivity]); simpl;
      (erewrite insertRecord_ok; [|exact Htb|done]); simpl; [done|..];
      rewrite update_fresh;
      rewrite deref_app_l by (rewrite length_app; simpl; lia);
      rewrite deref_app_l, Hlt by done;
      fold (bound var lt rt);
      match goal with
      | |- context [set_results ?a ?b] =>
          replace (set_results a b) with (join_iter E (Z.to_nat i) var lt s rt);
          [done|]
      end;
      unfold join_iter, set_results, set_heap, set_right_table; simpl;
      rewrite length_app, <- app_assoc; simpl;
      by replace (length (heap s) + 1)%nat with (S (length (heap s))) by lia. }
  induction rts as [|rt' rts IH]; intros rt s Htb Hrec Hlt.
  - by rewrite Hone.
  - rewrite Hone by done. cbn [map app].
    rewrite IH; [done | | | ].
    + simpl. by apply table_ok_append_at.
    + simpl. rewrite length_app. lia.
    + simpl. by rewrite deref_app_l.
Qed.

(** ** The optional branch *)

(** Every attribute of the source bound to the empty string. *)
Definition padding (ks : list string) : dict :=
  foldl (fun d k => <[k := ""]> d) ∅ ks.

Lemma pad_loop_spec (ks : list string) (h : list dict) :
  forall (d0 : dict) (s : t), heap s = h ++ [d0] ->
  pad_loop ks (length h) s
  = set_heap (h ++ [foldl (fun d k => <[k := ""]> d) d0 ks]) s.
Proof.
  induction ks as [|k ks IH]; intros d0 s Hs; simpl.
  - rewrite <- Hs. by destruct s.
  - rewrite Hs, update_fresh, <- insert_union_singleton_l.
    by erewrite IH; [|reflexivity].
Qed.

Lemma lookup_padding ks k :
  padding ks !! k = if bool_decide (k ∈ ks) then Some "" else None.
Proof.
  unfold padding. induction ks as [|w ks IH] using rev_ind; [done|].
  rewrite foldl_app. simpl. destruct (decide (k = w)) as [->|Hne].
  - rewrite lookup_insert_eq. rewrite bool_decide_eq_true_2; [done|].
    apply elem_of_app. right. by left.
  - rewrite lookup_insert_ne by done. rewrite IH.
    destruct (decide (k ∈ ks)) as [Hin|Hout].
    + rewrite !bool_decide_eq_true_2; [done| |done]. apply elem_of_app. by left.
    + rewrite !bool_decide_eq_false_2; [done| |done].
      intros [?|?%list_elem_of_singleton]%elem_of_app; done.
Qed.

(** The operator after the optional branch has run. *)
Definition optional_state (E : Env) (n : nat) (ks : list string) (lt : dict)
    (s : t) : t :=
  mkT (heap s ++ [lt ∪ padding ks])
      (left_table s)
      (append_at n [mkRecord (length (heap s)) (clock E (ticks s)) 0]
                 (right_table s))
      (results s ++ [length (heap s)])
      (vars s) (left s) (S (ticks s)) (calls s).

Lemma optional_branch_spec (E : Env) (right : RemoteSource) (k : nat)
    (record : Record_) (i : Z) (s : t) :
  0 <= i < Z.of_nat k -> table_ok k (right_table s) ->
  (tuple record < length (heap s))%nat ->
  optional_branch E right record i s
  = Ok (optional_state E (Z.to_nat i) (atts right)
                       (deref (heap s) (tuple record)) s).
Proof.
  intros Hi Htb Hrec. unfold optional_branch, new_dict, alloc. simpl.
  erewrite pad_loop_spec; [|simpl; reflexivity]. simpl.
  erewrite insertRecord_ok; [|exact Htb|done]. simpl.
  rewrite update_fresh, deref_app_l by done.
  reflexivity.
Qed.


(** ** Steps of the branches *)

Lemma join_iter_Step E n var lt s rt :
  Step E n s (join_iter E n var lt s rt)
       [mkRecord (length (heap s)) (clock E (ticks s)) 0]
       [S (length (heap s))].
Proof.
  split; simpl; try done.
  - by eexists.
  - lia.
  - constructor; [|done]. simpl. split.
    + rewrite length_app. simpl. lia.
    + exists (ticks s). split; [lia | done].
  - constructor; [|done]. rewrite length_app. simpl. lia.
Qed.

Lemma join_iter_views E n var lt s rt :
  deref (heap (join_iter E n var lt s rt)) (length (heap s)) = bound var lt rt /\
  deref (heap (join_iter E n var lt s rt)) (S (length (heap s))) = lt ∪ rt.
Proof.
  simpl. split.
  - apply deref_fresh.
  - replace (heap s ++ [bound var lt rt; lt ∪ rt])
      with ((heap s ++ [bound var lt rt]) ++ [lt ∪ rt])
      by by rewrite <- app_assoc.
    replace (S (length (heap s))) with (length (heap s ++ [bound var lt rt]))
      by (rewrite length_app; simpl; lia).
    apply deref_fresh.
Qed.

Lemma join_all_Step E n var lt rts :
  forall s, exists recs locs,
    let s' := foldl (join_iter E n var lt) s rts in
    Step E n s s' recs locs /\
    map (view s') recs = map (bound var lt) rts /\
    map (deref (heap s')) locs = map (fun rt => lt ∪ rt) rts /\
    calls s' = calls s /\ left s' = left s.
Proof.
  induction rts as [|rt rts IH]; intros s.
  - exists [], []. simpl. split; [apply Step_refl | done].
  - destruct (IH (join_iter E n var lt s rt))
      as (recs & locs & Hstep & Hrecs & Hlocs & Hcalls & Hleft).
    pose proof (join_iter_Step E n var lt s rt) as H1.
    pose proof (join_iter_views E n var lt s rt) as [Hv1 Hv2].
    eexists (_ :: recs), (_ :: locs). cbn zeta. simpl foldl.
    split; [exact (Step_trans _ _ _ _ _ _ _ _ _ H1 Hstep)|].
    split; [|split; [|done]].
    + simpl. f_equal; [|exact Hrecs]. unfold view. simpl.
      erewrite Step_deref; [exact Hv1 | exact Hstep |].
      simpl. rewrite length_app. simpl. lia.
    + simpl. f_equal; [|exact Hlocs].
      erewrite Step_deref; [exact Hv2 | exact Hstep |].
      simpl. rewrite length_app. simpl. lia.
Qed.

Lemma optional_state_Step E n ks lt s :
  Step E n s (optional_state E n ks lt s)
       [mkRecord (length (heap s)) (clock E (ticks s)) 0]
       [length (heap s)].
Proof.
  split; simpl; try done.
  - by eexists.
  - lia.
  - constructor; [|done]. simpl. split.
    + rewrite length_app. simpl. lia.
    + exists (ticks s). split; [lia | done].
  - constructor; [|done]. rewrite length_app. simpl. lia.
Qed.

Lemma optional_state_view E n ks lt s :
  deref (heap (optional_state E n ks lt s)) (length (heap s)) = lt ∪ padding ks.
Proof. simpl. apply deref_fresh. Qed.

(** ** Remote streams *)

(** The mappings a queue delivers before its first EOF, if it has one. *)
Fixpoint until_EOF (q : list msg) : option (list dict) :=
  match q with
  | [] => None
  | EOF :: _ => Some []
  | Tuple d :: q' => match until_EOF q' with
                     | Some ds => Some (d :: ds)
                     | None => None
                     end
  end.

Lemma until_EOF_Some q ds :
  until_EOF q = Some ds -> exists more, q = map Tuple ds ++ EOF :: more.
Proof.
  revert ds. induction q as [|[d|] q IH]; intros ds H; simpl in H.
  - discriminate.
  - destruct (until_EOF q) as [ds'|]; [|discriminate].
    injection H as <-. destruct (IH ds' eq_refl) as [more ->]. by exists more.
  - injection H as <-. by exists q.
Qed.

Lemma until_EOF_app ds more : until_EOF (map Tuple ds ++ EOF :: more) = Some ds.
Proof. induction ds as [|d ds IH]; simpl; [done | by rewrite IH]. Qed.

(** Every result stream of the source ends with EOF. *)
Definition EOF_terminated (right : RemoteSource) : Prop :=
  forall (n : nat) (vs inst : list string),
    is_Some (until_EOF (remote_execute right n vs inst)).

(** ** One left tuple *)

Definition index_of (E : Env) (var : list string) (k : nat) (d : dict) : nat :=
  Z.to_nat (hash E (key_of var d) mod Z.of_nat k).

Lemma index_of_lt E var k d : (0 < k)%nat -> (index_of E var k d < k)%nat.
Proof.
  intros Hk. unfold index_of.
  pose proof (Z.mod_pos_bound (hash E (key_of var d)) (Z.of_nat k)). lia.
Qed.

(** The operator once the record of the left tuple is in the left table. *)
Definition inserted (E : Env) (n : nat) (tp : loc) (s : t) : t :=
  mkT (heap s)
      (append_at n [mkRecord tp (clock E (ticks s)) 0] (left_table s))
      (right_table s) (results s) (vars s) (left s) (S (ticks s)) (calls s).

(** What the source answers to the next call, for the left mapping [lt]. *)
Definition answer (right : RemoteSource) (var : list string) (lt : dict)
    (s : t) : list dict :=
  default [] (until_EOF (remote_execute right (length (calls s)) var
                                        (instances_of var lt))).

(** The operator after the source has been contacted. *)
Definition contacted (E : Env) (right : RemoteSource) (n : nat)
    (var : list string) (lt : dict) (s : t) : t :=
  let s1 := set_calls (calls s ++ [(var, instances_of var lt)]) s in
  match answer right var lt s with
  | [] => optional_state E n (atts right) lt s1
  | rts => foldl (join_iter E n var lt) s1 rts
  end.

(** The operator after [insertAndProbe]. *)
Definition probed (E : Env) (right : RemoteSource) (k : nat)
    (var : list string) (tp : loc) (s : t) : t :=
  let lt := deref (heap s) tp in
  let n := index_of E var k lt in
  let record := mkRecord tp (clock E (ticks s)) 0 in
  let ms := matching var (heap s) record (part (right_table s) n) in
  let s0 := inserted E n tp s in
  if nonempty ms
  then emit (map (fun r => view s r ∪ lt) ms) s0
  else contacted E right n var lt s0.

Lemma insertAndProbe_spec (E : Env) (right : RemoteSource) (k : nat)
    (var : list string) (tp : loc) (s : t) :
  (0 < k)%nat -> var <> [] -> vars s = var ->
  table_ok k (left_table s) -> table_ok k (right_table s) ->
  (tp < length (heap s))%nat -> binds var (deref (heap s) tp) ->
  Forall (in_heap (heap s) var)
         (part (right_table s) (index_of E var k (deref (heap s) tp))) ->
  EOF_terminated right ->
  insertAndProbe E right tp s = Ok (probed E right k var tp s).
Proof.
  intros Hk Hvar Hvars Hleft Hright Htp Hb Hrs Hsrc. subst var.
  unfold insertAndProbe.
  rewrite key_loop_spec by done.
  fold (key_of (vars s) (deref (heap s) tp)). simpl.
  unfold partition_index. destruct Hleft as [Hsz Hlen].
  rewrite Hsz.
  assert (Hz : (Z.of_nat k =? 0) = false) by (apply Z.eqb_neq; lia).
  rewrite Hz. simpl.
  unfold probed.
  set (lt := deref (heap s) tp) in *.
  set (n := index_of E (vars s) k lt) in *.
  set (i := hash E (key_of (vars s) lt) mod Z.of_nat k).
  assert (Hi : 0 <= i < Z.of_nat k) by (apply Z.mod_pos_bound; lia).
  erewrite insertRecord_ok; [|split; eassumption|done]. simpl.
  destruct (get_partition_ok k (right_table s) i Hright Hi) as (p & Hp & Hrec).
  unfold set_left_table. simpl. rewrite Hp. simpl.
  unfold probe. simpl. rewrite Hrec. simpl.
  change (Z.to_nat i) with n in *.
  set (record := mkRecord tp (clock E (ticks s)) 0).
  fold (inserted E n tp s).
  rewrite (scan_spec (vars s) record) by done.
  simpl.
  change (view (inserted E n tp s)) with (view s).
  change (view s record) with lt.
  set (ms := matching (vars s) (heap s) record (part (right_table s) n)).
  assert (Hlen0 : (Z.of_nat (length (part (right_table s) n)) =? 0) = true ->
                  ms = []).
  { intros H0%Z.eqb_eq. unfold ms, matching.
    destruct (part (right_table s) n); [done | simpl in H0; lia]. }
  destruct ms as [|m ms'] eqn:Ems.
  - simpl. rewrite ?orb_true_r, ?emit_nil, ?app_nil_r. fold lt.
    rewrite instances_loop_spec by done. simpl.
    fold (inserted E n tp s).
    unfold contacted, answer. simpl.
    destruct (Hsrc (length (calls s)) (vars s) (instances_of (vars s) lt))
      as [rts Hrts].
    rewrite Hrts. simpl.
    destruct (until_EOF_Some _ _ Hrts) as [more ->].
    destruct rts as [|rt rts]; simpl.
    + erewrite optional_branch_spec; [reflexivity|exact Hi|exact Hright|exact Htp].
    + erewrite (join_branch_spec E k record i (vars s) lt);
        [reflexivity|exact Hi|exact Hb|exact Hright|exact Htp|reflexivity].
  - simpl.
    destruct (Z.of_nat (length (part (right_table s) n)) =? 0) eqn:E0;
      [by specialize (Hlen0 eq_refl)|]. simpl. done.
Qed.


(** ** Well-formed operators and what a step does to the views *)

(** The mappings of partition [n] of the right table, and the mappings in
    the result list. *)
Definition rviews (s : t) (n : nat) : list dict :=
  map (view s) (part (right_table s) n).

Definition oviews (s : t) : list dict := map (deref (heap s)) (results s).

Record WF (E : Env) (k : nat) (var : list string) (s : t) : Prop := mkWF {
  wf_k : (0 < k)%nat;
  wf_var : var <> [];
  wf_vars : vars s = var;
  wf_left : table_ok k (left_table s);
  wf_right : table_ok k (right_table s);
  wf_recs : forall n r, r ∈ part (right_table s) n ->
            in_heap (heap s) var r /\ index_of E var k (view s r) = n;
  wf_results : Forall (fun l => (l < length (heap s))%nat) (results s)
}.

(** Every record of the right table was stamped by an earlier reading of
    the clock. *)
Definition Clocked (E : Env) (s : t) : Prop :=
  forall n r, r ∈ part (right_table s) n ->
    exists m, (m < ticks s)%nat /\ ats r = clock E m.

Lemma Step_part E n s s' recs locs m :
  Step E n s s' recs locs ->
  (n < length (partitions (right_table s)))%nat ->
  part (right_table s') m =
  if decide (m = n) then part (right_table s) n ++ recs
  else part (right_table s) m.
Proof.
  intros H Hn. rewrite (step_right_table _ _ _ _ _ _ H).
  destruct (decide (m = n)) as [->|Hne].
  - by apply part_append_at_eq.
  - by apply part_append_at_ne.
Qed.

Lemma Step_WF E k var n s s' recs locs :
  WF E k var s -> Step E n s s' recs locs -> (n < k)%nat ->
  Forall (fun r => binds var (view s' r) /\ index_of E var k (view s' r) = n)
         recs ->
  WF E k var s'.
Proof.
  intros [Hk Hvar Hvars [Hls Hll] [Hrs Hrl] Hrecs Hres] H Hn Hnew.
  pose proof (Step_heap_length _ _ _ _ _ _ H) as Hlen.
  split; try done.
  - by rewrite (step_vars _ _ _ _ _ _ H).
  - destruct (step_left_table _ _ _ _ _ _ H) as [H1 H2]. split; congruence.
  - rewrite (step_right_table _ _ _ _ _ _ H). by apply table_ok_append_at.
  - intros m r. rewrite (Step_part _ _ _ _ _ _ m H) by lia.
    destruct (decide (m = n)) as [->|Hne].
    + intros [Hold|Hin]%elem_of_app.
      * destruct (Hrecs n r Hold) as [[Hb1 Hb2] Hidx].
        unfold in_heap, view in *.
        rewrite (Step_deref _ _ _ _ _ _ _ H) by done.
        split; [split; [lia | done] | done].
      * rewrite Forall_forall in Hnew. destruct (Hnew r Hin) as [Hb Hidx].
        pose proof (step_recs _ _ _ _ _ _ H) as Hsr.
        rewrite Forall_forall in Hsr. destruct (Hsr r Hin) as [Hlt _].
        split; [split; done | done].
    + intros Hold. destruct (Hrecs m r Hold) as [[Hb1 Hb2] Hidx].
      unfold in_heap, view in *.
      rewrite (Step_deref _ _ _ _ _ _ _ H) by done.
      split; [split; [lia | done] | done].
  - rewrite (step_results _ _ _ _ _ _ H). apply Forall_app. split.
    + eapply Forall_impl; [exact Hres|]. simpl. intros; lia.
    + exact (step_locs _ _ _ _ _ _ H).
Qed.

Lemma Step_rviews E k var n s s' recs locs m :
  WF E k var s -> Step E n s s' recs locs -> (n < k)%nat ->
  rviews s' m =
  if decide (m = n) then rviews s n ++ map (view s') recs else rviews s m.
Proof.
  intros Hwf H Hn. unfold rviews.
  rewrite (Step_part _ _ _ _ _ _ m H)
    by (destruct (wf_right _ _ _ _ Hwf) as [_ ->]; lia).
  assert (Hold : forall j, map (view s') (part (right_table s) j)
                           = map (view s) (part (right_table s) j)).
  { intros j. apply map_ext_in. intros r Hr%list_elem_of_In.
    destruct (wf_recs _ _ _ _ Hwf j r Hr) as [[Hb _] _].
    unfold view. by rewrite (Step_deref _ _ _ _ _ _ _ H). }
  destruct (decide (m = n)); [|done]. by rewrite map_app, Hold.
Qed.

Lemma Step_oviews E k var n s s' recs locs :
  WF E k var s -> Step E n s s' recs locs ->
  oviews s' = oviews s ++ map (deref (heap s')) locs.
Proof.
  intros Hwf H. unfold oviews. rewrite (step_results _ _ _ _ _ _ H), map_app.
  f_equal. apply map_ext_in. intros l Hl%list_elem_of_In.
  pose proof (wf_results _ _ _ _ Hwf) as Hres. rewrite Forall_forall in Hres.
  by rewrite (Step_deref _ _ _ _ _ _ _ H) by auto.
Qed.

Lemma Step_Clocked E k var n s s' recs locs :
  WF E k var s -> Step E n s s' recs locs -> (n < k)%nat ->
  Clocked E s -> Clocked E s'.
Proof.
  intros Hwf H Hn Hc m r. rewrite (Step_part _ _ _ _ _ _ m H)
    by (destruct (wf_right _ _ _ _ Hwf) as [_ ->]; lia).
  pose proof (step_ticks _ _ _ _ _ _ H) as Ht.
  assert (Hold : forall j, r ∈ part (right_table s) j ->
                 exists m0, (m0 < ticks s')%nat /\ ats r = clock E m0).
  { intros j Hr. destruct (Hc j r Hr) as (m0 & Hm0 & Ha). exists m0.
    split; [lia | done]. }
  destruct (decide (m = n)); [|by apply Hold].
  intros [Hr|Hr]%elem_of_app; [by eapply Hold|].
  pose proof (step_recs _ _ _ _ _ _ H) as Hsr.
  rewrite Forall_forall in Hsr. destruct (Hsr r Hr) as [_ (m0 & Hm0 & Ha)].
  exists m0. split; [lia | done].
Qed.

Lemma inserted_Step E n tp s : Step E n s (inserted E n tp s) [] [].
Proof.
  split; simpl; try done.
  - exists []. by rewrite app_nil_r.
  - split; [done | by rewrite length_alter].
  - by rewrite append_at_nil.
  - by rewrite app_nil_r.
  - lia.
Qed.

Lemma set_calls_Step E n c s : Step E n s (set_calls c s) [] [].
Proof.
  split; simpl; try done.
  - exists []. by rewrite app_nil_r.
  - by rewrite append_at_nil.
  - by rewrite app_nil_r.
Qed.

(** The mappings cached by a call of the source for the left mapping [lt]. *)
Definition cached (right : RemoteSource) (var : list string) (lt : dict)
    (rts : list dict) : list dict :=
  match rts with
  | [] => [lt ∪ padding (atts right)]
  | _ => map (bound var lt) rts
  end.

Lemma matches_union_l var lt d :
  binds var lt -> matches var lt (lt ∪ d) = true.
Proof.
  intros Hb. apply matches_spec. intros v Hv.
  unfold binds in Hb. rewrite Forall_forall in Hb.
  destruct (Hb v Hv) as [x Hx]. rewrite Hx. symmetry.
  by apply lookup_union_Some_l.
Qed.

Lemma cached_matches right var lt rts :
  binds var lt ->
  Forall (fun r => matches var lt r = true) (cached right var lt rts).
Proof.
  intros Hb. destruct rts as [|rt rts].
  - constructor; [|done]. by apply matches_union_l.
  - unfold cached. apply Forall_forall. intros r (rt' & -> & _)%list_elem_of_fmap.
    by apply bound_matches.
Qed.

Lemma cached_nonempty right var lt rts : cached right var lt rts <> [].
Proof. by destruct rts. Qed.

Lemma contacted_Step E right n var lt s :
  binds var lt ->
  let s' := contacted E right n var lt s in
  exists recs locs,
    Step E n s s' recs locs /\
    map (view s') recs = cached right var lt (answer right var lt s) /\
    map (deref (heap s')) locs
      = map (fun r => lt ∪ r) (cached right var lt (answer right var lt s)) /\
    calls s' = calls s ++ [(var, instances_of var lt)] /\
    left s' = left s.
Proof.
  intros Hb. unfold contacted. cbn zeta.
  set (s1 := set_calls (calls s ++ [(var, instances_of var lt)]) s).
  pose proof (set_calls_Step E n (calls s ++ [(var, instances_of var lt)]) s)
    as H0. fold s1 in H0.
  change (answer right var lt s) with (answer right var lt s).
  destruct (answer right var lt s) as [|rt rts] eqn:Ea.
  - pose proof (optional_state_Step E n (atts right) lt s1) as H1.
    pose proof (optional_state_view E n (atts right) lt s1) as Hv.
    eexists _, _. split; [exact (Step_trans _ _ _ _ _ _ _ _ _ H0 H1)|].
    simpl app. unfold view. cbn [map tuple cached].
    change (length (heap s)) with (length (heap s1)).
    rewrite Hv. split; [done|]. split; [|done].
    f_equal. by rewrite (assoc_L (∪)), (idemp_L (∪)).
  - destruct (join_all_Step E n var lt (rt :: rts) s1)
      as (recs & locs & H1 & Hr & Hl & Hc & Hleft).
    exists recs, locs. split; [exact (Step_trans _ _ _ _ _ _ _ _ _ H0 H1)|].
    split; [exact Hr|]. split; [|split; [exact Hc | exact Hleft]].
    rewrite Hl. unfold cached. rewrite map_map.
    apply map_ext. intros rt'. by rewrite union_bound.
Qed.


Lemma index_of_matches E var k l r :
  matches var l r = true -> index_of E var k l = index_of E var k r.
Proof. intros H. unfold index_of. by rewrite (matches_key _ _ _ H). Qed.

(** What [insertAndProbe] does, in terms of the views: either the scan
    finds matches, emits one mapping for each and leaves the right table
    alone, or it finds none, calls the source once, caches what the call
    yields and emits one mapping for each cached one. *)
Lemma probed_effect (E : Env) (right : RemoteSource) (k : nat)
    (var : list string) (tp : loc) (s : t) :
  WF E k var s -> (tp < length (heap s))%nat ->
  binds var (deref (heap s) tp) ->
  let lt := deref (heap s) tp in
  let n := index_of E var k lt in
  let record := mkRecord tp (clock E (ticks s)) 0 in
  let ms := matching var (heap s) record (part (right_table s) n) in
  let s' := probed E right k var tp s in
  WF E k var s' /\
  (Clocked E s -> Clocked E s') /\
  (exists ext, heap s' = heap s ++ ext) /\
  left s' = left s /\
  (forall m, m <> n -> rviews s' m = rviews s m) /\
  ((ms <> [] /\ rviews s' n = rviews s n /\
    oviews s' = oviews s ++ map (fun r => view s r ∪ lt) ms /\
    calls s' = calls s)
   \/
   (ms = [] /\
    let news := cached right var lt (answer right var lt s) in
    rviews s' n = rviews s n ++ news /\
    oviews s' = oviews s ++ map (fun r => lt ∪ r) news /\
    calls s' = calls s ++ [(var, instances_of var lt)])).
Proof.
  intros Hwf Htp Hb lt n record ms s'.
  assert (Hn : (n < k)%nat) by (apply index_of_lt; exact (wf_k _ _ _ _ Hwf)).
  pose proof (inserted_Step E n tp s) as H0.
  assert (Hgen : forall recs locs, Step E n s s' recs locs ->
    Forall (fun r => matches var lt r = true) (map (view s') recs) ->
    WF E k var s' /\ (Clocked E s -> Clocked E s') /\
    (exists ext, heap s' = heap s ++ ext) /\
    (forall m, m <> n -> rviews s' m = rviews s m) /\
    rviews s' n = rviews s n ++ map (view s') recs /\
    oviews s' = oviews s ++ map (deref (heap s')) locs).
  { intros recs locs Hstep Hm.
    split; [|split; [|split; [|split; [|split]]]].
    - eapply Step_WF; [exact Hwf | exact Hstep | exact Hn |].
      rewrite Forall_fmap in Hm. eapply Forall_impl; [exact Hm|]. simpl.
      intros r Hr. split; [by eapply matches_binds|].
      symmetry. by apply index_of_matches.
    - by eapply Step_Clocked.
    - exact (step_heap _ _ _ _ _ _ Hstep).
    - intros m Hne. rewrite (Step_rviews _ _ _ _ _ _ _ _ m Hwf Hstep Hn).
      by rewrite decide_False.
    - rewrite (Step_rviews _ _ _ _ _ _ _ _ n Hwf Hstep Hn).
      by rewrite decide_True.
    - by eapply Step_oviews. }
  assert (Es' : s' = if nonempty ms
                     then emit (map (fun r => view s r ∪ lt) ms) (inserted E n tp s)
                     else contacted E right n var lt (inserted E n tp s))
    by reflexivity.
  clearbody s'.
  destruct ms as [|m0 ms0] eqn:Ems; simpl in Es'; subst s'.
  - destruct (contacted_Step E right n var lt (inserted E n tp s) Hb)
      as (recs & locs & Hstep & Hr & Hl & Hc & Hleft).
    pose proof (Step_trans _ _ _ _ _ _ _ _ _ H0 Hstep) as Hs. simpl in Hs.
    change (answer right var lt (inserted E n tp s))
      with (answer right var lt s) in *.
    destruct (Hgen recs locs) as (G1 & G2 & G3 & G4 & G5 & G6).
    { exact Hs. }
    { rewrite Hr. by apply cached_matches. }
    split; [exact G1|]. split; [exact G2|]. split; [exact G3|].
    split; [exact Hleft|]. split; [exact G4|]. right.
    split; [done|]. cbn zeta.
    rewrite G5, G6, Hr, Hl. done.
  - set (ds := map (fun r => view s r ∪ lt) (m0 :: ms0)).
    pose proof (emit_Step E n ds (inserted E n tp s)) as Hstep.
    pose proof (Step_trans _ _ _ _ _ _ _ _ _ H0 Hstep) as Hs. simpl in Hs.
    destruct (Hgen [] _ Hs) as (G1 & G2 & G3 & G4 & G5 & G6); [done|].
    split; [exact G1|]. split; [exact G2|]. split; [exact G3|].
    split; [done|]. split; [exact G4|]. left.
    split; [done|]. split; [by rewrite G5, app_nil_r|]. split; [|done].
    rewrite G6. f_equal. apply (deref_seq (heap s) ds).
Qed.


(** ** Runs of [execute] *)

Lemma WF_set_left E k var c s : WF E k var s -> WF E k var (set_left c s).
Proof. intros [? ? ? ? ? ? ?]. by split. Qed.

Lemma read_left_spec (ls : list dict) (rest : list msg) :
  forall s,
  read_left (map Tuple ls ++ EOF :: rest) s =
  Ok (rest,
      set_left (left s ++ map Tuple (seq (length (heap s)) (length ls)) ++ [EOF])
               (set_heap (heap s ++ ls) s)).
Proof.
  induction ls as [|d ls IH]; intros s.
  - simpl. by rewrite app_nil_r.
  - simpl. unfold new_dict, alloc. rewrite IH. simpl.
    rewrite length_app. simpl. rewrite <- !app_assoc. simpl.
    by replace (length (heap s) + 1)%nat with (S (length (heap s))) by lia.
Qed.

Lemma probe_all_cons E right tp l' s :
  l' <> [] ->
  probe_all E right (Tuple tp :: l') s =
  (let! s1 := insertAndProbe E right tp (set_left l' s) in
   probe_all E right l' s1).
Proof. by destruct l'. Qed.

(** The operator once the left input [ls] has been read. *)
Definition loaded (k : nat) (var : list string) (ls : list dict) : t :=
  mkT ls (Table_new k) (Table_new k) [] var
      (map Tuple (seq 0 (length ls)) ++ [EOF]) 0 [].

Lemma part_Table_new k n : part (Table_new k) n = [].
Proof.
  unfold part, Table_new. simpl.
  destruct (replicate k (mkPartition []) !! n) as [p|] eqn:Hp; [|done].
  by apply lookup_replicate in Hp as [-> _].
Qed.

Lemma loaded_WF E k var ls :
  (0 < k)%nat -> var <> [] -> WF E k var (loaded k var ls).
Proof.
  intros Hk Hvar. split; try done.
  - split; simpl; [done | by rewrite length_replicate].
  - split; simpl; [done | by rewrite length_replicate].
  - intros n r. simpl. rewrite part_Table_new. by intros ?%not_elem_of_nil.
Qed.

Lemma loaded_Clocked E k var ls : Clocked E (loaded k var ls).
Proof. intros n r. simpl. rewrite part_Table_new. by intros ?%not_elem_of_nil. Qed.

Section Run.
Context (E : Env) (right : RemoteSource) (k : nat) (var : list string).
Context (Hsrc : EOF_terminated right).

(** An invariant [I done s] of the operator [s] and of the left mappings
    [done] probed so far is carried through [probe_all]. *)
Lemma probe_all_run (I : list dict -> t -> Prop) :
  (forall done s c, I done s -> I done (set_left c s)) ->
  (forall done s tp,
     WF E k var s -> I done s -> (tp < length (heap s))%nat ->
     binds var (deref (heap s) tp) ->
     I (done ++ [deref (heap s) tp]) (probed E right k var tp s)) ->
  forall tps s done,
    WF E k var s -> I done s ->
    Forall (fun tp => (tp < length (heap s))%nat /\ binds var (deref (heap s) tp))
           tps ->
    exists s',
      probe_all E right (map Tuple tps ++ [EOF]) s = Ok s' /\
      WF E k var s' /\ I (done ++ map (deref (heap s)) tps) s'.
Proof.
  intros Hleft Hstep. induction tps as [|tp tps IH]; intros s done Hwf HI Htps.
  - exists (set_left [EOF] s). simpl. rewrite app_nil_r.
    split; [done|]. split; [by apply WF_set_left | by apply Hleft].
  - apply Forall_cons in Htps as [[Htp Hb] Htps].
    cbn [map app]. rewrite probe_all_cons by (by destruct tps).
    set (l' := map Tuple tps ++ [EOF]).
    pose proof (WF_set_left _ _ _ l' _ Hwf) as Hwf1.
    rewrite (insertAndProbe_spec E right k var tp (set_left l' s)); cycle 1.
    { exact (wf_k _ _ _ _ Hwf). } { exact (wf_var _ _ _ _ Hwf). }
    { exact (wf_vars _ _ _ _ Hwf1). } { exact (wf_left _ _ _ _ Hwf1). }
    { exact (wf_right _ _ _ _ Hwf1). } { exact Htp. } { exact Hb. }
    { apply Forall_forall. intros r Hr.
      by destruct (wf_recs _ _ _ _ Hwf1 _ r Hr). }
    { exact Hsrc. }
    simpl bind.
    destruct (probed_effect E right k var tp (set_left l' s) Hwf1 Htp Hb)
      as (Hwf2 & _ & [ext Hext] & _).
    pose proof (Hstep done (set_left l' s) tp Hwf1 (Hleft _ _ _ HI) Htp Hb) as HI2.
    set (s1 := probed E right k var tp (set_left l' s)) in *.
    change (heap (set_left l' s)) with (heap s) in *.
    destruct (IH s1 (done ++ [deref (heap s) tp]) Hwf2 HI2) as (s' & Hrun & Hwf' & HI').
    { eapply Forall_impl; [exact Htps|]. simpl. intros l [Hl Hbl].
      rewrite Hext, length_app, deref_app_l by done. split; [lia | done]. }
    exists s'. split; [exact Hrun|]. split; [exact Hwf'|].
    rewrite <- app_assoc in HI'. simpl in HI'.
    replace (map (deref (heap s)) tps) with (map (deref (heap s1)) tps); [done|].
    apply map_ext_in. intros l Hl%list_elem_of_In.
    rewrite Forall_forall in Htps. destruct (Htps l Hl) as [Hlt _].
    by rewrite Hext, deref_app_l.
Qed.

Lemma execute_run (I : list dict -> t -> Prop) (ls : list dict) (rest : list msg) :
  (0 < k)%nat -> var <> [] -> Forall (binds var) ls ->
  (forall done s c, I done s -> I done (set_left c s)) ->
  (forall done s tp,
     WF E k var s -> I done s -> (tp < length (heap s))%nat ->
     binds var (deref (heap s) tp) ->
     I (done ++ [deref (heap s) tp]) (probed E right k var tp s)) ->
  I [] (loaded k var ls) ->
  exists s',
    execute E (init k var) (map Tuple ls ++ EOF :: rest) right
      = Ok (map Tuple (oviews s') ++ [EOF], set_results [] s') /\
    WF E k var s' /\ I ls s'.
Proof.
  intros Hk Hvar Hls Hleft Hstep Hinit.
  unfold execute. rewrite read_left_spec. simpl bind.
  change (set_left _ (set_heap _ (set_left [] (init k var))))
    with (loaded k var ls).
  assert (Hd : map (deref (heap (loaded k var ls))) (seq 0 (length ls)) = ls)
    by apply (deref_seq [] ls).
  destruct (probe_all_run I Hleft Hstep (seq 0 (length ls)) (loaded k var ls) [])
    as (s' & Hrun & Hwf & HI).
  { by apply loaded_WF. }
  { exact Hinit. }
  { apply Forall_forall. intros tp Htp%elem_of_seq. simpl. split; [lia|].
    rewrite Forall_forall in Hls. apply Hls.
    apply list_elem_of_lookup. exists tp. unfold deref.
    apply list_lookup_lookup_total_lt. lia. }
  change (left (loaded k var ls)) with (map Tuple (seq 0 (length ls)) ++ [EOF]).
  rewrite Hrun. simpl bind. unfold flush. simpl.
  exists s'. rewrite Hd in HI. split; [|done].
  unfold oviews. by rewrite map_map.
Qed.

End Run.


(** ** Preservation of the left input *)

(** What is emitted for the left mapping [lt] when the source answers
    [rts]: the left mapping padded, or one mapping for each answer. *)
Definition emitted (right : RemoteSource) (lt : dict) (rts : list dict)
  : list dict :=
  match rts with
  | [] => [lt ∪ padding (atts right)]
  | _ => map (fun rt => lt ∪ rt) rts
  end.

Lemma emitted_cached right var lt rts :
  binds var lt ->
  map (fun r => lt ∪ r) (cached right var lt rts) = emitted right lt rts.
Proof.
  intros Hb. destruct rts as [|rt rts].
  - simpl. by rewrite (assoc_L (∪)), (idemp_L (∪)).
  - unfold cached, emitted. rewrite map_map. apply map_ext.
    intros rt'. by apply union_bound.
Qed.

Lemma probed_emits E right k var tp s :
  WF E k var s -> (tp < length (heap s))%nat ->
  binds var (deref (heap s) tp) ->
  (length (results s) < length (results (probed E right k var tp s)))%nat.
Proof.
  intros Hwf Htp Hb.
  destruct (probed_effect E right k var tp s Hwf Htp Hb)
    as (_ & _ & _ & _ & _ & Hcase).
  assert (Hlen : forall x, length (oviews x) = length (results x))
    by (intros x; apply length_map).
  rewrite <- !Hlen.
  destruct Hcase as [(Hms & _ & Ho & _)|(_ & _ & Ho & _)]; rewrite Ho, length_app, length_map.
  - destruct (matching _ _ _ _); [done | simpl; lia].
  - pose proof (cached_nonempty right var (deref (heap s) tp)
                  (answer right var (deref (heap s) tp) s)).
    destruct (cached _ _ _ _); [done | simpl; lia].
Qed.


Lemma single_run E right k var (l : dict) (rest : list msg) :
  (0 < k)%nat -> var <> [] -> EOF_terminated right -> binds var l ->
  exists s',
    execute E (init k var) (Tuple l :: EOF :: rest) right
    = Ok (map Tuple (emitted right l (answer right var l (init k var))) ++ [EOF],
          s') /\
    calls s' = [(var, instances_of var l)].
Proof.
  intros Hk Hvar Hsrc Hb.
  change (Tuple l :: EOF :: rest) with (map Tuple [l] ++ EOF :: rest).
  unfold execute. rewrite read_left_spec. simpl bind.
  change (set_left _ (set_heap _ (set_left [] (init k var))))
    with (loaded k var [l]).
  change (left (loaded k var [l])) with [Tuple 0%nat; @EOF loc].
  cbn [probe_all].
  match goal with
  | |- context [insertAndProbe E right 0%nat ?x] => set (s0 := x)
  end.
  assert (Hwf : WF E k var s0)
    by (apply WF_set_left; by apply loaded_WF).
  assert (Htp : (0 < length (heap s0))%nat) by (simpl; lia).
  rewrite (insertAndProbe_spec E right k var 0%nat s0); cycle 1.
  { exact Hk. } { exact Hvar. } { done. } { exact (wf_left _ _ _ _ Hwf). }
  { exact (wf_right _ _ _ _ Hwf). } { exact Htp. } { exact Hb. }
  { simpl. by rewrite part_Table_new. }
  { exact Hsrc. }
  cbn [bind].
  destruct (probed_effect E right k var 0%nat s0 Hwf Htp Hb)
    as (_ & _ & _ & _ & _ & Hcase).
  destruct Hcase as [(Hms & _)|(_ & _ & Ho & Hc)].
  { exfalso. apply Hms. unfold matching. simpl. by rewrite part_Table_new. }
  set (s1 := probed E right k var 0%nat s0) in *.
  exists (set_results [] (set_left [EOF] s1)). split; [|exact Hc].
  unfold flush. cbn [bind]. f_equal. f_equal.
  change (deref (heap s0) 0%nat) with l in Ho.
  rewrite (emitted_cached right var l _ Hb) in Ho.
  change (answer right var l s0) with (answer right var l (init k var)) in Ho.
  change (oviews s0) with (@nil dict) in Ho. simpl in Ho.
  rewrite <- Ho. unfold oviews. simpl. by rewrite map_map.
Qed.

(** X29. With at least one join variable, on tables of [k > 0]
    partitions, for a left input of mappings that bind the join variables,
    followed by EOF, and a source whose result streams all end with EOF,
    [execute] returns, and writes at least as many mappings as it read
    before the final EOF.  On a single left mapping, whose partition is
    empty, the source is called once and the output is one mapping for
    each mapping the source answers, or the left mapping padded with the
    empty string for every attribute of the source if it answers none. *)
Theorem execute_preserves_left_input
    (E : Env) (right : RemoteSource) (k : nat) (var : list string)
    (ls : list dict) (rest : list msg) :
  (0 < k)%nat -> var <> [] -> EOF_terminated right -> Forall (binds var) ls ->
  (exists outs s',
     execute E (init k var) (map Tuple ls ++ EOF :: rest) right
       = Ok (map Tuple outs ++ [EOF], s') /\
     (length ls <= length outs)%nat) /\
  (forall l, binds var l ->
     exists s',
       execute E (init k var) (Tuple l :: EOF :: rest) right
       = Ok (map Tuple (emitted right l (answer right var l (init k var)))
               ++ [EOF], s') /\
       calls s' = [(var, instances_of var l)]).
Proof.
  intros Hk Hvar Hsrc Hls. split.
  - destruct (execute_run E right k var Hsrc
                (fun done s => (length done <= length (results s))%nat)
                ls rest Hk Hvar Hls) as (s' & Hrun & _ & HI).
    + done.
    + intros done s tp Hwf HI Htp Hb.
      pose proof (probed_emits E right k var tp s Hwf Htp Hb).
      rewrite length_app. simpl. lia.
    + simpl. lia.
    + exists (oviews s'), (set_results [] s'). split; [exact Hrun|].
      unfold oviews. by rewrite length_map.
  - intros l Hl. by apply single_run.
Qed.

(** A clock that ticks, a hash, and a source that knows about ["a"]. *)
Definition ticking : Env :=
  mkEnv (fun key => Z.of_nat (String.length key)) (fun n => Z.of_nat n).

Definition source_a : RemoteSource :=
  mkRemote ["z"]
    (fun _ _ inst =>
       if bool_decide (inst = ["a"])
       then [Tuple {[ "x" := "a"; "z" := "Z" ]}; EOF]
       else [EOF]).

Lemma source_a_terminated : EOF_terminated source_a.
Proof. intros n vs inst. simpl. case_bool_decide; by eexists. Qed.

Definition left_a : list dict :=
  [ {[ "x" := "a"; "y" := "1" ]}; {[ "x" := "a"; "y" := "2" ]} ].

Lemma left_a_binds : Forall (binds ["x"]) left_a.
Proof. repeat constructor; by eexists. Qed.

Lemma execute_preserves_left_input_witness :
  exists outs s',
    execute ticking (init 4 ["x"]) (map Tuple left_a ++ [EOF]) source_a
      = Ok (map Tuple outs ++ [EOF], s') /\
    (length left_a <= length outs)%nat.
Proof.
  refine (proj1 (execute_preserves_left_input ticking source_a 4 ["x"]
                   left_a [] _ _ source_a_terminated left_a_binds));
    [lia | discriminate].
Defined.


(** Without a join variable the second left mapping finds the local
    variable [join] unbound. *)
Example no_join_variable_raises :
  execute ticking (init 4 []) (map Tuple left_a ++ [EOF]) source_a
  = Raise UnboundLocalError.
Proof. vm_compute. reflexivity. Qed.

(** C1. At least one output mapping for every left mapping is stated for
    every execution on a left input that ends with EOF and a source whose
    streams end with EOF.  When the two sides share no variable there is
    no join variable, and on the left input [{x:a, y:1}, {x:a, y:2}], EOF
    [execute] raises [UnboundLocalError] and puts nothing on the output
    queue: the second mapping finds the record cached for the first in
    its partition, and [probe] reads [join], which only the loop over the
    join variables assigns.  The first mapping alone is answered, padded;
    with the join variable [x] the same input gives two mappings. *)
Theorem execute_without_join_variable_loses_left_input :
  execute ticking (init 4 []) (map Tuple left_a ++ [EOF]) source_a
    = Raise UnboundLocalError /\
  (exists s',
     execute ticking (init 4 []) (map Tuple (take 1 left_a) ++ [EOF]) source_a
     = Ok ([Tuple {[ "x" := "a"; "y" := "1"; "z" := "" ]}; EOF], s')) /\
  (exists s',
     execute ticking (init 4 ["x"]) (map Tuple left_a ++ [EOF]) source_a
     = Ok ([Tuple {[ "x" := "a"; "y" := "1"; "z" := "Z" ]};
            Tuple {[ "x" := "a"; "y" := "2"; "z" := "Z" ]}; EOF], s')).
Proof.
  split; [by vm_compute|]. split; eexists; vm_compute; reflexivity.
Qed.

(** ** Duplicates and monotone clocks *)

Lemma isDuplicated_spec (record1 record2 : Record_) :
  isDuplicated record1 record2 = true <-> ats record1 < ats record2.
Proof.
  unfold isDuplicated. rewrite negb_true_iff, Z.geb_leb, Z.leb_gt. done.
Qed.

Lemma scan_stops_on_duplicate record var r rs join anyjoin s :
  isDuplicated record r = true ->
  scan record var (r :: rs) join anyjoin s = Ok (anyjoin, s).
Proof. intros H. simpl. by rewrite H. Qed.

(** The clock never goes back. *)
Definition monotone (E : Env) : Prop :=
  forall m n : nat, (m <= n)%nat -> clock E m <= clock E n.

Lemma live_all record rs :
  Forall (fun r => ats r <= ats record) rs -> live record rs = rs.
Proof.
  induction 1 as [|r rs Hr _ IH]; [done|]. simpl.
  destruct (isDuplicated record r) eqn:Ed.
  - apply isDuplicated_spec in Ed. lia.
  - by rewrite IH.
Qed.

Lemma map_filter_view (h : list dict) (var : list string) (lt : dict)
    (rs : list Record_) :
  map (fun r => deref h (tuple r))
      (filter (fun r => matches var lt (deref h (tuple r)) = true) rs)
  = filter (fun d => matches var lt d = true)
           (map (fun r => deref h (tuple r)) rs).
Proof.
  induction rs as [|r rs IH]; [done|]. simpl.
  destruct (matches var lt (deref h (tuple r))) eqn:Hp.
  - rewrite !filter_cons_True by done. simpl. by rewrite IH.
  - rewrite !filter_cons_False by (by rewrite Hp). done.
Qed.

(** The cached mappings that join with the left mapping [l]: as [l] is
    hashed on its join values, they all sit in the partition of [l]. *)
Definition hits (E : Env) (var : list string) (k : nat) (s : t) (l : dict)
  : list dict :=
  filter (fun r => matches var l r = true) (rviews s (index_of E var k l)).

Lemma matching_hits E k var tp s :
  WF E k var s -> Clocked E s -> monotone E ->
  let lt := deref (heap s) tp in
  let record := mkRecord tp (clock E (ticks s)) 0 in
  map (view s) (matching var (heap s) record
                         (part (right_table s) (index_of E var k lt)))
  = hits E var k s lt.
Proof.
  intros Hwf Hc Hmono lt record. unfold matching, hits, rviews.
  rewrite live_all.
  - unfold view. change (deref (heap s) (tuple record)) with lt.
    apply map_filter_view.
  - apply Forall_forall. intros r Hr.
    destruct (Hc _ r Hr) as (m & Hm & ->). simpl. apply Hmono. lia.
Qed.

(** [insertAndProbe] under a monotone clock. *)
Lemma probed_hits (E : Env) (right : RemoteSource) (k : nat)
    (var : list string) (tp : loc) (s : t) :
  WF E k var s -> Clocked E s -> monotone E ->
  (tp < length (heap s))%nat -> binds var (deref (heap s) tp) ->
  let lt := deref (heap s) tp in
  let n := index_of E var k lt in
  let s' := probed E right k var tp s in
  (hits E var k s lt <> [] /\
   (forall m, rviews s' m = rviews s m) /\
   oviews s' = oviews s ++ map (fun r => r ∪ lt) (hits E var k s lt) /\
   calls s' = calls s)
  \/
  (hits E var k s lt = [] /\
   let news := cached right var lt (answer right var lt s) in
   (forall m, m <> n -> rviews s' m = rviews s m) /\
   rviews s' n = rviews s n ++ news /\
   oviews s' = oviews s ++ map (fun r => lt ∪ r) news /\
   calls s' = calls s ++ [(var, instances_of var lt)]).
Proof.
  intros Hwf Hc Hmono Htp Hb lt n s'.
  pose proof (matching_hits E k var tp s Hwf Hc Hmono) as Hm. cbn zeta in Hm.
  fold lt in Hm. fold n in Hm.
  destruct (probed_effect E right k var tp s Hwf Htp Hb)
    as (_ & _ & _ & _ & Hother & Hcase).
  fold lt in Hother, Hcase. fold n in Hother, Hcase. fold s' in Hother, Hcase.
  destruct Hcase as [(Hms & Hr & Ho & Hcalls)|(Hms & Hr & Ho & Hcalls)].
  - left. rewrite <- Hm. split; [|split; [|split; [|done]]].
    + intros Hnil. apply Hms. by apply map_eq_nil in Hnil.
    + intros m. destruct (decide (m = n)) as [->|Hne]; auto.
    + rewrite Ho. f_equal. by rewrite map_map.
  - right. rewrite <- Hm, Hms. done.
Qed.


(** ** Every matching pair is joined once *)

(** [o] combines the left mapping [l] and the cached mapping [r]: it is
    [l.update(r)] (local match) or [r.update(l)] (remote answer). *)
Definition combines (l r o : dict) : Prop := o = r ∪ l \/ o = l ∪ r.

(** The pairs [(l, r)] of a left mapping and one of the mappings [f l]. *)
Definition pairs_by (f : dict -> list dict) (ls : list dict)
  : list (dict * dict) :=
  concat (map (fun l => map (fun r => (l, r)) (f l)) ls).

(** The pairs [(l, r)] of a left mapping of [ls] and a cached mapping of
    [rs] with [l[v] == r[v]] for every join variable [v]. *)
Definition matching_pairs (var : list string) (ls rs : list dict)
  : list (dict * dict) :=
  pairs_by (fun l => filter (fun r => matches var l r = true) rs) ls.

(** All the mappings of the right table, partition after partition. *)
Definition all_rviews (k : nat) (s : t) : list dict :=
  concat (map (rviews s) (seq 0 k)).

Lemma filter_none {A} (P : A -> Prop) `{forall x, Decision (P x)} (l : list A) :
  Forall (fun x => ~ P x) l -> filter P l = [].
Proof.
  induction 1 as [|x l Hx _ IH]; [done|]. by rewrite filter_cons_False.
Qed.

Lemma filter_all {A} (P : A -> Prop) `{forall x, Decision (P x)} (l : list A) :
  Forall P l -> filter P l = l.
Proof.
  induction 1 as [|x l Hx _ IH]; [done|]. rewrite filter_cons_True by done.
  by rewrite IH.
Qed.

Lemma filter_concat_none {A} (P : A -> Prop) `{forall x, Decision (P x)}
    (f : nat -> list A) (idxs : list nat) :
  (forall m, m ∈ idxs -> filter P (f m) = []) ->
  filter P (concat (map f idxs)) = [].
Proof.
  induction idxs as [|i idxs IH]; intros Hf; [done|]. simpl.
  rewrite filter_app, Hf by left. simpl. apply IH. intros m Hm. apply Hf.
  by right.
Qed.

Lemma filter_concat_seq {A} (P : A -> Prop) `{forall x, Decision (P x)}
    (f : nat -> list A) (k n : nat) :
  (n < k)%nat ->
  (forall m, (m < k)%nat -> m <> n -> filter P (f m) = []) ->
  filter P (concat (map f (seq 0 k))) = filter P (f n).
Proof.
  intros Hn Hf.
  replace k with (n + S (k - S n))%nat by lia.
  rewrite seq_app, map_app, concat_app, filter_app. simpl.
  rewrite filter_app.
  rewrite filter_concat_none; cycle 1.
  { intros m Hm%elem_of_seq. apply Hf; lia. }
  rewrite (filter_concat_none P f (seq (S n) (k - S n))); cycle 1.
  { intros m Hm%elem_of_seq. apply Hf; lia. }
  simpl. by rewrite app_nil_r.
Qed.

Lemma hits_all E k var s l :
  WF E k var s ->
  filter (fun r => matches var l r = true) (all_rviews k s) = hits E var k s l.
Proof.
  intros Hwf. unfold all_rviews, hits.
  apply filter_concat_seq.
  - apply index_of_lt. exact (wf_k _ _ _ _ Hwf).
  - intros m Hm Hne. apply filter_none. apply Forall_forall.
    intros d (r & -> & Hr)%list_elem_of_fmap Hmatch.
    destruct (wf_recs _ _ _ _ Hwf m r Hr) as [_ Hidx].
    apply Hne. rewrite <- Hidx. symmetry. by apply index_of_matches.
Qed.

Lemma Forall2_map_same {A B C} (R : B -> C -> Prop) (f : A -> B) (g : A -> C)
    (l : list A) :
  (forall x, R (f x) (g x)) -> Forall2 R (map f l) (map g l).
Proof. intros H. induction l; simpl; by constructor. Qed.

(** The invariant of the probing loop: the results are, in order, one
    combination for every pair of a probed left mapping and a cached
    mapping that joins with it, and every probed left mapping has such a
    cached mapping. *)
Record Joined (E : Env) (var : list string) (k : nat) (done : list dict)
    (s : t) : Prop := mkJoined {
  j_clocked : Clocked E s;
  j_binds : Forall (binds var) done;
  j_cache : forall l, l ∈ done -> hits E var k s l <> [];
  j_out : Forall2 (fun p o => combines p.1 p.2 o)
                  (pairs_by (hits E var k s) done) (oviews s)
}.

Lemma pairs_by_snoc f ls l :
  pairs_by f (ls ++ [l]) = pairs_by f ls ++ map (fun r => (l, r)) (f l).
Proof.
  unfold pairs_by. rewrite map_app, concat_app. simpl. by rewrite app_nil_r.
Qed.

Lemma pairs_by_ext f g ls :
  (forall l, l ∈ ls -> f l = g l) -> pairs_by f ls = pairs_by g ls.
Proof.
  intros H. unfold pairs_by. f_equal. apply map_ext_in.
  intros l Hl%list_elem_of_In. by rewrite H.
Qed.

Lemma Joined_step (E : Env) (right : RemoteSource) (k : nat)
    (var : list string) (done : list dict) (s : t) (tp : loc) :
  monotone E -> WF E k var s -> Joined E var k done s ->
  (tp < length (heap s))%nat -> binds var (deref (heap s) tp) ->
  Joined E var k (done ++ [deref (heap s) tp]) (probed E right k var tp s).
Proof.
  intros Hmono Hwf [Hc Hbs Hcache Hout] Htp Hb.
  set (lt := deref (heap s) tp) in *.
  set (n := index_of E var k lt).
  pose proof (probed_effect E right k var tp s Hwf Htp Hb) as (_ & Hc' & _).
  pose proof (probed_hits E right k var tp s Hwf Hc Hmono Htp Hb) as Hcase.
  cbn zeta in Hcase. fold lt in Hcase. fold n in Hcase.
  set (s' := probed E right k var tp s) in *.
  destruct Hcase as [(Hh & Hr & Ho & _)|(Hh & Hother & Hr & Ho & _)].
  - assert (Hsame : forall l, hits E var k s' l = hits E var k s l)
      by (intros l; unfold hits; by rewrite Hr).
    split.
    + by apply Hc'.
    + apply Forall_app. split; [done | by constructor].
    + intros l [Hl|Hl%list_elem_of_singleton]%elem_of_app; rewrite Hsame;
        [auto | by subst l].
    + rewrite pairs_by_snoc, Ho.
      rewrite (pairs_by_ext _ (hits E var k s)) by (intros; apply Hsame).
      apply Forall2_app; [exact Hout|]. rewrite Hsame.
      apply Forall2_map_same. intros r. by left.
  - set (news := cached right var lt (answer right var lt s)) in *.
    assert (Hnews : Forall (fun r => matches var lt r = true) news)
      by by apply cached_matches.
    assert (Hold : forall l, l ∈ done -> hits E var k s' l = hits E var k s l).
    { intros l Hl. unfold hits.
      destruct (decide (index_of E var k l = n)) as [Hidx|Hidx];
        [|by rewrite Hother].
      rewrite Hidx, Hr, filter_app.
      rewrite (filter_none _ news); [by rewrite app_nil_r|].
      apply Forall_forall. intros r Hrin Hlr.
      rewrite Forall_forall in Hnews. pose proof (Hnews r Hrin) as Hltr.
      assert (Hltl : matches var lt l = true).
      { apply (matches_trans var lt r l); [done|]. by rewrite matches_sym. }
      pose proof (Hcache l Hl) as Hne.
      destruct (hits E var k s l) as [|r0 rest] eqn:Ehits; [done|].
      assert (Hr0 : r0 ∈ hits E var k s l) by (rewrite Ehits; left).
      unfold hits in Hr0. rewrite Hidx in Hr0.
      apply list_elem_of_filter in Hr0 as [Hlr0 Hin0].
      assert (Hin : r0 ∈ hits E var k s lt).
      { unfold hits. apply list_elem_of_filter. split; [|exact Hin0].
        by apply (matches_trans var lt l r0). }
      rewrite Hh in Hin. by apply not_elem_of_nil in Hin. }
    assert (Hnew : hits E var k s' lt = news).
    { unfold hits. fold n. rewrite Hr, filter_app.
      change (filter _ (rviews s n)) with (hits E var k s lt). rewrite Hh.
      simpl. by apply filter_all. }
    split.
    + by apply Hc'.
    + apply Forall_app. split; [done | by constructor].
    + intros l [Hl|Hl%list_elem_of_singleton]%elem_of_app.
      * rewrite Hold by done. auto.
      * subst l. rewrite Hnew. apply cached_nonempty.
    + rewrite pairs_by_snoc, Ho.
      rewrite (pairs_by_ext _ (hits E var k s)) by exact Hold.
      apply Forall2_app; [exact Hout|]. rewrite Hnew.
      apply Forall2_map_same. intros r. by right.
Qed.


Lemma Joined_set_left E var k done c s :
  Joined E var k done s -> Joined E var k done (set_left c s).
Proof. intros [? ? ? ?]. by split. Qed.

Lemma Joined_loaded E var k ls : Joined E var k [] (loaded k var ls).
Proof.
  split.
  - apply loaded_Clocked.
  - done.
  - by intros l ?%not_elem_of_nil.
  - constructor.
Qed.

(** X30. Under a clock that never goes back, with at least one join
    variable, for a left input of mappings that bind the join variables
    and a source whose streams end with EOF,
    [execute] returns, and its output is, in order, exactly one mapping
    for every pair [(l, r)] of a left input mapping [l] and a record [r]
    of the right table with [l[v] == r[v]] for every join variable [v],
    that mapping being a combination of [l] and [r] ([l.update(r)] or
    [r.update(l)]): no pair is left out and none is emitted twice.
    [isDuplicated(rec, r)] holds iff [rec.ats < r.ats], and on a duplicate
    the scan of the partition stops. *)
Theorem each_matching_pair_joined_once
    (E : Env) (right : RemoteSource) (k : nat) (var : list string)
    (ls : list dict) (rest : list msg) :
  monotone E -> (0 < k)%nat -> var <> [] -> EOF_terminated right ->
  Forall (binds var) ls ->
  (exists outs s',
     execute E (init k var) (map Tuple ls ++ EOF :: rest) right
       = Ok (map Tuple outs ++ [EOF], s') /\
     Forall2 (fun p o => combines p.1 p.2 o)
             (matching_pairs var ls (all_rviews k s')) outs) /\
  (forall record1 record2 : Record_,
     isDuplicated record1 record2 = true <-> ats record1 < ats record2) /\
  (forall record r rs join anyjoin s,
     isDuplicated record r = true ->
     scan record var (r :: rs) join anyjoin s = Ok (anyjoin, s)).
Proof.
  intros Hmono Hk Hvar Hsrc Hls. split; [|split].
  - destruct (execute_run E right k var Hsrc (Joined E var k) ls rest
                Hk Hvar Hls) as (s' & Hrun & Hwf & HJ).
    + intros done s c. apply Joined_set_left.
    + intros done s tp Hwf HJ Htp Hb. by apply Joined_step.
    + apply Joined_loaded.
    + exists (oviews s'), (set_results [] s'). split; [exact Hrun|].
      change (all_rviews k (set_results [] s')) with (all_rviews k s').
      unfold matching_pairs.
      rewrite (pairs_by_ext _ (hits E var k s'))
        by (intros l _; by apply hits_all).
      exact (j_out _ _ _ _ _ HJ).
  - apply isDuplicated_spec.
  - intros. by apply scan_stops_on_duplicate.
Qed.

Lemma ticking_monotone : monotone ticking.
Proof. intros m n H. simpl. lia. Qed.

Lemma each_matching_pair_joined_once_witness :
  exists outs s',
    execute ticking (init 4 ["x"]) (map Tuple left_a ++ [EOF]) source_a
      = Ok (map Tuple outs ++ [EOF], s') /\
    Forall2 (fun p o => combines p.1 p.2 o)
            (matching_pairs ["x"] left_a (all_rviews 4 s')) outs.
Proof.
  refine (proj1 (each_matching_pair_joined_once ticking source_a 4 ["x"]
                   left_a [] ticking_monotone _ _ source_a_terminated
                   left_a_binds));
    [lia | discriminate].
Defined.

(** A source that answers [{z:Z}] to every call. *)
Definition source_z : RemoteSource :=
  mkRemote ["z"] (fun _ _ _ => [Tuple {[ "z" := "Z" ]}; EOF]).

(** C2. Exactly one output mapping is stated for every pair [(l, r)] of a
    left mapping and a record of the right table that agree on every join
    variable.  With no join variable every pair agrees.  On the left input
    [{x:a, y:1}, {x:a, y:2}], EOF and a source that answers [{z:Z}], the
    first mapping caches [{z:Z}] in partition 0 of the right table and is
    joined with it; the second mapping, probed against that record, raises
    [UnboundLocalError] (under a clock that never goes back the duplicate
    check does not fire, and [probe] reads [join], which only the loop
    over the join variables assigns), so [execute] raises and no mapping
    is emitted for either pair. *)
Theorem matching_pair_without_join_variable_not_joined :
  (forall l r : dict, matches [] l r = true) /\
  (exists s1,
     insertAndProbe ticking source_z 0%nat (loaded 4 [] left_a) = Ok s1 /\
     part (right_table s1) 0 = [mkRecord 2%nat 1 0] /\
     view s1 (mkRecord 2%nat 1 0) = {[ "z" := "Z" ]} /\
     oviews s1 = [ {[ "x" := "a"; "y" := "1"; "z" := "Z" ]} ] /\
     isDuplicated (mkRecord 1%nat (clock ticking (ticks s1)) 0)
                  (mkRecord 2%nat 1 0) = false /\
     insertAndProbe ticking source_z 1%nat s1 = Raise UnboundLocalError) /\
  execute ticking (init 4 []) (map Tuple left_a ++ [EOF]) source_z
    = Raise UnboundLocalError.
Proof.
  split; [done|]. split; [|by vm_compute].
  eexists. split; [vm_compute; reflexivity|]. by vm_compute.
Qed.


(** ** Probing a partition that holds a match *)









(** ** The optional branch caches the mapping it emits *)

(** C10. When the scan finds no match and the source answers EOF at once,
    [probe] appends one record to the partition and one reference to the
    result list, and the two are the same dictionary object, new on the
    heap; it holds the left mapping's bindings over the empty string for
    every attribute of the source, so it binds every join variable to
    the left mapping's value. *)
Theorem optional_branch_caches_emitted_dict
    (E : Env) (right : RemoteSource) (k : nat) (var : list string)
    (record : Record_) (i : Z) (p : Partition) (s : t) (more : list msg) :
  var <> [] -> 0 <= i < Z.of_nat k -> table_ok k (right_table s) ->
  in_heap (heap s) var record ->
  Forall (in_heap (heap s) var) (records p) ->
  matching var (heap s) record (records p) = [] ->
  remote_execute right (length (calls s)) (vars s)
                 (instances_of var (view s record)) = EOF :: more ->
  exists s' reg,
    probe E record i p var right s = Ok s' /\
    part (right_table s') (Z.to_nat i)
      = part (right_table s) (Z.to_nat i) ++ [reg] /\
    results s' = results s ++ [tuple reg] /\
    tuple reg = length (heap s) /\
    view s' reg = view s record ∪ padding (atts right) /\
    (forall key,
       view s' reg !! key =
       match view s record !! key with
       | Some x => Some x
       | None => if bool_decide (key ∈ atts right) then Some "" else None
       end) /\
    (forall v, v ∈ var -> view s' reg !! v = view s record !! v) /\
    binds var (view s' reg).
Proof.
  intros Hvar Hi Htb Hrec Hrs Hms Hq.
  set (lt := view s record) in *.
  set (s1 := set_calls (calls s ++ [(vars s, instances_of var lt)]) s).
  exists (optional_state E (Z.to_nat i) (atts right) lt s1),
         (mkRecord (length (heap s)) (clock E (ticks s)) 0).
  assert (Hview : view (optional_state E (Z.to_nat i) (atts right) lt s1)
                       (mkRecord (length (heap s)) (clock E (ticks s)) 0)
                  = lt ∪ padding (atts right))
    by apply (optional_state_view E (Z.to_nat i) (atts right) lt s1).
  assert (Hkeep : forall v, v ∈ var ->
            (lt ∪ padding (atts right)) !! v = lt !! v).
  { intros v Hv. destruct Hrec as [_ Hb]. unfold binds in Hb.
    rewrite Forall_forall in Hb. destruct (Hb v Hv) as [x Hx].
    fold (view s record) in Hx. fold lt in Hx. rewrite Hx.
    by apply lookup_union_Some_l. }
  split; [|split; [|split; [|split; [|split; [|split; [|split]]]]]].
  - unfold probe. simpl. rewrite scan_spec by done. rewrite Hms. simpl.
    rewrite ?orb_true_r, ?emit_nil, ?app_nil_r.
    destruct Hrec as [Hlt Hb].
    rewrite instances_loop_spec by done. simpl.
    fold (view s record). fold lt. rewrite Hq.
    erewrite optional_branch_spec; [reflexivity|exact Hi|exact Htb|exact Hlt].
  - simpl. apply part_append_at_eq. destruct Htb as [_ ->]. lia.
  - done.
  - done.
  - exact Hview.
  - intros key. rewrite Hview, lookup_union, lookup_padding.
    destruct (lt !! key), (bool_decide (key ∈ atts right)); done.
  - intros v Hv. rewrite Hview. by apply Hkeep.
  - rewrite Hview. apply Forall_forall. intros v Hv. rewrite Hkeep by done.
    destruct Hrec as [_ Hb]. unfold binds in Hb. rewrite Forall_forall in Hb.
    by apply Hb.
Qed.

(** Left mapping [{x:k}], for which [source_a] has no answer. *)
Definition loaded_k : t := loaded 4%nat ["x"] [ {[ "x" := "k" ]} ].

Lemma optional_branch_caches_emitted_dict_witness :
  exists s' reg,
    probe ticking (mkRecord 0%nat 0 0) 1 (mkPartition []) ["x"] source_a loaded_k
      = Ok s' /\
    part (right_table s') 1%nat = part (right_table loaded_k) 1%nat ++ [reg] /\
    results s' = results loaded_k ++ [tuple reg] /\
    tuple reg = length (heap loaded_k) /\
    view s' reg = view loaded_k (mkRecord 0%nat 0 0) ∪ padding (atts source_a) /\
    (forall key,
       view s' reg !! key =
       match view loaded_k (mkRecord 0%nat 0 0) !! key with
       | Some x => Some x
       | None => if bool_decide (key ∈ atts source_a) then Some "" else None
       end) /\
    (forall v, v ∈ ["x"] ->
       view s' reg !! v = view loaded_k (mkRecord 0%nat 0 0) !! v) /\
    binds ["x"] (view s' reg).
Proof.
  apply (optional_branch_caches_emitted_dict ticking source_a 4%nat ["x"]
           (mkRecord 0%nat 0 0) 1 (mkPartition []) loaded_k []).
  - discriminate.
  - lia.
  - split; reflexivity.
  - split; [simpl; lia | constructor; [by eexists | constructor]].
  - constructor.
  - reflexivity.
  - reflexivity.
Defined.

End NestedLoopOptionalProps.

(** * Properties of the model beyond single calls *)

Module ModelLaws.
Import Model Analyses ModelProps.

(** ** Induction on a tree of nodes *)

Inductive KidsAll (P : Node -> Prop) : Kids Node -> Prop :=
| KListAll l : Forall P l -> KidsAll P (KList l)
| KOneAll a : P a -> KidsAll P (KOne a).

Section NodeInduction.
Context (P : Node -> Prop).
Hypothesis HT : forall t, P (NTriple t).
Hypothesis HF : forall f, P (NFilter f).
Hypothesis HJ : forall ks fs s, KidsAll P ks -> P (NJoinBlock ks fs s).
Hypothesis HU : forall ks fs, KidsAll P ks -> P (NUnionBlock ks fs).
Hypothesis HO : forall b, P b -> P (NOptional b).
Hypothesis HS : forall i ks, KidsAll P ks -> P (NService i ks).

Fixpoint Node_induction (n : Node) : P n :=
  let kids (ks : Kids Node) : KidsAll P ks :=
    match ks with
    | KList l =>
        KListAll P l
          ((fix go (l : list Node) : Forall P l :=
              match l with
              | [] => @List.Forall_nil Node P
              | x :: l' => @List.Forall_cons Node P x l' (Node_induction x) (go l')
              end) l)
    | KOne a => KOneAll P a (Node_induction a)
    end in
  match n with
  | NTriple t => HT t
  | NFilter f => HF f
  | NJoinBlock ks fs s => HJ ks fs s (kids ks)
  | NUnionBlock ks fs => HU ks fs (kids ks)
  | NOptional b => HO b (Node_induction b)
  | NService i ks => HS i ks (kids ks)
  end.
End NodeInduction.


Section ExprInduction.
Context (P : Expr -> Prop).
Hypothesis HA : forall a, P (EArgument a).
Hypothesis HE1 : forall op l, P l -> P (EExpression op l None).
Hypothesis HE2 : forall op l r, P l -> P r -> P (EExpression op l (Some r)).

Fixpoint Expr_induction (e : Expr) : P e :=
  match e with
  | EArgument a => HA a
  | EExpression op l None => HE1 op l (Expr_induction l)
  | EExpression op l (Some r) =>
      HE2 op l r (Expr_induction l) (Expr_induction r)
  end.
End ExprInduction.

(** ** The three loops, by their results *)

Lemma bind_Raise {A B} (m : result A) (k : A -> result B) (e : exn) :
  bind m k = Raise e ->
  m = Raise e \/ exists a, m = Ok a /\ k a = Raise e.
Proof. destruct m as [a|e']; simpl; [eauto | left; congruence]. Qed.

Lemma sum_loop_cons {A} (g : A -> result Z) p x xs r :
  sum_loop g p (x :: xs) = Ok r ->
  exists n, g x = Ok n /\ sum_loop g (p + n) xs = Ok r.
Proof. simpl. intros H. by apply bind_Ok in H. Qed.

Lemma comprehension_Ok {A B} (f : A -> result B) xs ys :
  comprehension f xs = Ok ys <-> Forall2 (fun x y => f x = Ok y) xs ys.
Proof.
  revert ys. induction xs as [|x xs IH]; intros ys; simpl.
  - split; [intros [= <-]; constructor | by intros ->%Forall2_nil_inv_l].
  - split.
    + intros (y & Hy & H)%bind_Ok. apply bind_Ok in H as (ys' & Hys & [= <-]).
      constructor; [done | by apply IH].
    + intros (y & ys' & Hy & Hys & ->)%Forall2_cons_inv_l.
      rewrite Hy. simpl. apply IH in Hys. by rewrite Hys.
Qed.

Lemma concat_loop_Ok {A B} (f : A -> result (list B)) l xs r :
  concat_loop f l xs = Ok r <->
  exists vss, Forall2 (fun x vs => f x = Ok vs) xs vss /\ r = l ++ concat vss.
Proof.
  revert l. induction xs as [|x xs IH]; intros l; simpl.
  - split.
    + intros [= <-]. exists []. split; [constructor | by rewrite app_nil_r].
    + intros (vss & ->%Forall2_nil_inv_l & ->). simpl. by rewrite app_nil_r.
  - split.
    + intros (vs & Hvs & H)%bind_Ok. apply IH in H as (vss & Hvss & ->).
      exists (vs :: vss). split; [by constructor | by rewrite <- app_assoc].
    + intros (vss & (vs & vss' & Hy & Hys & ->)%Forall2_cons_inv_l & ->).
      rewrite Hy. simpl. apply IH. exists vss'. split; [done|].
      simpl. by rewrite <- app_assoc.
Qed.

(** ** Counting constants *)

Lemma sum_loop_three (l : list Node) :
  Forall (fun x => forall s p o,
            const_subjects x = Ok s -> const_predicates x = Ok p ->
            const_objects x = Ok o -> constantNumber x = Ok (s + p + o)) l ->
  forall a b c s p o,
    sum_loop const_subjects a l = Ok s ->
    sum_loop const_predicates b l = Ok p ->
    sum_loop const_objects c l = Ok o ->
    sum_loop constantNumber (a + b + c) l = Ok (s + p + o).
Proof.
  induction 1 as [|x l Hx _ IH]; intros a b c s p o.
  - simpl. by intros [= ->] [= ->] [= ->].
  - intros (n1 & H1 & Hs)%sum_loop_cons (n2 & H2 & Hp)%sum_loop_cons
           (n3 & H3 & Ho)%sum_loop_cons.
    simpl. rewrite (Hx _ _ _ H1 H2 H3). simpl.
    replace (a + b + c + (n1 + n2 + n3)) with ((a + n1) + (b + n2) + (c + n3))
      by lia.
    by apply IH.
Qed.

(** X1. Whenever the three positional counts [const_subjects],
    [const_predicates] and [const_objects] return on a tree, [constantNumber]
    returns their sum. *)
Theorem constantNumber_by_position (n : Node) (s p o : Z) :
  const_subjects n = Ok s -> const_predicates n = Ok p ->
  const_objects n = Ok o ->
  constantNumber n = Ok (s + p + o).
Proof.
  revert s p o. induction n as [t|f|ks fs fstr IH|ks fs IH|b IH|i ks IH]
    using Node_induction; intros s p o; simpl.
  - intros [= <-] [= <-] [= <-]. unfold Triple_constantNumber,
      Triple_const_subjects, Triple_const_predicates, Triple_const_objects.
    by destruct (constant (subject t)), (constant (predicate t)),
      (constant (theobject t)).
  - discriminate.
  - destruct IH as [l IH|a IH]; [|by apply IH].
    apply (sum_loop_three l IH 0 0 0).
  - destruct IH as [l IH|a IH]; [|discriminate].
    apply (sum_loop_three l IH 0 0 0).
  - discriminate.
  - destruct IH as [l IH|a IH]; [|by apply IH].
    apply (sum_loop_three l IH 0 0 0).
Qed.

Definition two_triples : Node :=
  NJoinBlock
    (KList [NTriple (Triple_new (var "?s") (cst "<p>") (cst "<o>"));
            NService some_service
              (KList [NTriple (Triple_new (cst "<s>") (cst "<q>") (var "?o"))])])
    [] "".

Lemma constantNumber_by_position_witness :
  constantNumber two_triples = Ok (1 + 2 + 1).
Proof. apply (constantNumber_by_position two_triples 1 2 1); reflexivity. Defined.

Lemma Expr_places_pos (e : Expr) (p : Z) : Expr_places e = Ok p -> 1 <= p.
Proof.
  revert p. induction e as [a|op l IHl|op l r IHl IHr] using Expr_induction;
    intros p; simpl.
  - intros [= <-]. unfold Argument_places. lia.
  - destruct (is_unary op); simpl; [apply IHl|].
    destruct (String.eqb op "REGEX"); simpl; [discriminate|].
    destruct (Expr_places l); discriminate.
  - intros (lo & _ & H)%bind_Ok. destruct lo; [by apply IHl|].
    apply bind_Ok in H as (a & Ha & H). apply bind_Ok in H as (b & Hb & [= <-]).
    apply IHl in Ha. apply IHr in Hb. lia.
Qed.

Lemma sum_loop_two (l : list Node) :
  Forall (fun x => forall c p, constantNumber x = Ok c -> places x = Ok p ->
                               0 <= c <= p) l ->
  forall a b c p,
    sum_loop constantNumber a l = Ok c -> sum_loop places b l = Ok p ->
    0 <= c - a <= p - b.
Proof.
  induction 1 as [|x l Hx _ IH]; intros a b c p.
  - simpl. intros [= ->] [= ->]. lia.
  - intros (n1 & H1 & Hc)%sum_loop_cons (n2 & H2 & Hp)%sum_loop_cons.
    specialize (Hx _ _ H1 H2). specialize (IH _ _ _ _ Hc Hp). lia.
Qed.

Lemma constantNumber_le_places (n : Node) (c p : Z) :
  constantNumber n = Ok c -> places n = Ok p -> 0 <= c <= p.
Proof.
  revert c p. induction n as [t|f|ks fs fstr IH|ks fs IH|b IH|i ks IH]
    using Node_induction; intros c p; simpl.
  - intros [= <-] [= <-]. unfold Triple_constantNumber, Triple_places.
    destruct (constant (subject t)), (constant (predicate t)),
      (constant (theobject t)); lia.
  - intros [= <-] Hp%Expr_places_pos. lia.
  - destruct IH as [l IH|a IH]; [|by apply IH].
    intros Hc Hp. pose proof (sum_loop_two l IH _ _ _ _ Hc Hp). lia.
  - destruct IH as [l IH|a IH]; [|discriminate].
    intros Hc Hp. pose proof (sum_loop_two l IH _ _ _ _ Hc Hp). lia.
  - apply IH.
  - destruct IH as [l IH|a IH]; [|by apply IH].
    intros Hc Hp. pose proof (sum_loop_two l IH _ _ _ _ Hc Hp). lia.
Qed.

(** X2. Whenever [constantNumber] and [places] return on a tree, the number
    of constants lies between 0 and the number of places. *)
Theorem constantNumber_bounds (n : Node) (c p : Z) :
  constantNumber n = Ok c -> places n = Ok p -> 0 <= c <= p.
Proof. apply constantNumber_le_places. Qed.

Lemma constantNumber_bounds_witness : 0 <= 4 <= 6.
Proof. apply (constantNumber_bounds two_triples 4 6); reflexivity. Defined.

Lemma truediv_unit (c p : Z) (q : Q) :
  0 <= c <= p -> truediv c p = Ok q -> (0 <= q <= 1)%Q.
Proof.
  unfold truediv. intros Hcp. destruct (Z.eqb_spec p 0); [discriminate|].
  intros [= <-]. assert (Hp : 0 < p) by lia.
  assert (H0 : (0 < inject_Z p)%Q) by (unfold Qlt; simpl; lia).
  split.
  - apply Qle_shift_div_l; [done|]. rewrite Qmult_0_l.
    unfold Qle; simpl; lia.
  - apply Qle_shift_div_r; [done|]. rewrite Qmult_1_l.
    unfold Qle; simpl; lia.
Qed.

(** X3. Whenever [constantPercentage] returns on a tree, the
    value lies between 0 and 1. *)
Theorem constantPercentage_unit_interval (n : Node) (q : Q) :
  constantPercentage n = Ok q -> (0 <= q <= 1)%Q.
Proof.
  assert (Hgen : forall m, (let! c := constantNumber m in
                            let! p := places m in truediv c p) = Ok q ->
                           (0 <= q <= 1)%Q).
  { intros m (c & Hc & H)%bind_Ok. apply bind_Ok in H as (p & Hp & H).
    eapply truediv_unit; [|exact H]. by eapply constantNumber_le_places. }
  destruct n as [t|f|ks fs fstr|ks fs|b|i ks].
  - apply (Hgen (NTriple t)).
  - intros [= <-]. split; discriminate.
  - apply (Hgen (NJoinBlock ks fs fstr)).
  - apply (Hgen (NUnionBlock ks fs)).
  - apply (Hgen (NOptional b)).
  - unfold constantPercentage. intros (p & Hp & H)%bind_Ok.
    destruct (p =? 0); [injection H as <-; split; discriminate|].
    exact (Hgen (NService i ks) H).
Qed.

Lemma constantPercentage_unit_interval_witness : (0 <= 4 # 6 <= 1)%Q.
Proof.
  apply (constantPercentage_unit_interval two_triples (4 # 6)). reflexivity.
Defined.

(** ** Instantiation *)

(** [Expression.instantiate] sends [instantiate] to its operands, and the
    innermost left operand is an [Argument]. *)
Lemma Expr_instantiate_raises (d : dict) (e : Expr) :
  Expr_instantiate d e = Raise AttributeError.
Proof.
  induction e as [a|op l IHl|op l r IHl _] using Expr_induction; simpl;
    [done | by rewrite IHl | by rewrite IHl].
Qed.

(** No [Filter] among the nodes reached through [triples] and [bgg]. *)
Fixpoint filter_free (n : Node) : bool :=
  match n with
  | NTriple _ => true
  | NFilter _ => false
  | NJoinBlock (KList l) _ _ => forallb filter_free l
  | NJoinBlock (KOne a) _ _ => filter_free a
  | NUnionBlock (KList l) _ => forallb filter_free l
  | NUnionBlock (KOne a) _ => filter_free a
  | NOptional b => filter_free b
  | NService _ (KList l) => forallb filter_free l
  | NService _ (KOne a) => filter_free a
  end.

Definition instantiates (d : dict) (n : Node) : Prop :=
  if filter_free n then exists n', instantiate d n = Ok n'
  else instantiate d n = Raise AttributeError.

Lemma comprehension_instantiates (d : dict) (l : list Node) :
  Forall (instantiates d) l ->
  if forallb filter_free l
  then exists ts, comprehension (instantiate d) l = Ok ts
  else comprehension (instantiate d) l = Raise AttributeError.
Proof.
  induction 1 as [|x l Hx _ IH]; simpl; [by eexists|].
  unfold instantiates in Hx. destruct (filter_free x); simpl.
  - destruct Hx as [x' ->]. simpl.
    destruct (forallb filter_free l); [|by rewrite IH].
    destruct IH as [ts ->]. by eexists.
  - by rewrite Hx.
Qed.

(** X4. [instantiate] returns exactly on the trees without a [Filter]
    among their nodes; on every other tree it raises [AttributeError]
    ([Filter.instantiate] ends in [Argument], which has no such method). *)
Theorem instantiate_returns_iff_no_filter (d : dict) (n : Node) :
  if filter_free n then exists n', instantiate d n = Ok n'
  else instantiate d n = Raise AttributeError.
Proof.
  change (instantiates d n).
  induction n as [t|f|ks fs fstr IH|ks fs IH|b IH|i ks IH]
    using Node_induction; unfold instantiates; simpl.
  - by eexists.
  - unfold Filter_instantiate. by rewrite Expr_instantiate_raises.
  - destruct IH as [l IH|a IH]; [|exact IH].
    apply comprehension_instantiates in IH.
    destruct (forallb filter_free l); [|by rewrite IH].
    destruct IH as [ts ->]. by eexists.
  - destruct IH as [l IH|a IH]; [|exact IH].
    apply comprehension_instantiates in IH.
    destruct (forallb filter_free l); [|by rewrite IH].
    destruct IH as [ts ->]. by eexists.
  - unfold instantiates in IH. destruct (filter_free b); [|by rewrite IH].
    destruct IH as [b' ->]. by eexists.
  - destruct IH as [l IH|a IH].
    + apply comprehension_instantiates in IH.
      destruct (forallb filter_free l); [|by rewrite IH].
      destruct IH as [ts ->]. by eexists.
    + unfold instantiates in IH. destruct (filter_free a); [|by rewrite IH].
      destruct IH as [a' ->]. by eexists.
Qed.

(** The name of [v] without its leading [?] or [$] is a key of [d]. *)
Definition bound_in (d : dict) (v : string) : Prop :=
  is_Some (d !! lstrip [qmark; dollar] v).

Definition arg_vars (a : Argument) : list string :=
  if negb (constant a) then [name a] else [].

Definition arg_instantiate (d : dict) (a : Argument) : Argument :=
  match negb (constant a), d !! lstrip [qmark; dollar] (name a) with
  | true, Some v => Argument_new v true
  | _, _ => a
  end.

Lemma arg_vars_instantiate (d : dict) (a : Argument) :
  arg_vars (arg_instantiate d a) = filter (fun v => ~ bound_in d v) (arg_vars a).
Proof.
  unfold arg_vars, arg_instantiate, bound_in.
  destruct (constant a) eqn:Ec; simpl; [by rewrite Ec|].
  destruct (d !! _) eqn:E; simpl.
  - rewrite filter_cons_False; [done|]. intros H. apply H. by rewrite E.
  - rewrite Ec. simpl. rewrite filter_cons_True; [done|].
    rewrite E. by intros [? ?].
Qed.

Lemma Triple_getVars_args (t : Triple) :
  Triple_getVars t
  = arg_vars (subject t) ++ arg_vars (theobject t) ++ arg_vars (predicate t).
Proof.
  unfold Triple_getVars, Triple_getPredVars, arg_vars.
  by destruct (constant (subject t)), (constant (theobject t)),
    (constant (predicate t)).
Qed.

Lemma Triple_getVars_instantiate (d : dict) (t : Triple) :
  Triple_getVars (Triple_instantiate d t)
  = filter (fun v => ~ bound_in d v) (Triple_getVars t).
Proof.
  rewrite !Triple_getVars_args, !filter_app, <- !arg_vars_instantiate.
  reflexivity.
Qed.

Lemma Triple_instantiate_args (d : dict) (t : Triple) :
  Triple_instantiate d t
  = Triple_new (arg_instantiate d (subject t)) (arg_instantiate d (predicate t))
      (arg_instantiate d (theobject t)).
Proof. reflexivity. Qed.

Lemma arg_instantiate_idem (d : dict) (a : Argument) :
  arg_instantiate d (arg_instantiate d a) = arg_instantiate d a.
Proof.
  unfold arg_instantiate.
  destruct (constant a) eqn:Ec; simpl; [by rewrite Ec|].
  destruct (d !! _) eqn:E; simpl; [done|]. by rewrite Ec, E.
Qed.

Lemma concat_Forall2_getVars (d : dict) (l ts : list Node) :
  Forall (fun x => forall x', instantiate d x = Ok x' ->
            exists vs', getVars x' = Ok vs' /\
              Forall (fun v => ~ bound_in d v) vs' /\
              forall vs, getVars x = Ok vs ->
                         vs' = filter (fun v => ~ bound_in d v) vs) l ->
  comprehension (instantiate d) l = Ok ts ->
  exists vs', concat_loop getVars [] ts = Ok vs' /\
    Forall (fun v => ~ bound_in d v) vs' /\
    forall vs, concat_loop getVars [] l = Ok vs ->
               vs' = filter (fun v => ~ bound_in d v) vs.
Proof.
  intros IH Hts.
  cut (forall acc acc', Forall (fun v => ~ bound_in d v) acc' ->
         exists vs', concat_loop getVars acc' ts = Ok vs' /\
           Forall (fun v => ~ bound_in d v) vs' /\
           forall vs, acc' = filter (fun v => ~ bound_in d v) acc ->
                      concat_loop getVars acc l = Ok vs ->
                      vs' = filter (fun v => ~ bound_in d v) vs).
  { intros H. destruct (H [] [] (Forall_nil_2 _)) as (vs' & ? & ? & Hf).
    exists vs'. split; [done|]. split; [done|]. intros vs. by apply Hf. }
  revert ts Hts. induction IH as [|x l Hx _ IH]; intros ts Hts acc acc' Hacc.
  - injection Hts as <-. simpl. exists acc'. split; [done|]. split; [done|].
    by intros vs -> [= <-].
  - simpl in Hts. apply bind_Ok in Hts as (x' & Hx' & Hts).
    apply bind_Ok in Hts as (ts' & Hts' & [= <-]).
    destruct (Hx _ Hx') as (vs1 & Hvs1 & Hall & Hf).
    simpl. rewrite Hvs1. simpl.
    destruct (IH _ Hts' (acc ++ default [] (match getVars x with Ok v => Some v | _ => None end))
                (acc' ++ vs1)) as (vs' & Hvs' & Hall' & Hf').
    { by apply Forall_app. }
    exists vs'. split; [done|]. split; [done|].
    intros vs -> (v & Hv & Hvs)%bind_Ok. rewrite Hv in Hf'. simpl in Hf'.
    apply Hf'; [|done]. by rewrite filter_app, (Hf _ Hv).
Qed.

(** X5. When [instantiate(d)] returns, [getVars] returns on the result, no
    variable of the result is bound by [d], and the variables of the result
    are those of the tree that [d] does not bind, in the same order. *)
Theorem instantiate_removes_bound_variables (d : dict) (n n' : Node) :
  instantiate d n = Ok n' ->
  exists vs', getVars n' = Ok vs' /\
    Forall (fun v => ~ bound_in d v) vs' /\
    forall vs, getVars n = Ok vs -> vs' = filter (fun v => ~ bound_in d v) vs.
Proof.
  revert n'. induction n as [t|f|ks fs fstr IH|ks fs IH|b IH|i ks IH]
    using Node_induction; intros n'; simpl.
  - intros [= <-]. simpl. eexists. split; [done|].
    rewrite Triple_getVars_instantiate. split.
    + apply Forall_forall. by intros v [? _]%list_elem_of_filter.
    + by intros vs [= <-].
  - unfold Filter_instantiate. by rewrite Expr_instantiate_raises.
  - destruct IH as [l IH|a IH]; [|by apply IH].
    intros (ts & Hts & [= <-])%bind_Ok. simpl.
    by apply concat_Forall2_getVars.
  - destruct IH as [l IH|a IH].
    + intros (ts & Hts & [= <-])%bind_Ok. simpl.
      by apply concat_Forall2_getVars.
    + intros H. destruct (IH _ H) as (vs' & ? & ? & _).
      exists vs'. split; [done|]. split; [done|]. discriminate.
  - intros (b' & Hb & [= <-])%bind_Ok. simpl. by apply IH.
  - destruct IH as [l IH|a IH].
    + intros (ts & Hts & [= <-])%bind_Ok. simpl.
      by apply concat_Forall2_getVars.
    + intros (a' & Ha & [= <-])%bind_Ok. simpl. by apply IH.
Qed.

Definition star_sp : Node :=
  NService some_service
    (KList [NTriple (Triple_new (var "?s") (cst "<p>") (var "?o"));
            NTriple (Triple_new (var "?s") (var "$q") (var "?t"))]).

Lemma instantiate_removes_bound_variables_witness :
  exists vs', getVars (NService some_service
      (KList [NTriple (Triple_new (cst "<a>") (cst "<p>") (var "?o"));
              NTriple (Triple_new (cst "<a>") (cst "<b>") (var "?t"))])) = Ok vs' /\
    Forall (fun v => ~ bound_in {[ "s" := "<a>"; "q" := "<b>" ]} v) vs' /\
    forall vs, getVars star_sp = Ok vs ->
      vs' = filter (fun v => ~ bound_in {[ "s" := "<a>"; "q" := "<b>" ]} v) vs.
Proof.
  apply (instantiate_removes_bound_variables _ star_sp). by vm_compute.
Defined.

Lemma comprehension_fixed (d : dict) (l ts : list Node) :
  Forall (fun x => forall x', instantiate d x = Ok x' ->
                              instantiate d x' = Ok x') l ->
  comprehension (instantiate d) l = Ok ts ->
  comprehension (instantiate d) ts = Ok ts.
Proof.
  intros IH. revert ts. induction IH as [|x l Hx _ IH]; intros ts; simpl.
  - by intros [= <-].
  - intros (x' & Hx' & H)%bind_Ok. apply bind_Ok in H as (ts' & Hts' & [= <-]).
    simpl. by rewrite (Hx _ Hx'), (IH _ Hts').
Qed.

(** X6. [instantiate(d)] is idempotent: applied to its own result, it
    returns that result. *)
Theorem instantiate_idempotent (d : dict) (n n' : Node) :
  instantiate d n = Ok n' -> instantiate d n' = Ok n'.
Proof.
  revert n'. induction n as [t|f|ks fs fstr IH|ks fs IH|b IH|i ks IH]
    using Node_induction; intros n'; simpl.
  - intros [= <-]. simpl. f_equal. f_equal.
    rewrite !Triple_instantiate_args. simpl.
    by rewrite !arg_instantiate_idem.
  - unfold Filter_instantiate. by rewrite Expr_instantiate_raises.
  - destruct IH as [l IH|a IH]; [|by apply IH].
    intros (ts & Hts & [= <-])%bind_Ok. simpl.
    by rewrite (comprehension_fixed d l ts IH Hts).
  - destruct IH as [l IH|a IH]; [|by apply IH].
    intros (ts & Hts & [= <-])%bind_Ok. simpl.
    by rewrite (comprehension_fixed d l ts IH Hts).
  - intros (b' & Hb & [= <-])%bind_Ok. simpl. by rewrite (IH _ Hb).
  - destruct IH as [l IH|a IH].
    + intros (ts & Hts & [= <-])%bind_Ok. simpl.
      by rewrite (comprehension_fixed d l ts IH Hts).
    + intros (a' & Ha & [= <-])%bind_Ok. simpl. by rewrite (IH _ Ha).
Qed.

Lemma instantiate_idempotent_witness :
  instantiate {[ "s" := "<a>" ]}
    (NJoinBlock
       (KList [NJoinBlock (KList [NTriple (Triple_new (cst "<a>") (cst "<p>") (var "?o"))]) [] "";
               NJoinBlock (KList [NTriple (Triple_new (cst "<a>") (cst "<q>") (var "?o"))]) [] ""])
       [] "")
  = Ok (NJoinBlock
       (KList [NJoinBlock (KList [NTriple (Triple_new (cst "<a>") (cst "<p>") (var "?o"))]) [] "";
               NJoinBlock (KList [NTriple (Triple_new (cst "<a>") (cst "<q>") (var "?o"))]) [] ""])
       [] "").
Proof.
  apply (instantiate_idempotent _ union_of_two). by vm_compute.
Defined.

(** The occurrences of variables in [vs] that [d] binds. *)
Definition bound_occurrences (d : dict) (vs : list string) : Z :=
  Z.of_nat (length (filter (bound_in d) vs)).

Lemma bound_occurrences_app d vs ws :
  bound_occurrences d (vs ++ ws)
  = bound_occurrences d vs + bound_occurrences d ws.
Proof. unfold bound_occurrences. rewrite filter_app, length_app. lia. Qed.

Lemma arg_constant_instantiate (d : dict) (a : Argument) :
  (if constant (arg_instantiate d a) then 1 else 0)
  = (if constant a then 1 else 0) + bound_occurrences d (arg_vars a).
Proof.
  unfold arg_instantiate, arg_vars, bound_occurrences, bound_in.
  destruct (constant a) eqn:Ec; simpl; [by rewrite Ec|].
  destruct (d !! _) eqn:E; simpl.
  - rewrite filter_cons_True; [done | by rewrite E].
  - rewrite Ec. rewrite filter_cons_False; [done|]. rewrite E. by intros [? ?].
Qed.

Lemma Triple_constantNumber_args (t : Triple) :
  Triple_constantNumber t
  = (if constant (subject t) then 1 else 0)
    + (if constant (theobject t) then 1 else 0)
    + (if constant (predicate t) then 1 else 0).
Proof.
  unfold Triple_constantNumber.
  by destruct (constant (subject t)), (constant (theobject t)),
    (constant (predicate t)).
Qed.

Lemma sum_loop_places (d : dict) (l ts : list Node) :
  Forall (fun x => forall x', instantiate d x = Ok x' ->
            forall p, places x = Ok p -> places x' = Ok p) l ->
  comprehension (instantiate d) l = Ok ts ->
  forall a p, sum_loop places a l = Ok p -> sum_loop places a ts = Ok p.
Proof.
  intros IH. revert ts. induction IH as [|x l Hx _ IH]; intros ts; simpl.
  - by intros [= <-].
  - intros (x' & Hx' & H)%bind_Ok. apply bind_Ok in H as (ts' & Hts' & [= <-]).
    intros a p (n1 & H1 & Hp)%bind_Ok. simpl. rewrite (Hx _ Hx' _ H1). simpl.
    by apply IH.
Qed.

Lemma sum_loop_constants (d : dict) (l ts : list Node) :
  Forall (fun x => forall x', instantiate d x = Ok x' ->
            forall c vs, constantNumber x = Ok c -> getVars x = Ok vs ->
              constantNumber x' = Ok (c + bound_occurrences d vs)) l ->
  comprehension (instantiate d) l = Ok ts ->
  forall a acc c vs,
    sum_loop constantNumber a l = Ok c -> concat_loop getVars acc l = Ok vs ->
    sum_loop constantNumber (a + bound_occurrences d acc) ts
    = Ok (c + bound_occurrences d vs).
Proof.
  intros IH. revert ts. induction IH as [|x l Hx _ IH]; intros ts; simpl.
  - by intros [= <-] a acc c vs [= <-] [= <-].
  - intros (x' & Hx' & H)%bind_Ok. apply bind_Ok in H as (ts' & Hts' & [= <-]).
    intros a acc c vs (n1 & H1 & Hc)%bind_Ok (vs1 & Hv1 & Hvs)%bind_Ok.
    simpl. rewrite (Hx _ Hx' _ _ H1 Hv1). simpl.
    rewrite <- (IH _ Hts' _ _ _ _ Hc Hvs). f_equal.
    rewrite bound_occurrences_app. lia.
Qed.

(** X7. When [instantiate(d)] returns, the result has as many places as
    the tree, and as many constants as the tree plus one for every
    occurrence of a variable that [d] binds. *)
Theorem instantiate_binds_each_occurrence (d : dict) (n n' : Node) :
  instantiate d n = Ok n' ->
  (forall p, places n = Ok p -> places n' = Ok p) /\
  (forall c vs, constantNumber n = Ok c -> getVars n = Ok vs ->
     constantNumber n' = Ok (c + bound_occurrences d vs)).
Proof.
  intros H. split; revert n' H;
    induction n as [t|f|ks fs fstr IH|ks fs IH|b IH|i ks IH]
      using Node_induction; intros n'; simpl;
    try (unfold Filter_instantiate; by rewrite Expr_instantiate_raises).
  - by intros [= <-].
  - destruct IH as [l IH|a IH]; [|by apply IH].
    intros (ts & Hts & [= <-])%bind_Ok. simpl. by eapply sum_loop_places.
  - destruct IH as [l IH|a IH]; [|discriminate].
    intros (ts & Hts & [= <-])%bind_Ok. simpl. by eapply sum_loop_places.
  - intros (b' & Hb & [= <-])%bind_Ok. simpl. by apply IH.
  - destruct IH as [l IH|a IH].
    + intros (ts & Hts & [= <-])%bind_Ok. simpl. by eapply sum_loop_places.
    + intros (a' & Ha & [= <-])%bind_Ok. simpl. by apply IH.
  - intros [= <-] c vs [= <-] [= <-]. simpl. f_equal.
    rewrite Triple_instantiate_args, !Triple_constantNumber_args,
      Triple_getVars_args, !bound_occurrences_app. simpl.
    rewrite !arg_constant_instantiate. lia.
  - destruct IH as [l IH|a IH]; [|by apply IH].
    intros (ts & Hts & [= <-])%bind_Ok c vs Hc Hvs. simpl.
    apply (sum_loop_constants d l ts IH Hts 0 [] c vs Hc Hvs).
  - destruct IH as [l IH|a IH]; [|discriminate].
    intros (ts & Hts & [= <-])%bind_Ok c vs Hc Hvs. simpl.
    apply (sum_loop_constants d l ts IH Hts 0 [] c vs Hc Hvs).
  - intros (b' & Hb & [= <-])%bind_Ok. simpl. by apply IH.
  - destruct IH as [l IH|a IH].
    + intros (ts & Hts & [= <-])%bind_Ok c vs Hc Hvs. simpl.
      apply (sum_loop_constants d l ts IH Hts 0 [] c vs Hc Hvs).
    + intros (a' & Ha & [= <-])%bind_Ok. simpl. by apply IH.
Qed.

Lemma instantiate_binds_each_occurrence_witness :
  (forall p, places star_sp = Ok p ->
     places (NService some_service
      (KList [NTriple (Triple_new (cst "<a>") (cst "<p>") (var "?o"));
              NTriple (Triple_new (cst "<a>") (cst "<b>") (var "?t"))])) = Ok p) /\
  (forall c vs, constantNumber star_sp = Ok c -> getVars star_sp = Ok vs ->
     constantNumber (NService some_service
      (KList [NTriple (Triple_new (cst "<a>") (cst "<p>") (var "?o"));
              NTriple (Triple_new (cst "<a>") (cst "<b>") (var "?t"))]))
     = Ok (c + bound_occurrences {[ "s" := "<a>"; "q" := "<b>" ]} vs)).
Proof.
  apply (instantiate_binds_each_occurrence _ star_sp). by vm_compute.
Defined.

(** No [UnionBlock] among the nodes reached through [triples] and [bgg]. *)
Fixpoint union_free (n : Node) : bool :=
  match n with
  | NTriple _ | NFilter _ => true
  | NJoinBlock (KList l) _ _ => forallb union_free l
  | NJoinBlock (KOne a) _ _ => union_free a
  | NUnionBlock _ _ => false
  | NOptional b => union_free b
  | NService _ (KList l) => forallb union_free l
  | NService _ (KOne a) => union_free a
  end.

Lemma comprehension_union_free (d : dict) (l ts : list Node) :
  Forall (fun x => forall x', instantiate d x = Ok x' -> union_free x' = true) l ->
  comprehension (instantiate d) l = Ok ts -> forallb union_free ts = true.
Proof.
  intros IH. revert ts. induction IH as [|x l Hx _ IH]; intros ts; simpl.
  - by intros [= <-].
  - intros (x' & Hx' & H)%bind_Ok. apply bind_Ok in H as (ts' & Hts' & [= <-]).
    simpl. by rewrite (Hx _ Hx'), (IH _ Hts').
Qed.

(** X8. When [instantiate(d)] returns, no [UnionBlock] is left anywhere in
    the result: every union of the tree has become a [JoinBlock]. *)
Theorem instantiate_leaves_no_union (d : dict) (n n' : Node) :
  instantiate d n = Ok n' -> union_free n' = true.
Proof.
  revert n'. induction n as [t|f|ks fs fstr IH|ks fs IH|b IH|i ks IH]
    using Node_induction; intros n'; simpl.
  - by intros [= <-].
  - unfold Filter_instantiate. by rewrite Expr_instantiate_raises.
  - destruct IH as [l IH|a IH]; [|by apply IH].
    intros (ts & Hts & [= <-])%bind_Ok. simpl.
    by eapply comprehension_union_free.
  - destruct IH as [l IH|a IH]; [|by apply IH].
    intros (ts & Hts & [= <-])%bind_Ok. simpl.
    by eapply comprehension_union_free.
  - intros (b' & Hb & [= <-])%bind_Ok. simpl. by apply IH.
  - destruct IH as [l IH|a IH].
    + intros (ts & Hts & [= <-])%bind_Ok. simpl.
      by eapply comprehension_union_free.
    + intros (a' & Ha & [= <-])%bind_Ok. simpl. by apply IH.
Qed.

Lemma instantiate_leaves_no_union_witness :
  union_free
    (NJoinBlock
       (KList [NJoinBlock (KList [NTriple (Triple_new (cst "<a>") (cst "<p>") (var "?o"))]) [] "";
               NJoinBlock (KList [NTriple (Triple_new (cst "<a>") (cst "<q>") (var "?o"))]) [] ""])
       [] "") = true.
Proof.
  apply (instantiate_leaves_no_union {[ "s" := "<a>" ]} union_of_two).
  by vm_compute.
Defined.

(** ** Places, constants and variables *)

Lemma loops_places (l : list Node) :
  Forall (fun x => forall c p vs, filter_free x = true ->
            constantNumber x = Ok c -> getVars x = Ok vs -> places x = Ok p ->
            c + Z.of_nat (length vs) = p) l ->
  forallb filter_free l = true ->
  forall a acc b c vs p,
    sum_loop constantNumber a l = Ok c -> concat_loop getVars acc l = Ok vs ->
    sum_loop places b l = Ok p ->
    (c - a) + (Z.of_nat (length vs) - Z.of_nat (length acc)) = p - b.
Proof.
  induction 1 as [|x l Hx _ IH]; intros Hff a acc b c vs p.
  - simpl. intros [= ->] [= ->] [= ->]. lia.
  - simpl in Hff. apply andb_true_iff in Hff as [Hfx Hfl].
    intros (n1 & H1 & Hc)%sum_loop_cons (vs1 & Hv1 & Hvs)%bind_Ok
           (n2 & H2 & Hp)%sum_loop_cons.
    specialize (Hx _ _ _ Hfx H1 Hv1 H2).
    specialize (IH Hfl _ _ _ _ _ _ Hc Hvs Hp).
    rewrite length_app in IH. lia.
Qed.

(** X26. On a tree without a [Filter] among its nodes, every place is a
    constant or an occurrence of a variable: whenever the three methods
    return, [places()] is [constantNumber()] plus the length of
    [getVars()]. *)
Theorem places_are_constants_and_variables (n : Node) (c p : Z)
    (vs : list string) :
  filter_free n = true ->
  constantNumber n = Ok c -> getVars n = Ok vs -> places n = Ok p ->
  c + Z.of_nat (length vs) = p.
Proof.
  revert c p vs. induction n as [t|f|ks fs fstr IH|ks fs IH|b IH|i ks IH]
    using Node_induction; intros c p vs; simpl.
  - intros _ [= <-] [= <-] [= <-].
    rewrite Triple_constantNumber_args, Triple_getVars_args.
    unfold arg_vars, Triple_places.
    by destruct (constant (subject t)), (constant (theobject t)),
      (constant (predicate t)).
  - discriminate.
  - destruct IH as [l IH|a IH]; [|by apply IH].
    intros Hff Hc Hv Hp.
    pose proof (loops_places l IH Hff 0 [] 0 c vs p Hc Hv Hp) as H.
    simpl in H. lia.
  - destruct IH as [l IH|a IH]; [|discriminate].
    intros Hff Hc Hv Hp.
    pose proof (loops_places l IH Hff 0 [] 0 c vs p Hc Hv Hp) as H.
    simpl in H. lia.
  - by apply IH.
  - destruct IH as [l IH|a IH]; [|by apply IH].
    intros Hff Hc Hv Hp.
    pose proof (loops_places l IH Hff 0 [] 0 c vs p Hc Hv Hp) as H.
    simpl in H. lia.
Qed.

Lemma places_are_constants_and_variables_witness : 1 + Z.of_nat 5 = 6.
Proof.
  apply (places_are_constants_and_variables star_sp 1 6
           ["?s"; "?o"; "?s"; "?t"; "$q"]); reflexivity.
Defined.

(** ** Selectivity and generality after instantiation *)

Lemma and_loop_forallb {A} (f : A -> bool) (a : bool) (xs : list A) :
  and_loop f a xs = a && forallb f xs.
Proof.
  revert a. induction xs as [|x xs IH]; intros a; simpl.
  - by rewrite andb_true_r.
  - by rewrite IH, andb_assoc.
Qed.

Lemma forallb_instantiated (d : dict) (g : Node -> bool) (l ts : list Node) :
  Forall (fun x => forall x', instantiate d x = Ok x' ->
                              g x' = true -> g x = true) l ->
  comprehension (instantiate d) l = Ok ts ->
  forallb g ts = true -> forallb g l = true.
Proof.
  intros IH. revert ts. induction IH as [|x l Hx _ IH]; intros ts; simpl.
  - done.
  - intros (x' & Hx' & H)%bind_Ok. apply bind_Ok in H as (ts' & Hts' & [= <-]).
    simpl. intros [Hg Hgs]%andb_true_iff.
    by rewrite (Hx _ Hx' Hg), (IH _ Hts' Hgs).
Qed.

Lemma arg_instantiate_variable (d : dict) (a : Argument) :
  constant (arg_instantiate d a) = false -> constant a = false.
Proof.
  unfold arg_instantiate. destruct (constant a) eqn:Ec; simpl; [by rewrite Ec|].
  done.
Qed.

(** X27. Instantiation never makes a pattern less selective: when
    [instantiate(d)] returns a tree on which [allTriplesLowSelectivity()]
    is [True], it is [True] on the original tree as well. *)
Theorem instantiate_keeps_selective (d : dict) (n n' : Node) :
  instantiate d n = Ok n' ->
  allTriplesLowSelectivity n' = true -> allTriplesLowSelectivity n = true.
Proof.
  revert n'. induction n as [t|f|ks fs fstr IH|ks fs IH|b IH|i ks IH]
    using Node_induction; intros n'; simpl.
  - intros [= <-]. simpl. rewrite Triple_instantiate_args.
    unfold Triple_allTriplesLowSelectivity. simpl.
    pose proof (arg_instantiate_variable d (subject t)).
    pose proof (arg_instantiate_variable d (predicate t)).
    pose proof (arg_instantiate_variable d (theobject t)).
    destruct (constant (arg_instantiate d (subject t))),
      (constant (arg_instantiate d (predicate t))),
      (constant (arg_instantiate d (theobject t))); simpl; try done;
      repeat match goal with
             | H : false = false -> _ |- _ => rewrite (H eq_refl)
             end; simpl; by rewrite ?orb_true_r.
  - done.
  - destruct IH as [l IH|a IH]; [|by apply IH].
    intros (ts & Hts & [= <-])%bind_Ok. simpl.
    rewrite !and_loop_forallb. simpl. by eapply forallb_instantiated.
  - destruct IH as [l IH|a IH]; [|by apply IH].
    intros (ts & Hts & [= <-])%bind_Ok. simpl.
    rewrite !and_loop_forallb. simpl. by eapply forallb_instantiated.
  - intros (b' & Hb & [= <-])%bind_Ok. simpl. by apply IH.
  - destruct IH as [l IH|a IH].
    + intros (ts & Hts & [= <-])%bind_Ok. simpl.
      rewrite !and_loop_forallb. simpl.
      intros [H|H]%orb_true_iff; apply orb_true_iff; [left | by right].
      by eapply forallb_instantiated.
    + intros (a' & Ha & [= <-])%bind_Ok. simpl.
      intros [H|H]%orb_true_iff; apply orb_true_iff; [left | by right].
      by eapply IH.
Qed.

Lemma instantiate_keeps_selective_witness :
  allTriplesLowSelectivity star_sp = true.
Proof.
  apply (instantiate_keeps_selective {[ "t" := "<c>" ]} star_sp
           (NService some_service
              (KList [NTriple (Triple_new (var "?s") (cst "<p>") (var "?o"));
                      NTriple (Triple_new (var "?s") (var "$q") (cst "<c>"))])));
    by vm_compute.
Defined.

Lemma sum_loop_zero (d : dict) (l ts : list Node) :
  Forall (fun x => forall x', instantiate d x = Ok x' ->
                              allTriplesGeneral x' = true -> places x' = Ok 0) l ->
  comprehension (instantiate d) l = Ok ts ->
  forallb allTriplesGeneral ts = true -> sum_loop places 0 ts = Ok 0.
Proof.
  intros IH. revert ts. induction IH as [|x l Hx _ IH]; intros ts; simpl.
  - by intros [= <-].
  - intros (x' & Hx' & H)%bind_Ok. apply bind_Ok in H as (ts' & Hts' & [= <-]).
    simpl. intros [Hg Hgs]%andb_true_iff.
    rewrite (Hx _ Hx' Hg). simpl. by apply IH.
Qed.

(** X28. Instantiation forgets which predicates are general: every triple
    pattern it builds has [isGeneral] reset, so when [instantiate(d)]
    returns a tree on which [allTriplesGeneral()] is [True], that tree
    holds no triple pattern at all and [places()] is 0 on it. *)
Theorem instantiate_resets_general (d : dict) (n n' : Node) :
  instantiate d n = Ok n' ->
  allTriplesGeneral n' = true -> places n' = Ok 0.
Proof.
  revert n'. induction n as [t|f|ks fs fstr IH|ks fs IH|b IH|i ks IH]
    using Node_induction; intros n'; simpl.
  - by intros [= <-].
  - unfold Filter_instantiate. by rewrite Expr_instantiate_raises.
  - destruct IH as [l IH|a IH]; [|by apply IH].
    intros (ts & Hts & [= <-])%bind_Ok. simpl.
    rewrite and_loop_forallb. simpl. by eapply sum_loop_zero.
  - destruct IH as [l IH|a IH]; [|by apply IH].
    intros (ts & Hts & [= <-])%bind_Ok. simpl.
    rewrite and_loop_forallb. simpl. by eapply sum_loop_zero.
  - intros (b' & Hb & [= <-])%bind_Ok. simpl. by apply IH.
  - destruct IH as [l IH|a IH].
    + intros (ts & Hts & [= <-])%bind_Ok. simpl.
      rewrite and_loop_forallb. simpl. by eapply sum_loop_zero.
    + intros (a' & Ha & [= <-])%bind_Ok. simpl. by apply IH.
Qed.

Lemma instantiate_resets_general_witness :
  places (NJoinBlock (KList [NService some_service (KList [])]) [] "") = Ok 0.
Proof.
  apply (instantiate_resets_general {[ "s" := "<a>" ]}
           (NUnionBlock (KList [NService some_service (KList [])]) []));
    by vm_compute.
Defined.

(** ** The orders used for sorting *)

(** [Triple.__lt__] reads the three [constant] flags of each side only. *)
Definition flags (t : Triple) : bool * bool * bool :=
  (constant (subject t), constant (predicate t), constant (theobject t)).

Definition of_flags (f : bool * bool * bool) : Triple :=
  let '(s, p, o) := f in
  Triple_new (Argument_new "" s) (Argument_new "" p) (Argument_new "" o).

Lemma Triple_lt_flags (a b : Triple) :
  Triple_lt a b = Triple_lt (of_flags (flags a)) (of_flags (flags b)).
Proof.
  unfold Triple_lt, Triple_constantPercentage, Triple_constantNumber, flags.
  by destruct (constant (subject a)), (constant (predicate a)),
    (constant (theobject a)), (constant (subject b)),
    (constant (predicate b)), (constant (theobject b)).
Qed.

(** X9. [Triple.__lt__] always returns, and is a strict partial order on
    triple patterns: irreflexive, asymmetric and transitive. *)
Theorem Triple_lt_strict_order :
  (forall a b, exists r, Triple_lt a b = Ok r) /\
  (forall a, Triple_lt a a = Ok false) /\
  (forall a b, Triple_lt a b = Ok true -> Triple_lt b a = Ok false) /\
  (forall a b c, Triple_lt a b = Ok true -> Triple_lt b c = Ok true ->
                 Triple_lt a c = Ok true).
Proof.
  split; [|split; [|split]].
  - intros a b. rewrite Triple_lt_flags.
    destruct (flags a) as [[[] []] []], (flags b) as [[[] []] []];
      by eexists.
  - intros a. rewrite Triple_lt_flags. by destruct (flags a) as [[[] []] []].
  - intros a b. rewrite (Triple_lt_flags a b), (Triple_lt_flags b a).
    by destruct (flags a) as [[[] []] []], (flags b) as [[[] []] []].
  - intros a b c.
    rewrite (Triple_lt_flags a b), (Triple_lt_flags b c), (Triple_lt_flags a c).
    destruct (flags a) as [[[] []] []], (flags b) as [[[] []] []];
      try discriminate; by destruct (flags c) as [[[] []] []].
Qed.

Lemma Triple_lt_strict_order_witness :
  Triple_lt (Triple_new (cst "<s>") (cst "<p>") (var "?o"))
            (Triple_new (var "?s") (var "?p") (var "?o")) = Ok true.
Proof.
  refine (proj2 (proj2 (proj2 Triple_lt_strict_order))
    (Triple_new (cst "<s>") (cst "<p>") (var "?o"))
    (Triple_new (var "?s") (cst "<p>") (cst "<o>"))
    (Triple_new (var "?s") (var "?p") (var "?o")) _ _); reflexivity.
Defined.

Lemma before_total aS aP aO aN ap bS bP bO bN bp :
  before aS aP aO aN ap bS bP bO bN bp \/ before bS bP bO bN bp aS aP aO aN ap.
Proof.
  unfold before.
  destruct (Z.lt_trichotomy (aS + aP) (bS + bP)) as [?|[?|?]];
    [right; left; lia| |left; left; lia].
  destruct (Z.lt_trichotomy aS bS) as [?|[?|?]];
    [right; right; split; [lia|]; left; lia|
    |left; right; split; [lia|]; left; lia].
  destruct (Z.lt_trichotomy (aO + aP) (bO + bP)) as [?|[?|?]];
    [right; right; split; [lia|]; right; split; [lia|]; left; lia|
    |left; right; split; [lia|]; right; split; [lia|]; left; lia].
  destruct (Z.lt_trichotomy aO bO) as [?|[?|?]];
    [right; do 3 (right; split; [lia|]); left; lia|
    |left; do 3 (right; split; [lia|]); left; lia].
  destruct (Q_dec ap bp) as [[?|?]|Heq].
  - right. do 4 (right; split; [lia|]). by left.
  - left. do 4 (right; split; [lia|]). by left.
  - destruct (Z.le_gt_cases aN bN).
    + right. do 4 (right; split; [lia|]). right. by split.
    + left. do 4 (right; split; [lia|]). right. split; [by symmetry | lia].
Qed.

(** A service over triple patterns only. *)
Definition star (i : ServiceInfo) (ts : list Triple) : Node :=
  NService i (KList (map NTriple ts)).

Lemma sum_loop_triples (g : Node -> result Z) (h : Triple -> Z) ts p :
  (forall t, g (NTriple t) = Ok (h t)) ->
  exists r, sum_loop g p (map NTriple ts) = Ok r.
Proof.
  intros Hg. revert p. induction ts as [|t ts IH]; intros p; simpl.
  - by eexists.
  - rewrite Hg. simpl. apply IH.
Qed.

Lemma star_counted i ts : counted (star i ts).
Proof.
  unfold counted, star.
  destruct (sum_loop_triples const_subjects Triple_const_subjects ts 0)
    as [S HS]; [done|].
  destruct (sum_loop_triples const_predicates Triple_const_predicates ts 0)
    as [P HP]; [done|].
  destruct (sum_loop_triples const_objects Triple_const_objects ts 0)
    as [O HO]; [done|].
  destruct (sum_loop_triples constantNumber Triple_constantNumber ts 0)
    as [N HN]; [done|].
  destruct (sum_loop_triples places Triple_places ts 0) as [p Hp]; [done|].
  exists S, P, O, N. simpl. rewrite HS, HP, HO, HN, Hp. simpl.
  destruct (Z.eqb_spec p 0) as [->|Hne].
  - exists 0%Q. by repeat split.
  - rewrite ?HN. simpl. rewrite ?Hp. simpl. unfold truediv.
    destruct (Z.eqb_spec p 0); [done|]. eexists. by repeat split.
Qed.

(** X10. On services whose counting methods return, as they do on every
    service over triple patterns, [Service.__lt__] is a total preorder:
    reflexive, total and transitive. *)
Theorem Service_lt_total_preorder (a b c : Node) :
  counted a -> counted b -> counted c ->
  Service_lt a a = Ok true /\
  (Service_lt a b = Ok true \/ Service_lt b a = Ok true) /\
  (Service_lt a b = Ok true -> Service_lt b c = Ok true ->
   Service_lt a c = Ok true).
Proof.
  intros Ha Hb Hc. split; [by apply Service_lt_refl|].
  split; [|by apply Service_lt_trans].
  destruct Ha as (aS & aP & aO & aN & ap & A1 & A2 & A3 & A4 & A5).
  destruct Hb as (bS & bP & bO & bN & bp & B1 & B2 & B3 & B4 & B5).
  destruct (Service_lt_before a b _ _ _ _ _ _ _ _ _ _ A1 A2 A3 A4 A5 B1 B2 B3 B4 B5)
    as (x & Hx & Hxb).
  destruct (Service_lt_before b a _ _ _ _ _ _ _ _ _ _ B1 B2 B3 B4 B5 A1 A2 A3 A4 A5)
    as (y & Hy & Hyb).
  rewrite Hx, Hy.
  destruct (before_total aS aP aO aN ap bS bP bO bN bp) as [H|H].
  - left. f_equal. by apply Hxb.
  - right. f_equal. by apply Hyb.
Qed.

Lemma Service_lt_total_preorder_witness :
  Service_lt service_S1 service_S1 = Ok true /\
  (Service_lt service_S1 service_S2 = Ok true \/
   Service_lt service_S2 service_S1 = Ok true) /\
  (Service_lt service_S1 service_S2 = Ok true ->
   Service_lt service_S2 (star some_service []) = Ok true ->
   Service_lt service_S1 (star some_service []) = Ok true).
Proof.
  apply (Service_lt_total_preorder service_S1 service_S2 (star some_service []));
    [apply (star_counted some_service [_]) | apply (star_counted some_service [_; _])
    | apply (star_counted some_service [])].
Defined.

(** ** Variables *)

Lemma concat_loop_sublist (l : list Node) :
  Forall (fun x => forall vs, getVars x = Ok vs ->
            exists ps, getPredVars x = Ok ps /\ sublist ps vs) l ->
  forall acc acc' vs, sublist acc' acc -> concat_loop getVars acc l = Ok vs ->
    exists ps, concat_loop getPredVars acc' l = Ok ps /\ sublist ps vs.
Proof.
  induction 1 as [|x l Hx _ IH]; intros acc acc' vs Hacc; simpl.
  - intros [= <-]. by exists acc'.
  - intros (vs1 & H1 & Hvs)%bind_Ok. destruct (Hx _ H1) as (ps1 & -> & Hs).
    simpl. apply (IH (acc ++ vs1)); [by apply sublist_app | done].
Qed.

(** X11. Whenever [getVars] returns on a tree, so does [getPredVars], and
    the predicate variables are a subsequence of the variables. *)
Theorem getPredVars_within_getVars (n : Node) (vs : list string) :
  getVars n = Ok vs -> exists ps, getPredVars n = Ok ps /\ sublist ps vs.
Proof.
  revert vs. induction n as [t|f|ks fs fstr IH|ks fs IH|b IH|i ks IH]
    using Node_induction; intros vs; simpl.
  - intros [= <-]. eexists. split; [done|]. unfold Triple_getVars.
    apply sublist_inserts_l. done.
  - intros _. eexists. split; [done|]. apply sublist_nil_l.
  - destruct IH as [l IH|a IH]; [|by apply IH].
    by apply (concat_loop_sublist l IH [] []).
  - destruct IH as [l IH|a IH]; [|discriminate].
    by apply (concat_loop_sublist l IH [] []).
  - apply IH.
  - destruct IH as [l IH|a IH]; [|by apply IH].
    by apply (concat_loop_sublist l IH [] []).
Qed.

Lemma getPredVars_within_getVars_witness :
  exists ps, getPredVars star_sp = Ok ps /\ sublist ps ["?s"; "?o"; "?s"; "?t"; "$q"].
Proof. apply (getPredVars_within_getVars star_sp). reflexivity. Defined.

(** ** [SPARQL.nest] *)

Fixpoint leaves {A} (t : nested A) : list A :=
  match t with
  | Leaf a => [a]
  | Pair x y => leaves x ++ leaves y
  end.

Definition all_leaves {A} (l : list (nested A)) : list A :=
  concat (map leaves l).

Lemma pair_up_spec {A} (r : list (nested A)) :
  all_leaves (pair_up r) = all_leaves r /\
  (2 * length (pair_up r) <= length r + 1)%nat /\
  (r <> [] -> pair_up r <> []).
Proof.
  induction r as [r IH] using (induction_ltof1 _ (@length _)).
  unfold ltof in IH.
  destruct r as [|x [|y r]]; simpl;
    [split; [done | split; [lia | done]] ..|].
  destruct (IH r) as (Hl & Hn & _); [simpl; lia|].
  unfold all_leaves in *. simpl. rewrite Hl, <- app_assoc.
  split; [done|]. split; [lia | done].
Qed.

Lemma all_leaves_rev {A} (l : list (nested A)) :
  all_leaves (rev l) ≡ₚ all_leaves l.
Proof.
  unfold all_leaves. induction l as [|x l IH]; simpl; [done|].
  rewrite map_app, concat_app, IH. simpl. rewrite app_nil_r.
  apply Permutation_app_comm.
Qed.

Lemma rounds_spec {A} (fuel : nat) (l0 : list (nested A)) :
  (length l0 <= S fuel)%nat -> l0 <> [] ->
  exists t, rounds fuel l0 = [t] /\ leaves t ≡ₚ all_leaves l0.
Proof.
  revert l0. induction fuel as [|fuel IH]; intros l0 Hlen Hne.
  - destruct l0 as [|t [|? ?]]; simpl in *; [done| |lia].
    exists t. split; [done|]. unfold all_leaves. simpl. by rewrite app_nil_r.
  - simpl. destruct (Z.ltb_spec 1 (Z.of_nat (length l0))) as [Hgt|Hle].
    + destruct (pair_up_spec (rev l0)) as (Hl & Hn & Hnn).
      rewrite length_rev in Hn.
      destruct (IH (pair_up (rev l0))) as (t & Ht & Hp).
      * lia.
      * apply Hnn. intros Hr. apply (f_equal (@length _)) in Hr.
        rewrite length_rev in Hr. simpl in Hr. lia.
      * exists t. split; [done|]. by rewrite Hp, Hl, all_leaves_rev.
    + destruct l0 as [|t [|? ?]]; simpl in *; [done| |lia].
      exists t. split; [done|]. unfold all_leaves. simpl. by rewrite app_nil_r.
Qed.

Lemma all_leaves_Leaf {A} (l : list A) : all_leaves (map Leaf l) = l.
Proof.
  unfold all_leaves. induction l as [|a l IH]; simpl; [done | by rewrite IH].
Qed.

(** X12. [nest] returns [None] on the empty list only; on any other list
    it returns a nesting of pairs whose leaves are the elements of the
    list, each as often as it occurs in the list. *)
Theorem nest_keeps_the_elements {A} (l : list A) :
  match nest l with
  | None => l = []
  | Some t => l <> [] /\ leaves t ≡ₚ l
  end.
Proof.
  unfold nest. destruct l as [|a l]; [done|].
  destruct (rounds_spec (length (a :: l)) (map Leaf (a :: l)))
    as (t & -> & Hp); [rewrite length_map; lia | done |].
  split; [done|]. by rewrite Hp, all_leaves_Leaf.
Qed.

End ModelLaws.

(** * More on the term-map translation *)

Module TermMap2SQLLaws.
Import Model TermMap2SQL TermMap2SQLProps.

Ltac in_list := solve [ left | right; left | right; right; left ].

Lemma concat_or_column_result tm expr a s :
  (expr = [] /\ concat_or_column tm expr a s = Raise IndexError) \/
  (expr <> [] /\ exists term, concat_or_column tm expr a s = Ok term).
Proof.
  destruct expr as [|e0 [|e1 expr]]; [left | right | right]; split; try done;
    by eexists.
Qed.

Lemma get_sql_term_shape (tm : TermMap) (a s : option string)
    (term : option SQLTerm) (tpl : dict) :
  get_sql_term tm a s = Ok (term, tpl) ->
  dom tpl = {[ "type"; "value" ]} /\
  (exists ty, tpl !! "type" = Some ty /\ ty ∈ ["uri"; "literal"; "bnode"]) /\
  tpl !! "value"
    = Some (match resource_type tm with CONSTANT => value tm | _ => "" end) /\
  (term = None <->
   resource_type tm = CONSTANT \/
   (resource_type tm = TEMPLATE /\ split_template tm = [])).
Proof.
  destruct tm as [v rt tt cols split]. unfold get_sql_term.
  cbn [resource_type term_type split_template value].
  destruct rt.
  - destruct split as [|first others].
    + cbn [bind]. intros [= <- <-]. split; [by vm_compute|].
      split; [exists "uri"; split; [done | in_list]|].
      split; [done|]. split; [by right | done].
    + case_bool_decide as Hb.
      * destruct first as [|f0 frest]; [done|]. cbn [bind].
        match goal with
        | |- context [concat_or_column ?t ?e ?a ?s] =>
            destruct (concat_or_column_result t e a s)
              as [[_ ->]|[_ [x ->]]]; [done|]
        end.
        cbn [bind]. intros [= <- <-]. split; [by vm_compute|].
        split; [exists "bnode"; split; [done | in_list]|].
        split; [done|]. split; [done | by intros [?|[_ ?]]].
      * cbn [bind].
        match goal with
        | |- context [concat_or_column ?t ?e ?a ?s] =>
            destruct (concat_or_column_result t e a s)
              as [[_ ->]|[_ [x ->]]]; [done|]
        end.
        cbn [bind]. intros [= <- <-]. split; [by vm_compute|].
        split; [exists "uri"; split; [done | in_list]|].
        split; [done|]. split; [done | by intros [?|[_ ?]]].
  - destruct tt.
    + intros [= <- <-]. split; [by vm_compute|].
      split; [exists "uri"; split; [done | in_list]|].
      split; [done|]. split; [done | by intros [?|[? _]]].
    + intros [= <- <-]. split; [by vm_compute|].
      split; [exists "literal"; split; [done | in_list]|].
      split; [done|]. split; [done | by intros [?|[? _]]].
    + match goal with
      | |- context [concat_or_column ?t ?e ?a ?s] =>
          destruct (concat_or_column_result t e a s)
            as [[_ ->]|[_ [x ->]]]; [done|]
      end.
      cbn [bind]. intros [= <- <-]. split; [by vm_compute|].
      split; [exists "bnode"; split; [done | in_list]|].
      split; [done|]. split; [done | by intros [?|[? _]]].
  - intros [= <- <-]. split.
    + destruct tt;
        by rewrite !dom_insert_L, dom_empty_L, (right_id_L ∅ (∪)).
    + split.
      * destruct tt; [exists "uri" | exists "literal" | exists "bnode"];
          (split; [apply lookup_insert_eq | in_list]).
      * split; [|split; [by left | done]].
        destruct tt; rewrite lookup_insert_ne by done; apply lookup_insert_eq.
Qed.

(** X23. Whenever [get_sql_term] returns, the result template has exactly
    the keys [type] and [value]; the type is one of [uri], [literal] and
    [bnode], the value is the term map's for a constant term map and empty
    otherwise, and there is no SQL term exactly for a constant term map
    and for a template with no segment. *)
Theorem get_sql_term_template (tm : TermMap) (a s : option string)
    (term : option SQLTerm) (tpl : dict) :
  get_sql_term tm a s = Ok (term, tpl) ->
  dom tpl = {[ "type"; "value" ]} /\
  (exists ty, tpl !! "type" = Some ty /\ ty ∈ ["uri"; "literal"; "bnode"]) /\
  tpl !! "value"
    = Some (match resource_type tm with CONSTANT => value tm | _ => "" end) /\
  (term = None <->
   resource_type tm = CONSTANT \/
   (resource_type tm = TEMPLATE /\ split_template tm = [])).
Proof. apply get_sql_term_shape. Qed.

Definition city_template : TermMap :=
  mkTermMap "http://hello.us/City/{name}" TEMPLATE IRI ["name"]
            [["http://hello.us/City/"; "name"]].

Lemma get_sql_term_template_witness :
  dom ({[ "type" := "uri"; "value" := "" ]} : dict) = {[ "type"; "value" ]} /\
  (exists ty, ({[ "type" := "uri"; "value" := "" ]} : dict) !! "type" = Some ty /\
              ty ∈ ["uri"; "literal"; "bnode"]) /\
  ({[ "type" := "uri"; "value" := "" ]} : dict) !! "value"
    = Some (match resource_type city_template with
            | CONSTANT => value city_template | _ => "" end) /\
  (Some (SQLFunction "CONCAT" ["'http://hello.us/City/'"; "`name`"]
           [mkSQLColumn "`name`" None None]) = None <->
   resource_type city_template = CONSTANT \/
   (resource_type city_template = TEMPLATE /\ split_template city_template = [])).
Proof.
  apply (get_sql_term_template city_template None None). by vm_compute.
Defined.

Lemma get_sql_term_raises tm a s e :
  get_sql_term tm a s = Raise e -> e = IndexError.
Proof.
  destruct tm as [v rt tt cols split]. unfold get_sql_term.
  cbn [resource_type term_type split_template value].
  destruct rt; [| destruct tt | done]; try done.
  - destruct split as [|first others]; [done|].
    case_bool_decide as Hb.
    + destruct first as [|f0 frest]; [by intros [= <-]|]. cbn [bind].
      match goal with
      | |- context [concat_or_column ?t ?e ?a ?s] =>
          destruct (concat_or_column_result t e a s)
            as [[_ ->]|[_ [x ->]]]; [by intros [= <-] | done]
      end.
    + cbn [bind].
      match goal with
      | |- context [concat_or_column ?t ?e ?a ?s] =>
          destruct (concat_or_column_result t e a s)
            as [[_ ->]|[_ [x ->]]]; [by intros [= <-] | done]
      end.
Qed.

Lemma get_expr_nonempty (first : list string) (others : list (list string)) :
  first <> [] -> get_expr (first :: others) <> [].
Proof.
  destruct first as [|t0 [|t1 rest]]; [done | done |]. intros _. simpl.
  by destruct (0 <? Z.of_nat (String.length t0)).
Qed.

(** The template of a term map is split into segments of a prefix and,
    but for the last one, a column: no segment is empty. *)
Definition well_split (tm : TermMap) : Prop :=
  Forall (fun segment => segment <> []) (split_template tm).

(** X24. The constructor raises no exception but [IndexError] (the lookup
    of [value] in the result template cannot fail); it returns whenever
    no segment of the template is empty and the RDF term is a variable, is
    compared with a blank node, or has a non-empty name. *)
Theorem init_returns_or_raises_IndexError (tm : TermMap) (rdf : Argument)
    (opr : string) (alias sch : option string) :
  (forall e, init tm rdf opr alias sch = Raise e -> e = IndexError) /\
  (well_split tm ->
   constant rdf = false \/ term_type tm = BNode \/ name rdf <> EmptyString ->
   exists self, init tm rdf opr alias sch = Ok self).
Proof.
  split.
  - intros e. unfold init.
    destruct (get_sql_term tm alias sch) as [[term0 tpl]|e0] eqn:Et;
      [|intros [= <-]; by eapply get_sql_term_raises].
    cbn [bind].
    destruct (constant rdf) eqn:Ec; [|done].
    unfold get_filter_condition. cbn [rdf_term term_map]. rewrite Ec.
    cbn [negb].
    destruct (get_sql_term_shape tm alias sch term0 tpl Et)
      as (_ & _ & Hv & _).
    case_bool_decide as Hb.
    + destruct (name rdf) as [|c n]; [by intros [= <-]|]. simpl.
      destruct (bool_decide _); simpl; destruct term0; simpl; try done;
        rewrite Hv; simpl; destruct (String.eqb opr "="); try done;
        by destruct (String.eqb _ _).
    + simpl. destruct term0; simpl; [done|]. rewrite Hv. simpl.
      destruct (String.eqb opr "="); [|done]. by destruct (String.eqb _ _).
  - intros Hsplit Hrdf. unfold init.
    assert (Hterm : exists r, get_sql_term tm alias sch = Ok r).
    { destruct (get_sql_term tm alias sch) as [r|e] eqn:Et; [by eexists|].
      exfalso. revert Et. unfold well_split in Hsplit.
      destruct tm as [v rt tt cols split]. unfold get_sql_term.
      cbn [resource_type term_type split_template value] in *.
      destruct rt; [| destruct tt | done]; try done.
      destruct split as [|first others]; [done|].
      apply Forall_cons in Hsplit as [Hfirst _].
      case_bool_decide as Hb.
      - destruct first as [|f0 frest]; [done|]. cbn [bind].
        match goal with
        | |- context [concat_or_column ?t ?e ?a ?s] =>
            destruct (concat_or_column_result t e a s)
              as [[Hnil _]|[_ [x ->]]]; [|done]
        end.
        by apply get_expr_nonempty in Hnil.
      - cbn [bind].
        match goal with
        | |- context [concat_or_column ?t ?e ?a ?s] =>
            destruct (concat_or_column_result t e a s)
              as [[Hnil _]|[_ [x ->]]]; [|done]
        end.
        by apply get_expr_nonempty in Hnil. }
    destruct Hterm as [[term0 tpl] Et]. rewrite Et. cbn [bind].
    destruct (constant rdf) eqn:Ec; [|by eexists].
    destruct (get_sql_term_shape tm alias sch term0 tpl Et)
      as (_ & _ & Hv & _).
    assert (Hfc : exists fc,
      get_filter_condition (mkT tm rdf opr alias sch term0 tpl None None)
      = Ok fc).
    { unfold get_filter_condition. cbn [rdf_term term_map]. rewrite Ec.
      cbn [negb].
      case_bool_decide as Hb.
      - destruct Hrdf as [?|[?|Hn]]; [done | done |].
        destruct (name rdf) as [|c n]; [done|]. simpl.
        destruct (bool_decide _); simpl; destruct term0; simpl;
          try (by eexists);
          rewrite Hv; simpl; destruct (String.eqb opr "="); try (by eexists);
          destruct (String.eqb _ _); by eexists.
      - simpl. destruct term0; simpl; [by eexists|]. rewrite Hv. simpl.
        destruct (String.eqb opr "="); [|by eexists].
        destruct (String.eqb _ _); by eexists. }
    destruct Hfc as [fc ->]. by eexists.
Qed.

Lemma init_returns_or_raises_IndexError_witness :
  exists self,
    init city_template (Argument_new "<http://hello.us/City/Addis>" true) "="
         None None = Ok self.
Proof.
  refine (proj2 (init_returns_or_raises_IndexError city_template
                   (Argument_new "<http://hello.us/City/Addis>" true) "="
                   None None) _ _).
  - constructor; [discriminate | constructor].
  - right. right. discriminate.
Defined.

(** The value a constant term map is compared with: the name of the term
    as it is for a blank node; otherwise the name, without its first and
    last character if it opens with a quote or [<], between single
    quotes. *)
Definition compared (tt : TermType) (n : string) : string :=
  match tt with
  | BNode => n
  | _ => match n with
         | String c _ =>
             if bool_decide (c ∈ [dquote; "<"%char; squote])
             then sq (slice_1_m1 n) else sq n
         | EmptyString => sq n
         end
  end.

(** X25. For a constant term map and a constant term compared with [=],
    the filter is dropped exactly when the value of the term map is the
    compared value, and is the false condition otherwise: for a term map
    that is no blank node, a value matches only if it is itself written
    between single quotes. *)
Theorem constant_filter_dropped_iff (v : string) (tt : TermType)
    (cols : list string) (split : list (list string)) (n : string) :
  tt = BNode \/ n <> EmptyString ->
  filter_of (mkTermMap v CONSTANT tt cols split) (Argument_new n true) "="
  = Ok (if String.eqb v (compared tt n) then None
        else Some (AndCondition [Condition1 OFalse])) /\
  (tt <> BNode ->
   filter_of (mkTermMap v CONSTANT tt cols split) (Argument_new n true) "="
   = Ok None -> exists x, v = sq x).
Proof.
  intros Hn.
  assert (Hmain :
    filter_of (mkTermMap v CONSTANT tt cols split) (Argument_new n true) "="
    = Ok (if String.eqb v (compared tt n) then None
          else Some (AndCondition [Condition1 OFalse]))).
  { unfold filter_of, init, get_sql_term. simpl.
    unfold get_filter_condition. simpl.
    assert (Hlook :
      (match tt with
       | IRI => <["type" := "uri"]> (<["value" := v]> (∅ : dict))
       | Literal => <["type" := "literal"]> (<["value" := v]> ∅)
       | BNode => <["type" := "bnode"]> (<["value" := v]> ∅)
       end : dict) !! "value" = Some v).
    { destruct tt; rewrite lookup_insert_ne by done; apply lookup_insert_eq. }
    case_bool_decide as Hb.
    - destruct Hn as [->|Hn]; [done|].
      destruct n as [|c n']; [done|]. simpl.
      assert (Hc : compared tt (String c n')
                   = if bool_decide (c ∈ [dquote; "<"%char; squote])
                     then sq (slice_1_m1 (String c n')) else sq (String c n'))
        by (by destruct tt).
      rewrite Hc.
      destruct (bool_decide _); simpl; rewrite Hlook;
        by destruct (String.eqb v _).
    - assert (tt = BNode) as -> by (by destruct tt).
      simpl. rewrite Hlook. simpl. by destruct (String.eqb v n). }
  split; [exact Hmain|].
  intros Htt. rewrite Hmain.
  destruct (String.eqb v (compared tt n)) eqn:Ev; [|done].
  intros _. apply String.eqb_eq in Ev. subst v.
  destruct tt; [|  |done]; simpl; destruct n as [|c n']; try (by eexists);
    destruct (bool_decide _); by eexists.
Qed.

Lemma constant_filter_dropped_iff_witness :
  filter_of (mkTermMap "'Addis Ababa'" CONSTANT Literal [] [])
            (Argument_new (quoted "Addis Ababa") true) "="
  = Ok (if String.eqb "'Addis Ababa'" (compared Literal (quoted "Addis Ababa"))
        then None else Some (AndCondition [Condition1 OFalse])) /\
  (Literal <> BNode ->
   filter_of (mkTermMap "'Addis Ababa'" CONSTANT Literal [] [])
             (Argument_new (quoted "Addis Ababa") true) "="
   = Ok None -> exists x, "'Addis Ababa'" = sq x).
Proof.
  apply (constant_filter_dropped_iff "'Addis Ababa'" Literal [] []
           (quoted "Addis Ababa")).
  right. discriminate.
Defined.

End TermMap2SQLLaws.

(** * More on the projection operator *)

Module XprojectLaws.
Import Model Xproject XprojectProps.

Lemma while_loop_no_vars (self : t) (ts : list dict) :
  vars self = [] ->
  forall (tp : dict) (rest : list msg) (i : Z) (out : list msg),
  while_loop self (Tuple tp) (map Tuple ts ++ EOF :: rest) i out
  = Ok (out ++ map Tuple (tp :: ts) ++ [EOF], rest).
Proof.
  intros Hv. induction ts as [|t' ts IH]; intros tp rest i out.
  - destruct rest; simpl; rewrite Hv; simpl; by rewrite <- app_assoc.
  - cbn [map app]. cbn [while_loop]. rewrite Hv. cbn [length Z.of_nat Z.eqb].
    rewrite IH. by rewrite <- app_assoc.
Qed.

(** X20. With an empty projection list the operator forwards every input
    mapping as it is, up to EOF, whatever the limit: the limit is only
    counted on the projecting path. *)
Theorem execute_without_vars_forwards_all (self : t) (ts : list dict)
    (rest : list msg) :
  vars self = [] ->
  execute self (map Tuple ts ++ EOF :: rest) = Ok (map Tuple ts ++ [EOF], rest).
Proof.
  intros Hv. destruct ts as [|tp ts]; [by destruct rest|].
  cbn [map app execute]. by rewrite while_loop_no_vars.
Qed.

Lemma execute_without_vars_forwards_all_witness :
  execute (mkT [] 1) (map Tuple scenario_tuples ++ [EOF])
  = Ok (map Tuple scenario_tuples ++ [EOF], []).
Proof.
  apply (execute_without_vars_forwards_all (mkT [] 1) scenario_tuples []).
  reflexivity.
Defined.

Lemma while_loop_no_vars_blocks (self : t) (ts : list dict) :
  vars self = [] ->
  forall (tp : dict) (i : Z) (out : list msg),
  while_loop self (Tuple tp) (map Tuple ts) i out = Raise QueueBlocked.
Proof.
  intros Hv. induction ts as [|t' ts IH]; intros tp i out; simpl; rewrite Hv;
    simpl; [done | apply IH].
Qed.

Lemma run_blocks (self : t) (ts : list dict) :
  vars self <> [] ->
  forall (i : Z) (out : list msg),
  (limit self <= 0 \/ i + Z.of_nat (length ts) < limit self) ->
  run self (map Tuple ts) i out = Raise QueueBlocked.
Proof.
  intros Hv. induction ts as [|tp ts IH]; intros i out Hl; [done|].
  change (run self (map Tuple (tp :: ts)) i out)
    with (while_loop self (Tuple tp) (map Tuple ts) i out).
  rewrite while_loop_tuple by exact Hv. cbv zeta.
  assert (Ec : (0 <? limit self) && (limit self <=? i + 1) = false).
  { destruct Hl as [Hl|Hl].
    - assert (E0 : (0 <? limit self) = false) by (apply Z.ltb_ge; lia).
      by rewrite E0.
    - cbn [length] in Hl. assert (E1 : (limit self <=? i + 1) = false)
        by (apply Z.leb_gt; lia).
      by rewrite E1, andb_false_r. }
  rewrite Ec. apply IH. destruct Hl as [Hl|Hl]; [by left | right].
  cbn [length] in Hl. lia.
Qed.

Lemma run_limit (self : t) (rest : list msg) :
  vars self <> [] -> 0 < limit self ->
  forall (ts : list dict) (i : Z) (out : list msg),
  0 <= i < limit self -> limit self - i <= Z.of_nat (length ts) ->
  run self (map Tuple ts ++ rest) i out
  = Ok (out ++ map (fun tp => Tuple (project (vars self) tp))
                   (take (Z.to_nat (limit self - i)) ts) ++ [EOF],
        drop (Z.to_nat (limit self - i)) (map Tuple ts) ++ rest).
Proof.
  intros Hv Hpos. induction ts as [|tp ts IH]; intros i out Hi Hle.
  - simpl in Hle. lia.
  - change (run self (map Tuple (tp :: ts) ++ rest) i out)
      with (while_loop self (Tuple tp) (map Tuple ts ++ rest) i out).
    rewrite while_loop_tuple by exact Hv. cbv zeta.
    assert (E1 : (0 <? limit self) = true) by (apply Z.ltb_lt; lia).
    rewrite E1. simpl andb.
    destruct (Z.leb_spec (limit self) (i + 1)) as [Hlast|Hmore].
    + replace (limit self - i) with 1 by lia. simpl. by rewrite <- app_assoc.
    + rewrite IH by (simpl in Hle; lia).
      replace (Z.to_nat (limit self - i))
        with (S (Z.to_nat (limit self - (i + 1)))) by lia.
      simpl. by rewrite <- app_assoc.
Qed.

(** X21. On an input queue that delivers mappings but no EOF, the operator
    stops only by its limit: it blocks when the limit is not positive,
    when fewer mappings than the limit arrive, or when the projection list
    is empty; once a positive limit is reached it returns without reading
    any further, whatever follows on the queue. *)
Theorem execute_without_EOF (self : t) (ts : list dict) (rest : list msg) :
  (limit self <= 0 \/ Z.of_nat (length ts) < limit self \/ vars self = [] ->
   execute self (map Tuple ts) = Raise QueueBlocked) /\
  (vars self <> [] -> 0 < limit self <= Z.of_nat (length ts) ->
   execute self (map Tuple ts ++ rest)
   = Ok (map (fun tp => Tuple (project (vars self) tp))
             (take (Z.to_nat (limit self)) ts) ++ [EOF],
         drop (Z.to_nat (limit self)) (map Tuple ts) ++ rest)).
Proof.
  split.
  - intros Hl.
    destruct (decide (vars self = [])) as [Hv|Hv].
    + destruct ts as [|tp ts]; [done|]. by apply while_loop_no_vars_blocks.
    + change (execute self (map Tuple ts)) with (run self (map Tuple ts) 0 []).
      apply run_blocks; [done|]. rewrite Z.add_0_l.
      destruct Hl as [?|[?|?]]; [by left | by right | done].
  - intros Hv [Hpos Hle].
    change (execute self (map Tuple ts ++ rest))
      with (run self (map Tuple ts ++ rest) 0 []).
    rewrite run_limit by (done || lia). by rewrite Z.sub_0_r.
Qed.

Lemma execute_without_EOF_witness :
  execute scenario_op (map Tuple (take 1 scenario_tuples)) = Raise QueueBlocked /\
  execute scenario_op (map Tuple scenario_tuples ++ [])
  = Ok (map (fun tp => Tuple (project (vars scenario_op) tp))
            (take 2 scenario_tuples) ++ [EOF],
        drop 2 (map Tuple scenario_tuples) ++ []).
Proof.
  split.
  - apply (proj1 (execute_without_EOF scenario_op (take 1 scenario_tuples) [])).
    right. left. simpl. lia.
  - apply (proj2 (execute_without_EOF scenario_op scenario_tuples []));
      [discriminate | simpl; lia].
Defined.

(** X22. Projecting on variables among those of an earlier projection
    gives what projecting the input on them gives: the mapping an
    [Xproject] over [ws] emits for a mapping emitted by an [Xproject] over
    [vs] is the one it emits for the input of the latter.  In particular
    projecting twice on the same variables changes nothing. *)
Theorem project_after_project (vs ws : list Argument) (tp : dict) :
  stripped ws ⊆ stripped vs ->
  project_loop ws (project_loop vs tp ∅) ∅ = project_loop ws tp ∅.
Proof.
  intros Hsub. apply map_eq. intros key.
  rewrite !project_loop_lookup.
  case_bool_decide as Hk; [|done].
  rewrite (bool_decide_eq_true_2 (key ∈ stripped vs)) by (by apply Hsub).
  done.
Qed.

Lemma project_after_project_witness :
  project_loop [Argument_new "?a" false]
    (project_loop [Argument_new "?a" false; Argument_new "?b" false]
       {[ "a" := "1"; "b" := "2"; "c" := "3" ]} ∅) ∅
  = project_loop [Argument_new "?a" false] {[ "a" := "1"; "b" := "2"; "c" := "3" ]} ∅.
Proof.
  apply (project_after_project
           [Argument_new "?a" false; Argument_new "?b" false]
           [Argument_new "?a" false]).
  intros x Hx. apply elem_of_cons. left.
  by apply list_elem_of_singleton in Hx.
Defined.

End XprojectLaws.

(** * The nested-loop optional as a function of its input *)

Module NestedLoopOptionalLaws.
Import NestedLoopOptional NestedLoopOptionalProps.

(** ** A reference: the cache, the output and the calls, with no heap, no
    hash and no clock *)

Record served : Type := mkServed {
  cache : list dict;          (* the mappings of the right table *)
  outs : list dict;           (* the mappings put on the output queue *)
  asked : list (list string * list string)   (* the calls of the source *)
}.

(** One left mapping [l]: the cached mappings that join with it are
    combined with it; if there is none the source is asked, and its
    answers (or the padded left mapping) are cached and emitted. *)
Definition serve (right : RemoteSource) (var : list string) (st : served)
    (l : dict) : served :=
  match filter (fun r => matches var l r = true) (cache st) with
  | [] =>
      let rts := default [] (until_EOF (remote_execute right (length (asked st))
                                          var (instances_of var l))) in
      let news := cached right var l rts in
      mkServed (cache st ++ news) (outs st ++ map (fun r => l ∪ r) news)
               (asked st ++ [(var, instances_of var l)])
  | hs => mkServed (cache st) (outs st ++ map (fun r => r ∪ l) hs) (asked st)
  end.

Definition reference (right : RemoteSource) (var : list string)
    (ls : list dict) : served :=
  foldl (serve right var) (mkServed [] [] []) ls.

Lemma reference_snoc right var ls l :
  reference right var (ls ++ [l]) = serve right var (reference right var ls) l.
Proof. unfold reference. by rewrite foldl_app. Qed.

(** The operator [s] after the left mappings [done] agrees with the
    reference. *)
Record Agrees (E : Env) (right : RemoteSource) (var : list string) (k : nat)
    (done : list dict) (s : t) : Prop := mkAgrees {
  a_clocked : Clocked E s;
  a_binds : Forall (binds var) (cache (reference right var done));
  a_outs : oviews s = outs (reference right var done);
  a_calls : calls s = asked (reference right var done);
  a_cache : forall n, rviews s n
            = filter (fun r => index_of E var k r = n)
                     (cache (reference right var done))
}.

Lemma hits_cache E right var k done s l :
  Agrees E right var k done s ->
  hits E var k s l
  = filter (fun r => matches var l r = true) (cache (reference right var done)).
Proof.
  intros HA. unfold hits. rewrite (a_cache _ _ _ _ _ _ HA).
  rewrite list_filter_filter. apply list_filter_iff. intros r. split.
  - by intros [? _].
  - intros Hm. split; [done|]. symmetry. by apply index_of_matches.
Qed.

Lemma cached_binds right var lt rts :
  binds var lt -> Forall (binds var) (cached right var lt rts).
Proof.
  intros Hb. pose proof (cached_matches right var lt rts Hb) as H.
  eapply Forall_impl; [exact H|]. simpl. intros r Hr. by eapply matches_binds.
Qed.

Lemma Agrees_step (E : Env) (right : RemoteSource) (k : nat)
    (var : list string) (done : list dict) (s : t) (tp : loc) :
  monotone E -> WF E k var s -> Agrees E right var k done s ->
  (tp < length (heap s))%nat -> binds var (deref (heap s) tp) ->
  Agrees E right var k (done ++ [deref (heap s) tp]) (probed E right k var tp s).
Proof.
  intros Hmono Hwf HA Htp Hb.
  pose proof (hits_cache E right var k done s (deref (heap s) tp) HA) as Hh.
  destruct HA as [Hc Hbs Ho Hcalls Hcache].
  set (lt := deref (heap s) tp) in *.
  set (n := index_of E var k lt).
  pose proof (probed_effect E right k var tp s Hwf Htp Hb) as (_ & Hc' & _).
  pose proof (probed_hits E right k var tp s Hwf Hc Hmono Htp Hb) as Hcase.
  cbn zeta in Hcase. fold lt in Hcase. fold n in Hcase.
  set (s' := probed E right k var tp s) in *.
  pose proof (reference_snoc right var done lt) as Eref.
  unfold serve in Eref. rewrite <- Hh in Eref.
  destruct Hcase as [(Hne & Hr & Ho' & Hcalls')|(Hnil & Hother & Hr & Ho' & Hcalls')].
  - destruct (hits E var k s lt) as [|h hs] eqn:Eh; [done|].
    split; rewrite ?Eref; simpl.
    + by apply Hc'.
    + done.
    + by rewrite Ho', Ho.
    + by rewrite Hcalls'.
    + intros m. by rewrite Hr.
  - rewrite Hnil in Eref. unfold answer in *. rewrite <- Hcalls in Eref.
    cbn zeta in Eref.
    set (news := cached right var lt _) in *.
    assert (Hnb : Forall (binds var) news) by by apply cached_binds.
    assert (Hidx : Forall (fun r => index_of E var k r = n) news).
    { pose proof (cached_matches right var lt
                    (default [] (until_EOF (remote_execute right
                       (length (calls s)) var (instances_of var lt)))) Hb) as H.
      eapply Forall_impl; [exact H|]. simpl.
      intros r Hr'. symmetry. by apply index_of_matches. }
    split; rewrite ?Eref; simpl.
    + by apply Hc'.
    + by apply Forall_app.
    + by rewrite Ho', Ho.
    + by rewrite Hcalls'.
    + intros m. rewrite filter_app.
      destruct (decide (m = n)) as [->|Hne].
      * rewrite Hr, Hcache. f_equal. symmetry. by apply filter_all.
      * rewrite Hother, Hcache by done.
        rewrite (filter_none _ news); [by rewrite app_nil_r|].
        eapply Forall_impl; [exact Hidx|]. simpl. intros r -> ?. done.
Qed.

(** [execute] under a clock that never goes back computes the reference. *)
Lemma execute_reference (E : Env) (right : RemoteSource) (k : nat)
    (var : list string) (ls : list dict) (rest : list msg) :
  monotone E -> (0 < k)%nat -> var <> [] -> EOF_terminated right ->
  Forall (binds var) ls ->
  exists s',
    execute E (init k var) (map Tuple ls ++ EOF :: rest) right
      = Ok (map Tuple (outs (reference right var ls)) ++ [EOF], s') /\
    calls s' = asked (reference right var ls) /\
    forall n, rviews s' n
              = filter (fun r => index_of E var k r = n)
                       (cache (reference right var ls)).
Proof.
  intros Hmono Hk Hvar Hsrc Hls.
  destruct (execute_run E right k var Hsrc (Agrees E right var k) ls rest
              Hk Hvar Hls) as (s' & Hrun & Hwf & HA).
  - intros done s c [H1 H2 H3 H4 H5].
    split; [exact H1 | exact H2 | exact H3 | exact H4 | exact H5].
  - intros done s tp Hwf HA Htp Hb. by apply Agrees_step.
  - split; [apply loaded_Clocked | constructor | done | done |].
    intros n. unfold rviews. simpl. by rewrite part_Table_new.
  - exists (set_results [] s'). rewrite Hrun, (a_outs _ _ _ _ _ _ HA).
    split; [done|]. split; [exact (a_calls _ _ _ _ _ _ HA)|].
    exact (a_cache _ _ _ _ _ _ HA).
Qed.

(** X13. Under a clock that never goes back, for a left input of mappings
    that bind the join variables and a source whose streams end with EOF,
    the output of [execute], the calls it makes and the right table it
    leaves are those of the reference [reference]: they depend neither on
    the hash, nor on the number of partitions, nor on the readings of the
    clock. *)
Theorem execute_computes_reference (E : Env) (right : RemoteSource) (k : nat)
    (var : list string) (ls : list dict) (rest : list msg) :
  monotone E -> (0 < k)%nat -> var <> [] -> EOF_terminated right ->
  Forall (binds var) ls ->
  exists s',
    execute E (init k var) (map Tuple ls ++ EOF :: rest) right
      = Ok (map Tuple (outs (reference right var ls)) ++ [EOF], s') /\
    calls s' = asked (reference right var ls) /\
    forall n, rviews s' n
              = filter (fun r => index_of E var k r = n)
                       (cache (reference right var ls)).
Proof. apply execute_reference. Qed.

Lemma execute_computes_reference_witness :
  exists s',
    execute ticking (init 4 ["x"]) (map Tuple left_a ++ [EOF]) source_a
      = Ok (map Tuple (outs (reference source_a ["x"] left_a)) ++ [EOF], s') /\
    calls s' = asked (reference source_a ["x"] left_a) /\
    forall n, rviews s' n
              = filter (fun r => index_of ticking ["x"] 4 r = n)
                       (cache (reference source_a ["x"] left_a)).
Proof.
  apply (execute_computes_reference ticking source_a 4 ["x"] left_a []
           ticking_monotone);
    [lia | discriminate | apply source_a_terminated | apply left_a_binds].
Defined.

(** ** One call for each combination of join values *)

(** The left mappings that join with no earlier one. *)
Definition firsts (var : list string) (ls : list dict) : list dict :=
  foldl (fun acc l =>
           if existsb (fun l' => matches var l' l) acc then acc else acc ++ [l])
        [] ls.

Lemma firsts_snoc var ls l :
  firsts var (ls ++ [l])
  = if existsb (fun l' => matches var l' l) (firsts var ls)
    then firsts var ls else firsts var ls ++ [l].
Proof. unfold firsts. by rewrite foldl_app. Qed.

Lemma filter_nonempty_iff {A} (P : A -> Prop) `{forall x, Decision (P x)}
    (l : list A) :
  filter P l <> [] <-> exists x, x ∈ l /\ P x.
Proof.
  split.
  - destruct (filter P l) as [|x xs] eqn:Ef; [done|]. intros _.
    assert (Hx : x ∈ filter P l) by (rewrite Ef; left).
    apply list_elem_of_filter in Hx as [? ?]. eauto.
  - intros (x & Hx & HP) Hnil.
    assert (Hin : x ∈ filter P l) by (by apply list_elem_of_filter).
    rewrite Hnil in Hin. by apply not_elem_of_nil in Hin.
Qed.

Lemma existsb_matches var acc l :
  existsb (fun l' => matches var l' l) acc = true
  <-> exists l', l' ∈ acc /\ matches var l' l = true.
Proof.
  rewrite existsb_exists. split; intros (x & Hx & Hm); exists x;
    (split; [by apply list_elem_of_In | done]).
Qed.

Lemma instances_matches var l r :
  binds var l -> binds var r ->
  instances_of var l = instances_of var r -> matches var l r = true.
Proof.
  unfold binds, instances_of. intros Hl Hr Heq. apply matches_spec.
  intros v Hv. rewrite Forall_forall in Hl, Hr.
  destruct (Hl v Hv) as [x Hx], (Hr v Hv) as [y Hy].
  assert (Hxy : l !!! v = r !!! v).
  { clear Hl Hr. induction var as [|w var IH];
      [by apply not_elem_of_nil in Hv|].
    simpl in Heq. injection Heq as Hw Heq.
    apply elem_of_cons in Hv as [->|Hv]; [done | by apply IH]. }
  rewrite Hx, Hy. f_equal.
  by rewrite (lookup_total_correct _ _ _ Hx), (lookup_total_correct _ _ _ Hy) in Hxy.
Qed.

(** The calls of the reference, and what its cache holds. *)
Record Asked (right : RemoteSource) (var : list string) (ls : list dict)
  : Prop := mkAsked {
  k_asked : asked (reference right var ls)
            = map (fun l => (var, instances_of var l)) (firsts var ls);
  k_binds : Forall (binds var) (firsts var ls);
  k_cache : forall l,
      filter (fun r => matches var l r = true) (cache (reference right var ls))
        <> []
      <-> exists l', l' ∈ firsts var ls /\ matches var l' l = true;
  k_nodup : NoDup (map (instances_of var) (firsts var ls))
}.

Lemma Asked_all right var ls : Forall (binds var) ls -> Asked right var ls.
Proof.
  induction ls as [|l ls IH] using rev_ind; intros Hls.
  - split; [done | constructor | | constructor].
    intros l. split; [done|]. by intros (? & ?%not_elem_of_nil & _).
  - apply Forall_app in Hls as [Hls Hl]. apply Forall_cons in Hl as [Hl _].
    destruct (IH Hls) as [Ha Hb Hc Hn].
    pose proof (firsts_snoc var ls l) as Ef.
    pose proof (reference_snoc right var ls l) as Er. unfold serve in Er.
    destruct (existsb _ (firsts var ls)) eqn:Eex.
    + apply existsb_matches in Eex. apply Hc in Eex.
      destruct (filter _ (cache (reference right var ls))) as [|h hs] eqn:Ef';
        [done|].
      split; rewrite ?Ef, ?Er; simpl; [done | done | | done].
      intros x. apply Hc.
    + assert (Hnone : filter (fun r => matches var l r = true)
                        (cache (reference right var ls)) = []).
      { destruct (filter _ (cache (reference right var ls))) eqn:Ef'; [done|].
        assert (Hne : filter (fun r => matches var l r = true)
                        (cache (reference right var ls)) <> [])
          by (by rewrite Ef').
        apply Hc, existsb_matches in Hne. congruence. }
      rewrite Hnone in Er. cbn zeta in Er.
      set (news := cached right var l _) in Er.
      assert (Hm : Forall (fun r => matches var l r = true) news)
        by by apply cached_matches.
      assert (Hne : news <> []) by apply cached_nonempty.
      split; rewrite ?Ef, ?Er; simpl.
      * by rewrite map_app, Ha.
      * apply Forall_app. split; [done | by constructor].
      * intros x. rewrite filter_app.
        assert (Hnews : filter (fun r => matches var x r = true) news <> []
                        <-> matches var l x = true).
        { rewrite filter_nonempty_iff. split.
          - intros (r & Hr & Hxr). rewrite Forall_forall in Hm.
            apply (matches_trans var l r x); [by apply Hm|].
            by rewrite matches_sym.
          - intros Hlx. destruct news as [|r news']; [done|].
            exists r. split; [left|]. apply Forall_cons in Hm as [Hlr _].
            apply (matches_trans var x l r); [by rewrite matches_sym | done]. }
        split.
        -- intros Hne'.
           destruct (filter (fun r => matches var x r = true)
                       (cache (reference right var ls))) eqn:Ec.
           ++ exists l. split; [apply elem_of_app; right; left|].
              apply Hnews. by rewrite app_nil_l in Hne'.
           ++ assert (Hc1 : filter (fun r => matches var x r = true)
                              (cache (reference right var ls)) <> [])
                by (by rewrite Ec).
              apply Hc in Hc1 as (l' & Hl' & Hm').
              exists l'. split; [apply elem_of_app; by left | done].
        -- intros (l' & [Hl'|Hl'%list_elem_of_singleton]%elem_of_app & Hm').
           ++ assert (Hc1 : filter (fun r => matches var x r = true)
                              (cache (reference right var ls)) <> [])
                by (apply Hc; eauto).
              intros [Hnil _]%app_eq_nil. done.
           ++ subst l'. apply Hnews in Hm'. by intros [_ Hnil]%app_eq_nil.
      * rewrite map_app. simpl. apply NoDup_app. split; [done|]. split.
        -- intros i (l' & -> & Hl')%list_elem_of_fmap
             Hi%list_elem_of_singleton.
           assert (Hex : existsb (fun l' => matches var l' l) (firsts var ls)
                         = true).
           { apply existsb_matches. exists l'. split; [done|].
             apply instances_matches; [|done|done].
             rewrite Forall_forall in Hb. by apply Hb. }
           congruence.
        -- apply NoDup_singleton.
Qed.

(** X14. Under a clock that never goes back, [execute] calls the source
    once for every left mapping that joins with no earlier left mapping,
    in the order of the input, with the mapping's join values: no
    combination of join values is asked for twice. *)
Theorem source_asked_once_per_key (E : Env) (right : RemoteSource) (k : nat)
    (var : list string) (ls : list dict) (rest : list msg) :
  monotone E -> (0 < k)%nat -> var <> [] -> EOF_terminated right ->
  Forall (binds var) ls ->
  exists out s',
    execute E (init k var) (map Tuple ls ++ EOF :: rest) right = Ok (out, s') /\
    calls s' = map (fun l => (var, instances_of var l)) (firsts var ls) /\
    NoDup (map snd (calls s')).
Proof.
  intros Hmono Hk Hvar Hsrc Hls.
  destruct (execute_reference E right k var ls rest Hmono Hk Hvar Hsrc Hls)
    as (s' & Hrun & Hcalls & _).
  destruct (Asked_all right var ls Hls) as [Ha _ _ Hn].
  eexists _, s'. split; [exact Hrun|]. rewrite Hcalls, Ha. split; [done|].
  by rewrite map_map.
Qed.

Lemma source_asked_once_per_key_witness :
  exists out s',
    execute ticking (init 4 ["x"]) (map Tuple left_a ++ [EOF]) source_a
      = Ok (out, s') /\
    calls s' = map (fun l => (["x"], instances_of ["x"] l)) (firsts ["x"] left_a) /\
    NoDup (map snd (calls s')).
Proof.
  apply (source_asked_once_per_key ticking source_a 4 ["x"] left_a []
           ticking_monotone);
    [lia | discriminate | apply source_a_terminated | apply left_a_binds].
Defined.

(** ** A cached padding carries the bindings of the mapping it was made for *)

(** X15. Under a clock that never goes back, when two left mappings [l1]
    and [l2] agree on the join variables and the source has no answer for
    [l1], the source is called once, the first output is [l1] padded with
    the empty string for the attributes of the source, and the second
    output is that same mapping updated into a copy of [l2]: every key
    that [l1] binds has the value of [l1] in it, also where [l2] binds it
    otherwise. *)
Theorem padded_record_overrides_later_mapping
    (E : Env) (right : RemoteSource) (k : nat) (var : list string)
    (l1 l2 : dict) (rest : list msg) :
  monotone E -> (0 < k)%nat -> var <> [] -> EOF_terminated right ->
  binds var l1 -> binds var l2 -> matches var l1 l2 = true ->
  until_EOF (remote_execute right 0 var (instances_of var l1)) = Some [] ->
  exists s',
    execute E (init k var) (Tuple l1 :: Tuple l2 :: EOF :: rest) right
      = Ok ([Tuple (l1 ∪ padding (atts right));
             Tuple ((l1 ∪ padding (atts right)) ∪ l2); EOF], s') /\
    calls s' = [(var, instances_of var l1)] /\
    forall key x, l1 !! key = Some x ->
      ((l1 ∪ padding (atts right)) ∪ l2) !! key = Some x.
Proof.
  intros Hmono Hk Hvar Hsrc Hb1 Hb2 Hm Hans.
  destruct (execute_reference E right k var [l1; l2] rest Hmono Hk Hvar Hsrc)
    as (s' & Hrun & Hcalls & _); [by repeat constructor|].
  assert (Hm2 : matches var l2 (l1 ∪ padding (atts right)) = true).
  { apply (matches_trans var l2 l1); [by rewrite matches_sym|].
    by apply matches_union_l. }
  assert (Href : reference right var [l1; l2]
                 = mkServed [l1 ∪ padding (atts right)]
                     [l1 ∪ padding (atts right);
                      (l1 ∪ padding (atts right)) ∪ l2]
                     [(var, instances_of var l1)]).
  { unfold reference. simpl. unfold serve at 2. simpl. rewrite Hans. simpl.
    unfold serve. simpl. rewrite filter_cons_True by done. simpl.
    by rewrite (assoc_L (∪)), (idemp_L (∪)). }
  exists s'. rewrite Href in Hrun, Hcalls. split; [exact Hrun|].
  split; [exact Hcalls|]. intros key x Hx.
  apply lookup_union_Some_l. by apply lookup_union_Some_l.
Qed.

Lemma padded_record_overrides_later_mapping_witness :
  exists s',
    execute ticking (init 4 ["x"])
      [Tuple {[ "x" := "k"; "y" := "1" ]}; Tuple {[ "x" := "k"; "y" := "2" ]}; EOF]
      source_a
      = Ok ([Tuple ({[ "x" := "k"; "y" := "1" ]} ∪ padding (atts source_a));
             Tuple (({[ "x" := "k"; "y" := "1" ]} ∪ padding (atts source_a))
                    ∪ {[ "x" := "k"; "y" := "2" ]}); EOF], s') /\
    calls s' = [(["x"], instances_of ["x"] {[ "x" := "k"; "y" := "1" ]})] /\
    forall key x, ({[ "x" := "k"; "y" := "1" ]} : dict) !! key = Some x ->
      (({[ "x" := "k"; "y" := "1" ]} ∪ padding (atts source_a))
       ∪ {[ "x" := "k"; "y" := "2" ]}) !! key = Some x.
Proof.
  apply (padded_record_overrides_later_mapping ticking source_a 4 ["x"]
           {[ "x" := "k"; "y" := "1" ]} {[ "x" := "k"; "y" := "2" ]} []
           ticking_monotone).
  - lia.
  - discriminate.
  - apply source_a_terminated.
  - constructor; [by eexists | constructor].
  - constructor; [by eexists | constructor].
  - by vm_compute.
  - by vm_compute.
Defined.

(** ** Exceptions *)

Lemma read_left_blocks (ls : list dict) (s : t) :
  read_left (map Tuple ls) s = Raise QueueBlocked.
Proof.
  revert s. induction ls as [|d ls IH]; intros s; [done|].
  simpl. unfold new_dict, alloc. apply IH.
Qed.

(** X16. The operator is blocking: on a left queue that delivers mappings
    but no EOF, [execute] never gets past reading it, whatever the
    mappings, the source and the state of the operator; nothing is put on
    the output queue before the whole left input has been read. *)
Theorem execute_blocks_without_EOF (E : Env) (self : t) (ls : list dict)
    (right : RemoteSource) :
  execute E self (map Tuple ls) right = Raise QueueBlocked.
Proof. unfold execute. by rewrite read_left_blocks. Qed.

Lemma key_loop_unbound var d att1 :
  ~ binds var d -> key_loop var d att1 = Raise KeyError.
Proof.
  revert att1. induction var as [|v var IH]; intros att1 Hnb.
  - exfalso. apply Hnb. constructor.
  - simpl. unfold getitem. destruct (d !! v) as [x|] eqn:Ev; [|done].
    simpl. apply IH. intros Hb. apply Hnb. constructor; [by eexists | done].
Qed.

Section Prefix.
Context (E : Env) (right : RemoteSource) (k : nat) (var : list string).
Context (Hsrc : EOF_terminated right).

(** [probe_all] through a prefix of mappings that bind the join
    variables. *)
Lemma probe_all_prefix (tail : list (item loc)) :
  tail <> [] ->
  forall tps s,
    WF E k var s ->
    Forall (fun tp => (tp < length (heap s))%nat /\ binds var (deref (heap s) tp))
           tps ->
    exists s',
      probe_all E right (map Tuple tps ++ tail) s = probe_all E right tail s' /\
      WF E k var s' /\ exists ext, heap s' = heap s ++ ext.
Proof.
  intros Htail. induction tps as [|tp tps IH]; intros s Hwf Htps.
  - exists s. split; [done|]. split; [done|]. exists []. by rewrite app_nil_r.
  - apply Forall_cons in Htps as [[Htp Hb] Htps].
    cbn [map app]. rewrite probe_all_cons by (by destruct tps, tail).
    set (l' := map Tuple tps ++ tail).
    pose proof (WF_set_left _ _ _ l' _ Hwf) as Hwf1.
    rewrite (insertAndProbe_spec E right k var tp (set_left l' s)); cycle 1.
    { exact (wf_k _ _ _ _ Hwf). } { exact (wf_var _ _ _ _ Hwf). }
    { exact (wf_vars _ _ _ _ Hwf1). } { exact (wf_left _ _ _ _ Hwf1). }
    { exact (wf_right _ _ _ _ Hwf1). } { exact Htp. } { exact Hb. }
    { apply Forall_forall. intros r Hr.
      by destruct (wf_recs _ _ _ _ Hwf1 _ r Hr). }
    { exact Hsrc. }
    simpl bind.
    destruct (probed_effect E right k var tp (set_left l' s) Hwf1 Htp Hb)
      as (Hwf2 & _ & [ext Hext] & _).
    set (s1 := probed E right k var tp (set_left l' s)) in *.
    change (heap (set_left l' s)) with (heap s) in *.
    destruct (IH s1 Hwf2) as (s' & Hrun & Hwf' & [ext' Hext']).
    { eapply Forall_impl; [exact Htps|]. simpl. intros l [Hl Hbl].
      rewrite Hext, length_app, deref_app_l by done. split; [lia | done]. }
    exists s'. split; [exact Hrun|]. split; [exact Hwf'|].
    exists (ext ++ ext'). by rewrite Hext', Hext, app_assoc.
Qed.
End Prefix.

(** X17. When the left input holds a mapping that does not bind every join
    variable, after mappings that do, [execute] raises [KeyError]: nothing
    is put on the output queue, not even for the mappings before it. *)
Theorem unbound_join_variable_raises (E : Env) (right : RemoteSource)
    (k : nat) (var : list string) (pre : list dict) (l : dict)
    (post : list dict) (rest : list msg) :
  (0 < k)%nat -> var <> [] -> EOF_terminated right ->
  Forall (binds var) pre -> ~ binds var l ->
  execute E (init k var) (map Tuple (pre ++ l :: post) ++ EOF :: rest) right
  = Raise KeyError.
Proof.
  intros Hk Hvar Hsrc Hpre Hl.
  unfold execute. rewrite read_left_spec. simpl bind.
  set (ls := pre ++ l :: post).
  change (set_left _ (set_heap _ (set_left [] (init k var))))
    with (loaded k var ls).
  change (left (loaded k var ls)) with (map Tuple (seq 0 (length ls)) ++ [EOF]).
  assert (Hlen : length ls = (length pre + S (length post))%nat)
    by (unfold ls; rewrite length_app; done).
  rewrite Hlen, seq_app, map_app, <- app_assoc. simpl.
  destruct (probe_all_prefix E right k var Hsrc
              (Tuple (length pre) :: map Tuple (seq (S (length pre)) (length post))
                 ++ [EOF]) ltac:(done) (seq 0 (length pre)) (loaded k var ls))
    as (s' & Hrun & Hwf & [ext Hext]).
  { by apply loaded_WF. }
  { apply Forall_forall. intros tp Htp%elem_of_seq. simpl. split; [lia|].
    rewrite Forall_forall in Hpre. apply Hpre.
    apply list_elem_of_lookup. exists tp. unfold deref, ls.
    rewrite lookup_total_app_l by lia.
    apply list_lookup_lookup_total_lt. lia. }
  rewrite Hrun. rewrite probe_all_cons by (by intros [_ ?]%app_eq_nil).
  unfold insertAndProbe. cbn [vars set_left heap].
  rewrite (wf_vars _ _ _ _ Hwf).
  assert (Hd : deref (heap s') (length pre) = l).
  { rewrite Hext. simpl. rewrite deref_app_l by (unfold ls; rewrite length_app; simpl; lia).
    unfold ls. apply deref_fresh. }
  change (heap (set_left _ s')) with (heap s').
  by rewrite Hd, key_loop_unbound.
Qed.

Lemma unbound_join_variable_raises_witness :
  execute ticking (init 4 ["x"])
    (map Tuple ([ {[ "x" := "a" ]} ] ++ {[ "y" := "1" ]} :: []) ++ [EOF])
    source_a
  = Raise KeyError.
Proof.
  apply (unbound_join_variable_raises ticking source_a 4 ["x"]).
  - lia.
  - discriminate.
  - apply source_a_terminated.
  - constructor; [|constructor]. constructor; [by eexists | constructor].
  - intros [[x Hx] _]%Forall_cons. by vm_compute in Hx.
Defined.

(** ** No join variable *)

Lemma index_of_nil E k (d d' : dict) : index_of E [] k d = index_of E [] k d'.
Proof. reflexivity. Qed.

(** With no join variable, a mapping whose partition is empty is answered
    by the source. *)
Lemma insertAndProbe_no_variable_first (E : Env) (right : RemoteSource)
    (k : nat) (tp : loc) (s : t) :
  (0 < k)%nat -> vars s = [] ->
  table_ok k (left_table s) -> table_ok k (right_table s) ->
  (tp < length (heap s))%nat ->
  part (right_table s) (index_of E [] k ∅) = [] ->
  EOF_terminated right ->
  insertAndProbe E right tp s
  = Ok (contacted E right (index_of E [] k ∅) [] (deref (heap s) tp)
          (inserted E (index_of E [] k ∅) tp s)).
Proof.
  intros Hk Hvars Hleft Hright Htp Hpart Hsrc.
  destruct s as [h ltb rtb res vs lf tk cl]. simpl in *. subst vs.
  unfold insertAndProbe. simpl.
  unfold partition_index. destruct Hleft as [Hsz Hlen]. rewrite Hsz.
  assert (Hz : (Z.of_nat k =? 0) = false) by (apply Z.eqb_neq; lia).
  rewrite Hz. simpl.
  set (i := hash E "" mod Z.of_nat k).
  assert (Hi : 0 <= i < Z.of_nat k) by (apply Z.mod_pos_bound; lia).
  erewrite insertRecord_ok; [|split; eassumption|done]. simpl.
  destruct (get_partition_ok k rtb i Hright Hi) as (p & Hp & Hrec).
  rewrite Hp. simpl.
  change (Z.to_nat i) with (index_of E [] k ∅) in *.
  set (n := index_of E [] k ∅) in *.
  rewrite Hpart in Hrec.
  unfold probe. simpl. rewrite Hrec. simpl.
  unfold contacted, answer, instances_of. simpl.
  destruct (Hsrc (length cl) [] []) as [rts Hrts].
  rewrite Hrts. simpl.
  destruct (until_EOF_Some _ _ Hrts) as [more ->].
  set (record := mkRecord tp (clock E tk) 0).
  destruct rts as [|rt rts]; simpl.
  - erewrite optional_branch_spec; [reflexivity|exact Hi|exact Hright|exact Htp].
  - erewrite (join_branch_spec E k record i [] (deref h tp));
      [reflexivity|exact Hi|constructor|exact Hright|exact Htp|reflexivity].
Qed.

(** With no join variable, a mapping that finds an earlier record in its
    partition reads the local variable [join] before any assignment. *)
Lemma insertAndProbe_no_variable_next (E : Env) (right : RemoteSource)
    (k : nat) (tp : loc) (s : t) (r : Record_) (rs : list Record_) :
  (0 < k)%nat -> vars s = [] ->
  table_ok k (left_table s) -> table_ok k (right_table s) ->
  part (right_table s) (index_of E [] k ∅) = r :: rs ->
  ats r <= clock E (ticks s) ->
  insertAndProbe E right tp s = Raise UnboundLocalError.
Proof.
  intros Hk Hvars Hleft Hright Hpart Hats.
  destruct s as [h ltb rtb res vs lf tk cl]. simpl in *. subst vs.
  unfold insertAndProbe. simpl.
  unfold partition_index. destruct Hleft as [Hsz Hlen]. rewrite Hsz.
  assert (Hz : (Z.of_nat k =? 0) = false) by (apply Z.eqb_neq; lia).
  rewrite Hz. simpl.
  set (i := hash E "" mod Z.of_nat k).
  assert (Hi : 0 <= i < Z.of_nat k) by (apply Z.mod_pos_bound; lia).
  erewrite insertRecord_ok; [|split; eassumption|done]. simpl.
  destruct (get_partition_ok k rtb i Hright Hi) as (p & Hp & Hrec).
  rewrite Hp. simpl.
  change (Z.to_nat i) with (index_of E [] k ∅) in *.
  rewrite Hpart in Hrec.
  unfold probe. simpl. rewrite Hrec. simpl.
  assert (Hd : isDuplicated (mkRecord tp (clock E tk) 0) r = false).
  { apply not_true_is_false. intros Hd%isDuplicated_spec. simpl in Hd. lia. }
  by rewrite Hd.
Qed.

(** X18. With an empty list of join variables (the two sides share no
    variable) and a clock that never goes back, [execute] raises
    [UnboundLocalError] as soon as the left input holds two mappings: the
    second one finds the record cached for the first, and [probe] reads
    [join], which only the loop over the join variables assigns. *)
Theorem no_join_variable_second_mapping_raises (E : Env)
    (right : RemoteSource) (k : nat) (l1 l2 : dict) (ls : list dict)
    (rest : list msg) :
  monotone E -> (0 < k)%nat -> EOF_terminated right ->
  execute E (init k []) (map Tuple (l1 :: l2 :: ls) ++ EOF :: rest) right
  = Raise UnboundLocalError.
Proof.
  intros Hmono Hk Hsrc.
  unfold execute. rewrite read_left_spec. cbn [bind].
  change (set_left _ (set_heap _ (set_left [] (init k []))))
    with (loaded k [] (l1 :: l2 :: ls)).
  set (s0 := loaded k [] (l1 :: l2 :: ls)).
  change (left s0)
    with (Tuple 0%nat :: Tuple 1%nat
            :: (map Tuple (seq 2 (length ls)) ++ [@EOF loc])).
  set (tl := map Tuple (seq 2 (length ls)) ++ [@EOF loc]).
  assert (Htl : tl <> []) by (unfold tl; by intros [_ ?]%app_eq_nil).
  rewrite probe_all_cons by done.
  set (n := index_of E [] k ∅).
  assert (Hn : (n < k)%nat) by (by apply index_of_lt).
  assert (Htab : table_ok k (Table_new k))
    by (split; simpl; [done | by rewrite length_replicate]).
  rewrite (insertAndProbe_no_variable_first E right k 0%nat); cycle 1.
  { exact Hk. } { done. } { exact Htab. } { exact Htab. } { simpl. lia. }
  { simpl. apply part_Table_new. } { exact Hsrc. }
  cbn [bind]. fold n.
  set (s1 := inserted E n 0%nat (set_left (Tuple 1%nat :: tl) s0)).
  destruct (contacted_Step E right n [] (deref (heap (set_left (Tuple 1%nat :: tl) s0)) 0%nat) s1)
    as (recs & locs & Hstep & Hviews & _); [constructor|].
  set (s2 := contacted E right n [] _ s1) in *.
  assert (Hrecs : recs <> []).
  { intros ->. simpl in Hviews. symmetry in Hviews.
    by apply cached_nonempty in Hviews. }
  rewrite probe_all_cons by done.
  destruct recs as [|r recs']; [done|].
  rewrite (insertAndProbe_no_variable_next E right k 1%nat (set_left tl s2) r recs');
    [done | exact Hk | | | | | ].
  - simpl. by rewrite (step_vars _ _ _ _ _ _ Hstep).
  - destruct (step_left_table _ _ _ _ _ _ Hstep) as [Hsz Hlen].
    split; simpl; [rewrite Hsz | rewrite Hlen]; simpl;
      [done | by rewrite length_alter, length_replicate].
  - simpl. rewrite (step_right_table _ _ _ _ _ _ Hstep).
    by apply table_ok_append_at.
  - simpl. rewrite (step_right_table _ _ _ _ _ _ Hstep). fold n.
    rewrite part_append_at_eq by (simpl; by rewrite length_replicate).
    simpl. by rewrite part_Table_new.
  - pose proof (step_recs _ _ _ _ _ _ Hstep) as Hr.
    apply Forall_cons in Hr as [(_ & m & Hm & ->) _].
    simpl. apply Hmono. lia.
Qed.

Lemma no_join_variable_second_mapping_raises_witness :
  execute ticking (init 4 []) (map Tuple left_a ++ [EOF]) source_a
  = Raise UnboundLocalError.
Proof.
  apply (no_join_variable_second_mapping_raises ticking source_a 4
           {[ "x" := "a"; "y" := "1" ]} {[ "x" := "a"; "y" := "2" ]} [] []
           ticking_monotone); [lia | apply source_a_terminated].
Defined.

(** ** Instantiation *)

(** X19. The operator that [instantiate(d)] builds joins on the join
    variables of the operator that [d] does not bind; instantiating it
    again with [d] changes nothing. *)
Theorem instantiate_join_vars (vars_left vars_right : gset string) (d : dict) :
  let (new_left, new_right) :=
    NestedLoopOptionalVars.instantiate vars_left vars_right d in
  NestedLoopOptionalVars.join_vars new_left new_right
  = NestedLoopOptionalVars.join_vars vars_left vars_right ∖ dom d /\
  NestedLoopOptionalVars.instantiate new_left new_right d = (new_left, new_right).
Proof.
  unfold NestedLoopOptionalVars.instantiate, NestedLoopOptionalVars.join_vars.
  split; [|f_equal]; apply set_eq; intros x;
    rewrite ?elem_of_intersection, ?elem_of_difference,
      ?elem_of_intersection; tauto.
Qed.

End NestedLoopOptionalLaws.
